(** * rdsys backend core: hashring, stencil, partitioned hashring, collection,
      backend resources and the onbasca write-back of the test pool.

    A shallow embedding of the Go sources (package [core] and the test pool of
    package [internal]) together with the properties of the specification that
    were checked against it.

    Conventions of the embedding.
    - [Hashkey] is Go's [uint64], a [Z]; keys are only compared, and converted
      once to [int64] (written out in [int64_of_uint64]).
    - Go's [int] is a 64-bit integer: additions and subtractions on it go
      through [wrap64].
    - A [time.Time] is a [Z] (nanoseconds), a [time.Duration] a [Z];
      [time_Sub] saturates as Go's [Time.Sub] does.
    - A [Resource] is an interface value holding a pointer.  [Ptr] is the
      identity of the object pointed to; the [ResourceTest] reached through
      [TestResult()] is mutable and lives in a [Store] indexed by [Ptr].
    - A runtime panic (nil map entry, nil pointer, [rand.Intn] on a
      non-positive bound) is [None] in the [option] monad.
    - [time.Now()] is an argument [now] of every operation that reads the
      clock. *)

From Stdlib Require Import ZArith Floats String Ascii.
From stdpp Require Import base option list sorting functions gmap strings pretty.

Local Open Scope Z_scope.

(** ** Scalars *)

Abbreviation Hashkey := Z (only parsing).
Abbreviation time_Time := Z (only parsing).
Abbreviation time_Duration := Z (only parsing).

Definition maxDuration : Z := 2 ^ 63 - 1.
Definition minDuration : Z := - 2 ^ 63.

(** [t.Sub(u)]: the difference, clamped to the range of a [Duration]. *)
Definition time_Sub (t u : time_Time) : time_Duration :=
  Z.max minDuration (Z.min maxDuration (t - u)).

(** Two's complement wrap-around of Go's 64-bit [int]. *)
Definition wrap64 (z : Z) : Z := (z + 2 ^ 63) mod 2 ^ 64 - 2 ^ 63.

(** The conversion [int64(seed)] of a [uint64]. *)
Definition int64_of_uint64 (k : Hashkey) : Z := wrap64 k.

(** ** Test results (package core, src/pkg/core/domain.go) *)

Inductive TestState := StateUntested | StateFunctional | StateDysfunctional.
Inductive TestSpeed := SpeedUntested | SpeedAccepted | SpeedRejected.

Record ResourceTest := mkResourceTest {
  State : TestState;
  Speed : TestSpeed;
  Ratio : option float;          (* *float64, nil = None *)
  LastTested : time_Time;
  LastPassed : time_Time;
  Error : string
}.

Definition isDysfunctional (s : TestState) : bool :=
  match s with StateDysfunctional => true | _ => false end.
Definition isFunctional (s : TestState) : bool :=
  match s with StateFunctional => true | _ => false end.
Definition isStateUntested (s : TestState) : bool :=
  match s with StateUntested => true | _ => false end.
Definition isRejected (s : TestSpeed) : bool :=
  match s with SpeedRejected => true | _ => false end.
Definition isAccepted (s : TestSpeed) : bool :=
  match s with SpeedAccepted => true | _ => false end.
Definition isSpeedUntested (s : TestSpeed) : bool :=
  match s with SpeedUntested => true | _ => false end.

(** ** Resources (the [Resource] interface of src/pkg/core/domain.go)

    The two families of implementations differ in [SetLastPassed]:
    [ResourceBase] (bridges, transports, links) writes [Test.LastPassed],
    [Dummy] has an empty method body. *)

Inductive ResourceImpl := ImplResourceBase | ImplDummy.

Record Resource := mkResource {
  Ptr : nat;                          (* identity of the object *)
  Impl : ResourceImpl;
  RType : string;                     (* Type() *)
  String_ : string;                   (* String() *)
  Uid : Hashkey;
  Oid : Hashkey;
  RelationIdentifiers : list string;
  Expiry : time_Duration;
  Distributor : string
}.

(** The mutable part of the heap: the [ResourceTest] of every resource object.
    Every object has one ([NewResourceBase] and [NewDummy] allocate it), so
    [TestResult()] is total. *)
Abbreviation Store := (nat -> ResourceTest).

Definition TestResult (st : Store) (r : Resource) : ResourceTest := st (Ptr r).

Definition withLastPassed (t : time_Time) (rt : ResourceTest) : ResourceTest :=
  {| State := State rt; Speed := Speed rt; Ratio := Ratio rt;
     LastTested := LastTested rt; LastPassed := t; Error := Error rt |}.

(** [r.SetLastPassed(lptime)]. *)
Definition SetLastPassed (r : Resource) (lptime : time_Time) (st : Store) : Store :=
  match Impl r with
  | ImplResourceBase => <[Ptr r := withLastPassed lptime (st (Ptr r))]> st
  | ImplDummy => st
  end.

(** ** Errors and events *)

Inductive error :=
| ErrAlreadyPresent          (* "resource already present in hashring" *)
| ErrHashringEmpty           (* "hashring is empty" / "Hashring is empty" *)
| ErrKeyNotFound             (* "could not find key in hashring" *)
| ErrNoResourceType (t : string). (* "No resource type %s in collection" *)

Inductive res (A : Type) := Ok (a : A) | Err (e : error).
Arguments Ok {A} a.
Arguments Err {A} e.

(** The resource event types of BackendResources, in [iota] order. *)
Inductive event := ResourceUnchanged | ResourceIsNew | ResourceChanged | ResourceIsGone.

(** ** Hashring (package core, src/unnamed/part_015) *)

Record hashnode := mkHashnode {
  hashkey : Hashkey;
  elem : Resource;
  lastUpdate : time_Time
}.

(** The slice [h.hashnodes]; the mutex and the persistence handle play no part
    in what follows. *)
Abbreviation Hashring := (list hashnode).

Definition NewHashnode (now : time_Time) (k : Hashkey) (r : Resource) : hashnode :=
  {| hashkey := k; elem := r; lastUpdate := now |}.

Definition NewHashring : Hashring := [].

(** [sort.Search(n, f)]: the loop of Go's library, [h := int(uint(i+j) >> 1)].
    Every iteration shrinks [j - i], so [n] rounds of fuel are never used up
    ([search_loop_spec] below). *)
Fixpoint search_loop (fuel : nat) (f : nat -> bool) (i j : nat) : nat :=
  match fuel with
  | O => i
  | S fuel' =>
      if (i <? j)%nat then
        let h := ((i + j) / 2)%nat in
        if f h then search_loop fuel' f i h else search_loop fuel' f (h + 1)%nat j
      else i
  end.

Definition sort_Search (n : nat) (f : nat -> bool) : nat := search_loop n f 0%nat n.

(** [h.hashnodes[i].hashkey >= k]. *)
Definition keyGe (h : Hashring) (k : Hashkey) (i : nat) : bool :=
  match h !! i with
  | Some n => k <=? hashkey n
  | None => false
  end.

(** The pair [(int, error)] returned by [getIndex]:
    [IndexFound i] is [(i, nil)], [IndexNext i] is [(i, "could not find key")]
    and [IndexEmpty] is [(-1, "hashring is empty")]. *)
Inductive indexResult := IndexFound (i : nat) | IndexNext (i : nat) | IndexEmpty.

Definition getIndex (h : Hashring) (k : Hashkey) : indexResult :=
  if (length h =? 0)%nat then IndexEmpty
  else
    let i := sort_Search (length h) (keyGe h k) in
    let i := if (length h <=? i)%nat then 0%nat else i in
    match h !! i with
    | Some n => if hashkey n =? k then IndexFound i else IndexNext i
    | None => IndexNext i
    end.

(** [sort.Sort(h)] orders the nodes by [Less], i.e. by hashkey.  Go's sort is
    not stable; it is modelled by a merge sort, and the two agree on every
    slice without repeated hashkeys. *)
Definition node_le (a b : hashnode) : Prop := hashkey a <= hashkey b.

Global Instance node_le_dec : RelDecision node_le.
Proof. intros a b. unfold node_le. apply _. Defined.

Definition sort_Sort (h : Hashring) : Hashring := merge_sort node_le h.

Definition touch (now : time_Time) (n : hashnode) : hashnode :=
  {| hashkey := hashkey n; elem := elem n; lastUpdate := now |}.

(** [maybeTestResource]: the resources on which [go r.Test()] is started
    (none, or one). *)
Definition maybeTestResource (st : Store) (now : time_Time) (h : Hashring) (r : Resource)
  : list Resource :=
  match getIndex h (Uid r) with
  | IndexFound i =>
      match h !! i with
      | Some n =>
          let oldR := elem n in
          if Oid oldR =? Oid r then
            let rTest := TestResult st oldR in
            if negb (isStateUntested (State rTest)) && negb (isSpeedUntested (Speed rTest))
               && (time_Sub now (LastTested rTest) <? Expiry oldR)
               && (isFunctional (State rTest) && isAccepted (Speed rTest))
            then []
            else [oldR]
          else [r]
      | None => [r]
      end
  | _ => [r]
  end.

(** [Add]: the new ring, the returned error and the tests started. *)
Definition Add (st : Store) (now : time_Time) (r : Resource) (h : Hashring)
  : Hashring * option error * list Resource :=
  match getIndex h (Uid r) with
  | IndexFound i => (alter (touch now) i h, Some ErrAlreadyPresent, [])
  | _ =>
      let tested := maybeTestResource st now h r in
      (sort_Sort (h ++ [NewHashnode now (Uid r) r]), None, tested)
  end.

(** [AddOrUpdate]: the new ring, the new store ([SetLastPassed] writes through
    the pointer [r]), the event and the tests started. *)
Definition AddOrUpdate (st : Store) (now : time_Time) (r : Resource) (h : Hashring)
  : Hashring * Store * event * list Resource :=
  let tested := maybeTestResource st now h r in
  match getIndex h (Uid r) with
  | IndexFound i =>
      match h !! i with
      | Some n =>
          let changed := negb (Oid (elem n) =? Oid r) in
          let e := if changed then r else elem n in
          let h' := <[i := {| hashkey := hashkey n; elem := e; lastUpdate := now |}]> h in
          let ev := if changed then ResourceChanged else ResourceUnchanged in
          let t := TestResult st e in
          if isDysfunctional (State t) || isRejected (Speed t) then
            (h', st, ResourceIsGone, tested)
          else if isFunctional (State t) && isAccepted (Speed t) then
            (h', SetLastPassed r now st, ev, tested)
          else (h', st, ev, tested)
      | None => (h, st, ResourceUnchanged, tested)
      end
  | _ => (sort_Sort (h ++ [NewHashnode now (Uid r) r]), st, ResourceIsNew, tested)
  end.

(** [remove] (and [Remove], which only adds the lock). *)
Definition remove (r : Resource) (h : Hashring) : Hashring * option error :=
  match getIndex h (Uid r) with
  | IndexFound i => (take i h ++ drop (S i) h, None)
  | IndexNext _ => (h, Some ErrKeyNotFound)
  | IndexEmpty => (h, Some ErrHashringEmpty)
  end.

Definition Remove := remove.

Definition Get (h : Hashring) (k : Hashkey) : res Resource :=
  match getIndex h k with
  | IndexEmpty => Err ErrHashringEmpty
  | IndexFound i | IndexNext i =>
      match h !! i with Some n => Ok (elem n) | None => Err ErrHashringEmpty end
  end.

Definition GetExact (h : Hashring) (k : Hashkey) : res Resource :=
  match getIndex h k with
  | IndexFound i =>
      match h !! i with Some n => Ok (elem n) | None => Err ErrKeyNotFound end
  | IndexNext _ => Err ErrKeyNotFound
  | IndexEmpty => Err ErrHashringEmpty
  end.

(** [GetMany]: [num] is a Go [int]; the loop runs [j] from [i] to [num+i-1]
    and reads [h.hashnodes[j % h.Len()]]. *)
Definition GetMany (h : Hashring) (k : Hashkey) (num : Z) : res (list Resource) :=
  if (length h =? 0)%nat then Err ErrHashringEmpty
  else
    let num := if Z.of_nat (length h) <=? num then Z.of_nat (length h) else num in
    match getIndex h k with
    | IndexEmpty => Err ErrHashringEmpty
    | IndexFound i | IndexNext i =>
        Ok (omap (fun j => elem <$> h !! (j mod length h)%nat) (seq i (Z.to_nat num)))
    end.

Definition GetAll (h : Hashring) : list Resource := elem <$> h.

Definition FilterFunc := Resource -> bool.

Definition Filter (f : FilterFunc) (h : Hashring) : list Resource :=
  filter (fun r => f r = true) (elem <$> h).

Definition Clear (h : Hashring) : Hashring := [].

(** *** Prune

    [Prune] ranges over [h.hashnodes] while [h.remove] shortens it.  The range
    statement evaluates the slice once: it visits the indices [0 .. len-1] of
    the original slice and reads each node from the backing array at the time
    of the visit.  [remove] builds [append(h.hashnodes[:i], h.hashnodes[i+1:]...)]
    in that same backing array: the nodes behind [i] move one slot to the left
    and the last slot keeps its old content.  The backing array is therefore
    explicit here: [arr] is the array, [n] the current length of
    [h.hashnodes]. *)
Definition remove_in_place (arr : list hashnode) (n i : nat) : list hashnode :=
  take i arr ++ take (n - 1 - i) (drop (S i) arr) ++ drop (n - 1) arr.

Definition expired (now : time_Time) (node : hashnode) : bool :=
  Expiry (elem node) <? time_Sub now (lastUpdate node).

Fixpoint Prune_loop (now : time_Time) (idxs : list nat) (arr : list hashnode) (n : nat)
  (pruned : list Resource) : list hashnode * nat * list Resource :=
  match idxs with
  | [] => (arr, n, pruned)
  | idx :: idxs' =>
      match arr !! idx with
      | Some node =>
          if expired now node then
            let pruned' := pruned ++ [elem node] in
            match getIndex (take n arr) (Uid (elem node)) with
            | IndexFound i => Prune_loop now idxs' (remove_in_place arr n i) (n - 1) pruned'
            | _ => Prune_loop now idxs' arr n pruned'
            end
          else Prune_loop now idxs' arr n pruned
      | None => (arr, n, pruned)
      end
  end.

(** [Prune]: the ring left behind and the returned slice [pruned]. *)
Definition Prune (now : time_Time) (h : Hashring) : Hashring * list Resource :=
  let '(arr, n, pruned) := Prune_loop now (seq 0 (length h)) h (length h) [] in
  (take n arr, pruned).

(** ** The ring invariant and the binary search *)

Definition node_lt (a b : hashnode) : Prop := hashkey a < hashkey b.

(** Sorted ascending by hashkey, no hashkey twice. *)
Definition ring_ok (h : Hashring) : Prop := StronglySorted node_lt h.

(** Every node is filed under the UID of its resource. *)
Definition keys_ok (h : Hashring) : Prop := Forall (fun n => hashkey n = Uid (elem n)) h.

Definition has_key (h : Hashring) (k : Hashkey) : Prop := k ∈ hashkey <$> h.

Lemma ring_ok_lookup_lt (h : Hashring) i j a b :
  ring_ok h -> h !! i = Some a -> h !! j = Some b -> (i < j)%nat -> hashkey a < hashkey b.
Proof.
  intros Hs. revert i j. induction Hs as [|x l Hs IH Hx]; intros i j Ha Hb Hij.
  - discriminate.
  - destruct i as [|i]; destruct j as [|j]; try lia; simpl in *.
    + injection Ha as <-. rewrite Forall_forall in Hx. apply Hx.
      eapply list_elem_of_lookup_2; eauto.
    + eapply IH; eauto. lia.
Qed.

Lemma ring_ok_lookup_inj (h : Hashring) i j a b :
  ring_ok h -> h !! i = Some a -> h !! j = Some b -> hashkey a = hashkey b -> i = j.
Proof.
  intros Hs Ha Hb Hk.
  destruct (Nat.lt_trichotomy i j) as [Hlt|[Heq|Hgt]]; [|done|].
  - pose proof (ring_ok_lookup_lt h i j a b Hs Ha Hb Hlt). lia.
  - pose proof (ring_ok_lookup_lt h j i b a Hs Hb Ha Hgt). lia.
Qed.

Lemma ring_ok_NoDup (h : Hashring) : ring_ok h -> NoDup (hashkey <$> h).
Proof.
  induction 1 as [|x l Hs IH Hx]; simpl; constructor; [|done].
  rewrite list_elem_of_fmap. intros (y & Hy & Hin).
  rewrite Forall_forall in Hx. specialize (Hx y Hin). unfold node_lt in Hx. lia.
Qed.

Lemma ring_ok_Sorted_le (h : Hashring) : ring_ok h -> Sorted Z.le (hashkey <$> h).
Proof.
  induction 1 as [|x l Hs IH Hx]; simpl; constructor; [done|].
  destruct l as [|y l]; simpl; constructor.
  apply Forall_cons_1 in Hx as [Hx _]. unfold node_lt in Hx. lia.
Qed.

(** The loop of [sort.Search] keeps "everything left of [i] is false,
    everything from [j] on is true" and ends with [i = j]. *)
Lemma search_loop_spec (n : nat) (f : nat -> bool) :
  (forall x y, (x <= y < n)%nat -> f x = true -> f y = true) ->
  forall fuel i j,
    (i <= j <= n)%nat -> (j - i <= fuel)%nat ->
    (forall x, (x < i)%nat -> f x = false) ->
    (forall x, (j <= x < n)%nat -> f x = true) ->
    (i <= search_loop fuel f i j <= j)%nat /\
    (forall x, (x < search_loop fuel f i j)%nat -> f x = false) /\
    (forall x, (search_loop fuel f i j <= x < n)%nat -> f x = true).
Proof.
  intros Hmono fuel. induction fuel as [|fuel IH]; intros i j Hij Hfuel Hlo Hhi;
    cbn [search_loop].
  - assert (i = j) by lia. subst. repeat split; auto; lia.
  - destruct (Nat.ltb_spec i j) as [Hlt|Hge].
    + assert (Hh : (i <= (i + j) / 2 < j)%nat).
      { split; [apply Nat.div_le_lower_bound | apply Nat.Div0.div_lt_upper_bound]; lia. }
      generalize dependent ((i + j) / 2)%nat. intros m Hm.
      destruct (f m) eqn:Hf.
      * assert (Hhi' : forall x, (m <= x < n)%nat -> f x = true).
        { intros x Hx. apply (Hmono m x); [lia | done]. }
        destruct (IH i m ltac:(lia) ltac:(lia) Hlo Hhi') as (H1 & H2 & H3).
        split; [lia|]. split; assumption.
      * assert (Hlo' : forall x, (x < m + 1)%nat -> f x = false).
        { intros x Hx. destruct (f x) eqn:Hfx; [|done].
          rewrite (Hmono x m) in Hf; [done | lia | done]. }
        destruct (IH (m + 1)%nat j ltac:(lia) ltac:(lia) Hlo' Hhi) as (H1 & H2 & H3).
        split; [lia|]. split; assumption.
    + assert (i = j) by lia. subst. repeat split; auto; lia.
Qed.

Lemma keyGe_mono (h : Hashring) (k : Hashkey) :
  ring_ok h ->
  forall x y, (x <= y < length h)%nat -> keyGe h k x = true -> keyGe h k y = true.
Proof.
  intros Hs x y Hxy. unfold keyGe.
  destruct (h !! x) as [a|] eqn:Ha; [|done].
  destruct (lookup_lt_is_Some_2 h y) as [b Hb]; [lia|]. rewrite Hb.
  intros Hk. apply Z.leb_le in Hk. apply Z.leb_le.
  destruct (decide (x = y)) as [->|Hne]; [congruence|].
  pose proof (ring_ok_lookup_lt h x y a b Hs Ha Hb). lia.
Qed.

(** On a sorted ring [sort.Search] returns the first index whose hashkey is
    [>= k], or the length if there is none. *)
Lemma sort_Search_keyGe (h : Hashring) (k : Hashkey) :
  ring_ok h ->
  let r := sort_Search (length h) (keyGe h k) in
  (r <= length h)%nat /\
  (forall x a, (x < r)%nat -> h !! x = Some a -> hashkey a < k) /\
  (forall x a, (r <= x)%nat -> h !! x = Some a -> k <= hashkey a).
Proof.
  intros Hs r.
  destruct (search_loop_spec (length h) (keyGe h k) (keyGe_mono h k Hs)
              (length h) 0%nat (length h)) as (H1 & H2 & H3); try lia.
  fold (sort_Search (length h) (keyGe h k)) in H1, H2, H3. fold r in H1, H2, H3.
  split; [lia|]. split.
  - intros x a Hx Ha. specialize (H2 x Hx). unfold keyGe in H2. rewrite Ha in H2.
    apply Z.leb_gt in H2. lia.
  - intros x a Hx Ha. pose proof (lookup_lt_Some _ _ _ Ha) as Hlt.
    specialize (H3 x (conj Hx Hlt)). unfold keyGe in H3. rewrite Ha in H3.
    by apply Z.leb_le in H3.
Qed.

(** What [getIndex] returns, read off its definition. *)
Lemma getIndex_found_inv (h : Hashring) k i :
  getIndex h k = IndexFound i -> exists n, h !! i = Some n /\ hashkey n = k.
Proof.
  unfold getIndex. destruct (length h =? 0)%nat; [done|].
  destruct (h !! _) as [n|] eqn:Hn; [|done].
  destruct (Z.eqb_spec (hashkey n) k); [|done].
  intros [= <-]. eauto.
Qed.

Lemma getIndex_empty_inv (h : Hashring) k : getIndex h k = IndexEmpty -> h = [].
Proof.
  unfold getIndex. destruct h; [done|]. simpl.
  destruct (_ !! _) as [n|]; [destruct (hashkey n =? k)|]; done.
Qed.

(** On a sorted ring a key that is there is found, at its index. *)
Lemma getIndex_found (h : Hashring) k i n :
  ring_ok h -> h !! i = Some n -> hashkey n = k -> getIndex h k = IndexFound i.
Proof.
  intros Hs Hn Hk. unfold getIndex.
  pose proof (lookup_lt_Some _ _ _ Hn) as Hlen.
  destruct (Nat.eqb_spec (length h) 0); [lia|].
  destruct (sort_Search_keyGe h k Hs) as (H1 & H2 & H3).
  set (r := sort_Search (length h) (keyGe h k)) in *.
  assert (r = i) as ->.
  { destruct (Nat.lt_trichotomy r i) as [Hlt|[Heq|Hgt]]; [|done|].
    - destruct (lookup_lt_is_Some_2 h r) as [a Ha]; [lia|].
      pose proof (H3 r a (Nat.le_refl _) Ha).
      pose proof (ring_ok_lookup_lt h r i a n Hs Ha Hn Hlt). lia.
    - pose proof (H2 i n Hgt Hn). lia. }
  destruct (Nat.leb_spec (length h) i); [lia|].
  rewrite Hn. destruct (Z.eqb_spec (hashkey n) k); [done|lia].
Qed.

Lemma getIndex_not_found (h : Hashring) k :
  ~ has_key h k -> forall i, getIndex h k <> IndexFound i.
Proof.
  intros Hno i Hf. apply getIndex_found_inv in Hf as (n & Hn & Hk).
  apply Hno. unfold has_key. rewrite list_elem_of_fmap. exists n. split; [done|].
  eapply list_elem_of_lookup_2; eauto.
Qed.

(** The index [getIndex] hands to [Get] and [GetMany]: the first hashkey
    [>= k], and index 0 when every hashkey is smaller. *)
Definition start_index (h : Hashring) (k : Hashkey) (i : nat) : Prop :=
  (exists a, h !! i = Some a /\ k <= hashkey a /\
             forall x b, (x < i)%nat -> h !! x = Some b -> hashkey b < k)
  \/ (i = 0%nat /\ forall b, b ∈ h -> hashkey b < k).

Lemma getIndex_start (h : Hashring) k :
  ring_ok h -> h <> [] ->
  exists i, (getIndex h k = IndexFound i \/ getIndex h k = IndexNext i) /\
            (i < length h)%nat /\ start_index h k i.
Proof.
  intros Hs Hne. unfold getIndex.
  assert (0 < length h)%nat as Hlen by (destruct h; [done | simpl; lia]).
  destruct (Nat.eqb_spec (length h) 0); [lia|].
  destruct (sort_Search_keyGe h k Hs) as (H1 & H2 & H3).
  set (r := sort_Search (length h) (keyGe h k)) in *.
  destruct (Nat.leb_spec (length h) r) as [Hge|Hlt].
  - exists 0%nat. destruct (lookup_lt_is_Some_2 h 0%nat Hlen) as [a Ha]. rewrite Ha.
    split; [destruct (hashkey a =? k); auto|]. split; [done|]. right. split; [done|].
    intros b Hb. apply list_elem_of_lookup_1 in Hb as [x Hx].
    apply (H2 x b); [|done]. apply lookup_lt_Some in Hx. lia.
  - exists r. destruct (lookup_lt_is_Some_2 h r Hlt) as [a Ha]. rewrite Ha.
    split; [destruct (hashkey a =? k); auto|]. split; [done|]. left. exists a.
    split; [done|]. split; [by apply (H3 r a)|]. intros x b Hx Hb. by apply (H2 x b).
Qed.

(** ** [sort.Sort] after [append] *)

Global Instance node_le_trans : Transitive node_le.
Proof. intros a b c. unfold node_le. lia. Qed.

Global Instance node_le_total : Total node_le.
Proof. intros a b. unfold node_le. lia. Qed.

Lemma le_NoDup_ring_ok (l : Hashring) :
  StronglySorted node_le l -> NoDup (hashkey <$> l) -> ring_ok l.
Proof.
  induction 1 as [|x l Hs IH Hx]; intros Hnd; [constructor|].
  simpl in Hnd. apply NoDup_cons in Hnd as [Hnotin Hnd].
  constructor; [by apply IH|].
  rewrite Forall_forall in Hx |- *. intros y Hy.
  specialize (Hx y Hy). unfold node_le in Hx. unfold node_lt.
  assert (hashkey x <> hashkey y); [|lia].
  intros Heq. apply Hnotin. rewrite Heq. by apply list_elem_of_fmap_2.
Qed.

Lemma sort_Sort_ring_ok (l : Hashring) : NoDup (hashkey <$> l) -> ring_ok (sort_Sort l).
Proof.
  intros Hnd. apply le_NoDup_ring_ok.
  - apply StronglySorted_merge_sort; apply _.
  - unfold sort_Sort. by rewrite merge_sort_Permutation.
Qed.

Lemma ring_ok_unique (l1 l2 : Hashring) : ring_ok l1 -> ring_ok l2 -> l1 ≡ₚ l2 -> l1 = l2.
Proof.
  apply StronglySorted_unique_strong. intros x1 x2 _ _. unfold node_lt. lia.
Qed.

(** Appending a node with a fresh hashkey and sorting puts that node at its
    place and moves nothing else. *)
Lemma sort_Sort_insert (h : Hashring) (n : hashnode) :
  ring_ok h -> ~ has_key h (hashkey n) ->
  exists l1 l2, h = l1 ++ l2 /\ sort_Sort (h ++ [n]) = l1 ++ n :: l2 /\
                ring_ok (l1 ++ n :: l2).
Proof.
  intros Hs Hno.
  assert (Hnd : NoDup (hashkey <$> (h ++ [n]))).
  { rewrite fmap_app. apply NoDup_app. split; [by apply ring_ok_NoDup|].
    split; [|simpl; apply NoDup_singleton].
    intros k Hk. simpl. rewrite list_elem_of_singleton. intros ->. by apply Hno. }
  pose proof (sort_Sort_ring_ok _ Hnd) as Hs'.
  assert (Hp : sort_Sort (h ++ [n]) ≡ₚ h ++ [n]) by apply merge_sort_Permutation.
  assert (Hin : n ∈ sort_Sort (h ++ [n])).
  { rewrite Hp. apply elem_of_app. right. by apply list_elem_of_singleton. }
  apply list_elem_of_split in Hin as (l1 & l2 & Heq).
  exists l1, l2. rewrite Heq in Hs', Hp |- *. split; [|done].
  symmetry. apply ring_ok_unique; [|done|].
  - unfold ring_ok in *. apply StronglySorted_app in Hs' as (H12 & H1 & H2).
    apply StronglySorted_cons in H2 as [_ H2].
    apply StronglySorted_app_2; [|done..].
    intros x1 x2 Hx1 Hx2. apply H12; [done|]. by right.
  - rewrite <- Permutation_middle, <- Permutation_cons_append in Hp.
    by apply Permutation_cons_inv in Hp.
Qed.

(** ** The operations keep the ring invariant *)

Lemma alter_touch_keys now i (h : Hashring) :
  hashkey <$> alter (touch now) i h = hashkey <$> h.
Proof.
  rewrite (list_fmap_alter hashkey (touch now) id); [by apply list_alter_id|].
  by apply Forall_forall.
Qed.

Lemma ring_ok_of_keys (h h' : Hashring) :
  hashkey <$> h' = hashkey <$> h -> ring_ok h -> ring_ok h'.
Proof.
  revert h'. induction h as [|a h IH]; intros [|a' h'] Heq Hs; try done.
  rewrite !fmap_cons in Heq. injection Heq as Ha Heq.
  unfold ring_ok in *. apply StronglySorted_cons in Hs as [Hx Hs].
  constructor; [by apply IH|].
  rewrite Forall_forall in Hx |- *. intros y Hy.
  apply list_elem_of_lookup_1 in Hy as [j Hj].
  assert (exists b, h !! j = Some b /\ hashkey b = hashkey y) as (b & Hb & Hkb).
  { assert ((hashkey <$> h') !! j = Some (hashkey y)) as Hl by (by rewrite list_lookup_fmap, Hj).
    rewrite Heq, list_lookup_fmap in Hl. destruct (h !! j) as [b|]; [|done].
    injection Hl as Hl. eauto. }
  specialize (Hx b (list_elem_of_lookup_2 _ _ _ Hb)). unfold node_lt in *. lia.
Qed.

Lemma insert_same_key_keys (h : Hashring) i n n' :
  h !! i = Some n -> hashkey n' = hashkey n -> hashkey <$> <[i := n']> h = hashkey <$> h.
Proof.
  intros Hn Hk. rewrite list_fmap_insert, Hk. apply list_insert_id.
  by rewrite list_lookup_fmap, Hn.
Qed.

Lemma ring_ok_delete (h : Hashring) i : ring_ok h -> ring_ok (take i h ++ drop (S i) h).
Proof.
  intros Hs. unfold ring_ok in *.
  rewrite <- (take_drop i h) in Hs. apply StronglySorted_app in Hs as (H12 & H1 & H2).
  apply StronglySorted_app_2; [| done |].
  - intros x1 x2 Hx1 Hx2. apply H12; [done|].
    rewrite <- (take_drop 1 (drop i h)), drop_drop. apply elem_of_app. right.
    by replace (i + 1)%nat with (S i) by lia.
  - rewrite <- (take_drop 1 (drop i h)), drop_drop in H2.
    apply StronglySorted_app_1_r in H2. by replace (i + 1)%nat with (S i) in H2 by lia.
Qed.

Lemma Add_ring_ok st now r (h : Hashring) : ring_ok h -> ring_ok (Add st now r h).1.1.
Proof.
  intros Hs. unfold Add. destruct (getIndex h (Uid r)) as [i|i|] eqn:Hg; simpl.
  - eapply ring_ok_of_keys; [apply alter_touch_keys | done].
  - destruct (sort_Sort_insert h (NewHashnode now (Uid r) r) Hs) as (l1 & l2 & _ & -> & Hok);
      [|done].
    intros Hk. unfold has_key in Hk. apply list_elem_of_fmap in Hk as (n & Hn & Hin).
    apply list_elem_of_lookup_1 in Hin as [j Hj].
    rewrite (getIndex_found h (Uid r) j n Hs Hj) in Hg; done.
  - apply getIndex_empty_inv in Hg as ->. cbv. repeat constructor.
Qed.

Lemma AddOrUpdate_ring_ok st now r (h : Hashring) :
  ring_ok h -> ring_ok (AddOrUpdate st now r h).1.1.1.
Proof.
  intros Hs. unfold AddOrUpdate. destruct (getIndex h (Uid r)) as [i|i|] eqn:Hg.
  - destruct (getIndex_found_inv _ _ _ Hg) as (n & Hn & Hk). rewrite Hn.
    assert (forall e, ring_ok (<[i := {| hashkey := hashkey n; elem := e; lastUpdate := now |}]> h)).
    { intros e. eapply ring_ok_of_keys; [|done]. by eapply insert_same_key_keys. }
    repeat (match goal with |- context [if ?b then _ else _] => destruct b end); simpl; auto.
  - simpl.
    destruct (sort_Sort_insert h (NewHashnode now (Uid r) r) Hs) as (l1 & l2 & _ & -> & Hok);
      [|done].
    intros Hk. unfold has_key in Hk. apply list_elem_of_fmap in Hk as (n & Hn & Hin).
    apply list_elem_of_lookup_1 in Hin as [j Hj].
    rewrite (getIndex_found h (Uid r) j n Hs Hj) in Hg; done.
  - apply getIndex_empty_inv in Hg as ->. cbv. repeat constructor.
Qed.

Lemma remove_ring_ok r (h : Hashring) : ring_ok h -> ring_ok (remove r h).1.
Proof.
  intros Hs. unfold remove. destruct (getIndex h (Uid r)); simpl; [|done..].
  by apply ring_ok_delete.
Qed.

Lemma Add_keys_ok st now r (h : Hashring) : keys_ok h -> keys_ok (Add st now r h).1.1.
Proof.
  intros Hk. unfold Add, keys_ok in *. destruct (getIndex h (Uid r)); simpl.
  - apply Forall_alter; [done|]. intros x _ Hx. done.
  - unfold sort_Sort. rewrite merge_sort_Permutation. apply Forall_app. split; [done|].
    by repeat constructor.
  - unfold sort_Sort. rewrite merge_sort_Permutation. apply Forall_app. split; [done|].
    by repeat constructor.
Qed.

Lemma AddOrUpdate_keys_ok st now r (h : Hashring) :
  keys_ok h -> keys_ok (AddOrUpdate st now r h).1.1.1.
Proof.
  intros Hk. unfold AddOrUpdate, keys_ok in *.
  destruct (getIndex h (Uid r)) as [i|i|] eqn:Hg.
  - destruct (getIndex_found_inv _ _ _ Hg) as (n & Hn & Hkn). rewrite Hn.
    assert (forall e, Uid e = hashkey n ->
      Forall (fun n => hashkey n = Uid (elem n))
             (<[i := {| hashkey := hashkey n; elem := e; lastUpdate := now |}]> h)).
    { intros e He. apply Forall_insert; [done|]. simpl. done. }
    assert (Uid (elem n) = hashkey n).
    { rewrite Forall_forall in Hk. symmetry. apply Hk.
      eapply list_elem_of_lookup_2; eauto. }
    assert (Uid (if negb (Oid (elem n) =? Oid r) then r else elem n) = hashkey n)
      by (destruct (negb _); congruence).
    repeat (match goal with |- context [if ?b then (_, _, _, _) else _] => destruct b end);
      simpl; auto.
  - simpl. unfold sort_Sort. rewrite merge_sort_Permutation. apply Forall_app.
    split; [done|]. by repeat constructor.
  - simpl. unfold sort_Sort. rewrite merge_sort_Permutation. apply Forall_app.
    split; [done|]. by repeat constructor.
Qed.

Lemma remove_keys_ok r (h : Hashring) : keys_ok h -> keys_ok (remove r h).1.
Proof.
  intros Hk. unfold remove, keys_ok in *. destruct (getIndex h (Uid r)); simpl; [|done..].
  apply Forall_app. split; [by apply Forall_take | by apply Forall_drop].
Qed.

(** ** Test resources (src/pkg/core/dummy.go) *)

Definition hour : time_Duration := 3600 * 1000000000.

(** [NewDummy(oid, uid)], allocated at address [p]. *)
Definition NewDummy (p : nat) (oid uid : Hashkey) : Resource :=
  {| Ptr := p; Impl := ImplDummy; RType := "dummy";
     String_ := "dummy-" +:+ pretty uid +:+ "-" +:+ pretty oid;
     Uid := uid; Oid := oid; RelationIdentifiers := []; Expiry := hour;
     Distributor := "" |}.

(** The test result [NewDummy] attaches: [Functional], [Accepted]. *)
Definition passingTest : ResourceTest :=
  {| State := StateFunctional; Speed := SpeedAccepted; Ratio := None;
     LastTested := 0; LastPassed := 0; Error := "" |}.

Definition dysfunctionalTest : ResourceTest :=
  {| State := StateDysfunctional; Speed := SpeedUntested; Ratio := None;
     LastTested := 0; LastPassed := 0; Error := "Bridge address is not valid" |}.

(** ** Sequences of ring operations *)

Inductive ring_op :=
| OpAdd (st : Store) (now : time_Time) (r : Resource)
| OpAddOrUpdate (st : Store) (now : time_Time) (r : Resource)
| OpRemove (r : Resource).

(** One call on the ring.  The store and the clock a call sees are whatever
    they are at that moment (the test pool writes test results between
    calls), so every operation carries its own. *)
Definition run_op (h : Hashring) (o : ring_op) : Hashring :=
  match o with
  | OpAdd st now r => (Add st now r h).1.1
  | OpAddOrUpdate st now r => (AddOrUpdate st now r h).1.1.1
  | OpRemove r => (Remove r h).1
  end.

Definition run_ops (ops : list ring_op) : Hashring := foldl run_op NewHashring ops.

Lemma run_op_ring_ok h o : ring_ok h -> ring_ok (run_op h o).
Proof.
  destruct o; simpl; auto using Add_ring_ok, AddOrUpdate_ring_ok, remove_ring_ok.
Qed.

Lemma run_op_keys_ok h o : keys_ok h -> keys_ok (run_op h o).
Proof.
  destruct o; simpl; auto using Add_keys_ok, AddOrUpdate_keys_ok, remove_keys_ok.
Qed.

Lemma foldl_run_op_inv (P : Hashring -> Prop) :
  (forall h o, P h -> P (run_op h o)) ->
  forall ops h, P h -> P (foldl run_op h ops).
Proof.
  intros Hstep ops. induction ops as [|o ops IH]; intros h Hh; simpl; auto.
Qed.

(** C7: after any sequence of Add, AddOrUpdate and Remove calls on an empty
    hashring the nodes are in strictly ascending hashkey order (sorted, no
    hashkey twice), every node is filed under the UID of its resource, and so
    no UID occurs twice. *)
Theorem C7_ring_order (ops : list ring_op) :
  (forall i j a b, run_ops ops !! i = Some a -> run_ops ops !! j = Some b ->
                   (i < j)%nat -> hashkey a < hashkey b) /\
  Sorted Z.le (hashkey <$> run_ops ops) /\
  NoDup (hashkey <$> run_ops ops) /\
  NoDup ((fun n => Uid (elem n)) <$> run_ops ops).
Proof.
  assert (Hs : ring_ok (run_ops ops)).
  { unfold run_ops. apply (foldl_run_op_inv ring_ok); [apply run_op_ring_ok | constructor]. }
  assert (Hk : keys_ok (run_ops ops)).
  { unfold run_ops. apply (foldl_run_op_inv keys_ok); [apply run_op_keys_ok | constructor]. }
  split; [intros i j a b; by apply ring_ok_lookup_lt|].
  split; [by apply ring_ok_Sorted_le|].
  split; [by apply ring_ok_NoDup|].
  replace ((fun n => Uid (elem n)) <$> run_ops ops) with (hashkey <$> run_ops ops);
    [by apply ring_ok_NoDup|].
  apply Forall_fmap_ext_1. exact Hk.
Qed.

(** ** Add *)

Lemma Add_present st now r (h : Hashring) i n :
  ring_ok h -> h !! i = Some n -> hashkey n = Uid r ->
  Add st now r h = (<[i := touch now n]> h, Some ErrAlreadyPresent, []).
Proof.
  intros Hs Hn Hk. unfold Add. rewrite (getIndex_found h (Uid r) i n Hs Hn Hk).
  do 2 f_equal. apply list_eq. intros j.
  destruct (decide (i = j)) as [<-|Hne].
  - rewrite list_lookup_alter_eq, Hn, list_lookup_insert_eq; [done|].
    by eapply lookup_lt_Some.
  - by rewrite list_lookup_alter_ne, list_lookup_insert_ne.
Qed.

Lemma Add_has_key st now r (h : Hashring) : has_key (Add st now r h).1.1 (Uid r).
Proof.
  unfold Add, has_key. destruct (getIndex h (Uid r)) as [i|i|] eqn:Hg; simpl.
  - rewrite alter_touch_keys. apply getIndex_found_inv in Hg as (n & Hn & <-).
    apply list_elem_of_fmap_2. eapply list_elem_of_lookup_2; eauto.
  - unfold sort_Sort. rewrite merge_sort_Permutation, fmap_app. apply elem_of_app.
    right. simpl. by apply list_elem_of_singleton.
  - unfold sort_Sort. rewrite merge_sort_Permutation, fmap_app. apply elem_of_app.
    right. simpl. by apply list_elem_of_singleton.
Qed.

Definition count_key (k : Hashkey) (h : Hashring) : nat :=
  length (filter (fun n => hashkey n = k) h).

Lemma count_key_absent k (h : Hashring) : ~ has_key h k -> count_key k h = 0%nat.
Proof.
  unfold has_key, count_key. induction h as [|a h IH]; intros Hno; [done|].
  rewrite fmap_cons, not_elem_of_cons in Hno. destruct Hno as [Hne Hno].
  rewrite filter_cons_False by congruence. by apply IH.
Qed.

Lemma count_key_once k (h : Hashring) :
  NoDup (hashkey <$> h) -> has_key h k -> count_key k h = 1%nat.
Proof.
  unfold has_key. induction h as [|a h IH]; intros Hnd Hin.
  - by apply elem_of_nil in Hin.
  - rewrite fmap_cons in Hnd, Hin. apply NoDup_cons in Hnd as [Hnotin Hnd].
    unfold count_key in *. destruct (decide (hashkey a = k)) as [Heq|Hne].
    + rewrite filter_cons_True by done. simpl. f_equal.
      apply (count_key_absent k h). unfold has_key. by rewrite <- Heq.
    + rewrite filter_cons_False by done. apply IH; [done|].
      apply elem_of_cons in Hin as [Hin|Hin]; [congruence | done].
Qed.

(** C9: Add of a resource whose UID is already in the ring stamps that node
    with the current time, leaves its resource and every other node as they
    were, starts no test and returns the "already present" error; after two
    Adds of [r] exactly one node carries [r]'s UID. *)
Theorem C9_Add_idempotent st now st' now' (r : Resource) (h : Hashring) :
  ring_ok h ->
  (forall i n, h !! i = Some n -> hashkey n = Uid r ->
     Add st now r h = (<[i := touch now n]> h, Some ErrAlreadyPresent, []) /\
     elem (touch now n) = elem n /\ lastUpdate (touch now n) = now) /\
  (Add st' now' r (Add st now r h).1.1).1.2 = Some ErrAlreadyPresent /\
  count_key (Uid r) (Add st' now' r (Add st now r h).1.1).1.1 = 1%nat.
Proof.
  intros Hs. split; [|split].
  - intros i n Hn Hk. split; [by apply Add_present | done].
  - pose proof (Add_has_key st now r h) as Hin. unfold has_key in Hin.
    apply list_elem_of_fmap in Hin as (n & Hk & Hin).
    apply list_elem_of_lookup_1 in Hin as [i Hi].
    rewrite (Add_present st' now' r _ i n); [done | by apply Add_ring_ok | done | done].
  - apply count_key_once; [|apply Add_has_key].
    apply ring_ok_NoDup, Add_ring_ok, Add_ring_ok, Hs.
Qed.

Lemma C9_Add_idempotent_witness :
  let d := NewDummy 1 1 1 in
  let h := [mkHashnode 1 d 0; mkHashnode 5 (NewDummy 2 5 5) 0] in
  count_key 1 (Add (fun _ => passingTest) 8 d (Add (fun _ => passingTest) 7 d h).1.1).1.1
  = 1%nat.
Proof.
  intros d h.
  refine (proj2 (proj2 (C9_Add_idempotent (fun _ => passingTest) 7 (fun _ => passingTest) 8 d h _))).
  unfold h, ring_ok, node_lt. repeat constructor; simpl; lia.
Defined.

(** ** GetMany *)

Lemma GetMany_walk (h : Hashring) (c i : nat) :
  h <> [] ->
  let l := omap (fun j => elem <$> h !! (j mod length h)%nat) (seq i c) in
  length l = c /\
  forall j, (j < c)%nat -> l !! j = elem <$> h !! ((i + j) mod length h)%nat.
Proof.
  intros Hne. assert (0 < length h)%nat as Hlen by (destruct h; [done | simpl; lia]).
  revert i. induction c as [|c IH]; intros i; cbn zeta.
  - split; [done | lia].
  - cbn [seq omap list_omap].
    destruct (lookup_lt_is_Some_2 h (i mod length h)%nat) as [a Ha].
    { apply Nat.mod_upper_bound. lia. }
    change (list_omap ?f ?l) with (omap f l).
    rewrite Ha. cbn [fmap option_fmap option_map].
    destruct (IH (S i)) as [IH1 IH2]. split; [simpl; by rewrite IH1|].
    intros [|j] Hj.
    + by rewrite Nat.add_0_r, Ha.
    + cbn [lookup list_lookup]. change (list_lookup j ?l) with (l !! j).
      rewrite IH2 by lia. by replace (S i + j)%nat with (i + S j)%nat by lia.
Qed.

(** C8: on a non-empty ring GetMany(k, n) returns min(n, len) resources (none
    for a negative n), the first one at the index of the smallest hashkey
    [>= k] (index 0 when there is none), the following ones in ring order with
    wrap-around; on the ring [2,5,9], GetMany(6, 2) is [9, 2] and
    GetMany(10, 5) is [2, 5, 9]. *)
Theorem C8_GetMany_wrap (h : Hashring) (k : Hashkey) (num : Z) :
  ring_ok h -> h <> [] ->
  (exists i l, start_index h k i /\ (i < length h)%nat /\
     GetMany h k num = Ok l /\
     length l = Z.to_nat (Z.min num (Z.of_nat (length h))) /\
     forall j, (j < length l)%nat -> l !! j = elem <$> h !! ((i + j) mod length h)%nat) /\
  (forall a b c ta tb tc,
     GetMany [mkHashnode 2 a ta; mkHashnode 5 b tb; mkHashnode 9 c tc] 6 2 = Ok [c; a] /\
     GetMany [mkHashnode 2 a ta; mkHashnode 5 b tb; mkHashnode 9 c tc] 10 5 = Ok [a; b; c]).
Proof.
  intros Hs Hne. split; [|intros; split; reflexivity].
  destruct (getIndex_start h k Hs Hne) as (i & Hg & Hi & Hstart).
  set (n := if Z.of_nat (length h) <=? num then Z.of_nat (length h) else num).
  destruct (GetMany_walk h (Z.to_nat n) i Hne) as [Hlen Hnth].
  exists i, (omap (fun j => elem <$> h !! (j mod length h)%nat) (seq i (Z.to_nat n))).
  split; [done|]. split; [done|]. split; [|split].
  - unfold GetMany. destruct (Nat.eqb_spec (length h) 0) as [He|_].
    { destruct h; [done | simpl in He; lia]. }
    fold n. by destruct Hg as [-> | ->].
  - rewrite Hlen. unfold n. destruct (Z.leb_spec (Z.of_nat (length h)) num); f_equal; lia.
  - intros j Hj. apply Hnth. by rewrite Hlen in Hj.
Qed.

Lemma C8_GetMany_wrap_witness :
  let h := [mkHashnode 2 (NewDummy 1 2 2) 0; mkHashnode 5 (NewDummy 2 5 5) 0;
            mkHashnode 9 (NewDummy 3 9 9) 0] in
  exists i l, start_index h 6 i /\ (i < length h)%nat /\
     GetMany h 6 2 = Ok l /\
     length l = Z.to_nat (Z.min 2 (Z.of_nat (length h))) /\
     forall j, (j < length l)%nat -> l !! j = elem <$> h !! ((i + j) mod length h)%nat.
Proof.
  intros h. refine (proj1 (C8_GetMany_wrap h 6 2 _ _)).
  - unfold h, ring_ok, node_lt. repeat constructor; simpl; lia.
  - discriminate.
Defined.

(** ** AddOrUpdate *)

Lemma maybeTestResource_absent st now r (h : Hashring) :
  ~ has_key h (Uid r) -> maybeTestResource st now h r = [r].
Proof.
  intros Hno. unfold maybeTestResource.
  destruct (getIndex h (Uid r)) as [i|i|] eqn:Hg; [|done..].
  by apply getIndex_not_found in Hg.
Qed.

(** The event AddOrUpdate reports for a node that was there, given the
    resource [e] the node ends up with. *)
Definition present_event (st : Store) (same_oid : bool) (e : Resource) : event :=
  if isDysfunctional (State (TestResult st e)) || isRejected (Speed (TestResult st e))
  then ResourceIsGone
  else if same_oid then ResourceUnchanged else ResourceChanged.

Definition passing (st : Store) (e : Resource) : bool :=
  negb (isDysfunctional (State (TestResult st e)) || isRejected (Speed (TestResult st e)))
  && (isFunctional (State (TestResult st e)) && isAccepted (Speed (TestResult st e))).

(** C2 (as the code has it): AddOrUpdate inserts an absent resource at its
    sorted place and returns ResourceIsNew, whatever its test result; for a
    UID that is present it stamps the node, keeps the stored resource when the
    OID is the same (ResourceUnchanged) and replaces it by [r] when the OID
    differs (ResourceChanged); in these two cases the event becomes
    ResourceIsGone when the resource the node now holds is Dysfunctional or
    Rejected.  No test result is written unless that resource is Functional
    and Accepted; when the OID differs and [r], which the node then holds,
    is Functional and Accepted, its last-passed time is set to [now]. *)
Theorem C2_AddOrUpdate_events st now (r : Resource) (h : Hashring) :
  ring_ok h ->
  (~ has_key h (Uid r) ->
     exists l1 l2, h = l1 ++ l2 /\ ring_ok (l1 ++ NewHashnode now (Uid r) r :: l2) /\
       AddOrUpdate st now r h =
         (l1 ++ NewHashnode now (Uid r) r :: l2, st, ResourceIsNew, [r])) /\
  (forall i n, h !! i = Some n -> hashkey n = Uid r ->
     let same := Oid (elem n) =? Oid r in
     let e := if same then elem n else r in
     (AddOrUpdate st now r h).1.1.1 =
       <[i := {| hashkey := hashkey n; elem := e; lastUpdate := now |}]> h /\
     (AddOrUpdate st now r h).1.2 = present_event st same e /\
     (AddOrUpdate st now r h).2 = maybeTestResource st now h r /\
     (passing st e = false -> (AddOrUpdate st now r h).1.1.2 = st) /\
     (same = false -> passing st r = true -> Impl r = ImplResourceBase ->
      LastPassed (TestResult (AddOrUpdate st now r h).1.1.2 r) = now)).
Proof.
  intros Hs. split.
  - intros Hno.
    destruct (sort_Sort_insert h (NewHashnode now (Uid r) r) Hs Hno) as (l1 & l2 & H1 & H2 & H3).
    exists l1, l2. split; [done|]. split; [done|].
    unfold AddOrUpdate. rewrite maybeTestResource_absent by done.
    destruct (getIndex h (Uid r)) as [i|i|] eqn:Hg.
    + by apply getIndex_not_found in Hg.
    + by rewrite H2.
    + by rewrite H2.
  - intros i n Hn Hk same e.
    assert (Heq : AddOrUpdate st now r h =
       (<[i := {| hashkey := hashkey n; elem := e; lastUpdate := now |}]> h,
        (if passing st e then SetLastPassed r now st else st),
        present_event st same e,
        maybeTestResource st now h r)).
    { unfold AddOrUpdate. rewrite (getIndex_found h (Uid r) i n Hs Hn Hk), Hn.
      unfold passing, present_event, e, same.
      destruct (Oid (elem n) =? Oid r); cbn [negb];
        destruct (isDysfunctional _ || isRejected _); cbn [negb andb];
        try reflexivity;
        destruct (isFunctional _ && isAccepted _); reflexivity. }
    rewrite Heq. cbn [fst snd]. split; [done|]. split; [done|]. split; [done|]. split.
    + by intros ->.
    + intros Hsame Hp Hi. unfold e. rewrite Hsame, Hp.
      unfold SetLastPassed, TestResult. rewrite Hi. cbv iota.
      by rewrite fn_lookup_insert.
Qed.

Lemma C2_AddOrUpdate_events_witness :
  let d := NewDummy 1 1 1 in
  let d' := NewDummy 3 2 1 in
  let h := [mkHashnode 1 d 0; mkHashnode 5 (NewDummy 2 5 5) 0] in
  (AddOrUpdate (fun _ => passingTest) 7 d' h).1.1.1 =
    [mkHashnode 1 d' 7; mkHashnode 5 (NewDummy 2 5 5) 0] /\
  (AddOrUpdate (fun _ => passingTest) 7 d' h).1.2 = ResourceChanged.
Proof.
  intros d d' h.
  assert (Hs : ring_ok h) by (unfold h, ring_ok, node_lt; repeat constructor; simpl; lia).
  pose proof (proj2 (C2_AddOrUpdate_events (fun _ => passingTest) 7 d' h Hs)
                0%nat (mkHashnode 1 d 0) eq_refl eq_refl) as (Hring & Hev & _).
  split; [exact Hring | exact Hev].
Defined.

(** C2 as the specification words it fails for a resource that is absent: a
    Dysfunctional resource added to an empty ring is reported ResourceIsNew,
    not ResourceIsGone. *)
Lemma C2_new_dysfunctional_is_new :
  let r := NewDummy 1 1 1 in
  let st : Store := fun _ => dysfunctionalTest in
  State (TestResult (AddOrUpdate st 7 r NewHashring).1.1.2 r) = StateDysfunctional /\
  (AddOrUpdate st 7 r NewHashring).1.2 = ResourceIsNew /\
  (AddOrUpdate st 7 r NewHashring).1.2 <> ResourceIsGone.
Proof. cbv zeta. split; [reflexivity|]. split; [reflexivity | discriminate]. Qed.

(** ** Prune *)

(** What [remove] leaves in the slice, seen in the backing array. *)
Lemma remove_in_place_slice (arr : list hashnode) (n i : nat) :
  (i < n <= length arr)%nat ->
  take (n - 1) (remove_in_place arr n i) = take i (take n arr) ++ drop (S i) (take n arr).
Proof.
  intros Hin. unfold remove_in_place.
  rewrite take_take, Nat.min_l by lia. rewrite skipn_firstn_comm.
  replace (n - S i)%nat with (n - 1 - i)%nat by lia.
  rewrite app_assoc, take_app_length'; [done|].
  rewrite length_app, !length_take, length_drop. lia.
Qed.

(** C3 on three expired nodes: after the node with key 1 is removed the range
    loop reads slot 1, which by then holds the node with key 3; the node with
    key 2 is never looked at and stays in the ring, although it is expired,
    and the node with key 3 is read again from the stale last slot and
    returned twice. *)
Theorem C3_Prune_skips_next_node :
  let a := NewDummy 1 1 1 in
  let b := NewDummy 2 2 2 in
  let c := NewDummy 3 3 3 in
  let h := [mkHashnode 1 a 0; mkHashnode 2 b 0; mkHashnode 3 c 0] in
  let now := 2 * hour in
  ring_ok h /\
  Forall (fun n => expired now n = true) h /\
  Prune now h = ([mkHashnode 2 b 0], [a; c; c]).
Proof.
  cbv zeta. split; [|split].
  - unfold ring_ok, node_lt. repeat constructor; simpl; lia.
  - repeat constructor.
  - vm_compute. reflexivity.
Qed.

(** ** Stencil (package core, the second part of
       src/pkg/presentation/distributors/telegram/telegram.go) *)

Record interval := mkInterval {
  Begin : Z;
  End_ : Z;
  Name : string
}.

(** [s.intervals]. *)
Abbreviation stencil := (list interval).

(** Go's generator [math/rand] is not part of the repository.  [rngIntn x n]
    stands for the value of [rand.Intn(n)] right after the generator was
    seeded with the 31-bit state [x]; the 607-word table behind it is left
    abstract.  [rngSeed] is the reduction [rngSource.Seed] applies to its
    64-bit argument before anything else: the remainder modulo [2^31 - 1],
    made non-negative, with 0 replaced by 89482311. *)
Class MathRand := { rngIntn : Z -> Z -> Z }.

Definition int32max : Z := 2 ^ 31 - 1.

Definition rngSeed (seed : Z) : Z :=
  let s := Z.rem seed int32max in
  let s := if s <? 0 then s + int32max else s in
  if s =? 0 then 89482311 else s.

(** [rand.Seed(seed); rand.Intn(n)] for [n > 0]. *)
Definition rand_Intn `{MathRand} (seed n : Z) : Z := rngIntn (rngSeed seed) n.

(** The documented contract of [Intn]: a value in [[0, n)]. *)
Definition Intn_in_range `{MathRand} : Prop :=
  forall x n, 0 < n -> 0 <= rngIntn x n < n.

Definition Contains (i : interval) (n : Z) : bool := (Begin i <=? n) && (n <=? End_ i).

Definition FindByValue (s : stencil) (n : Z) : option interval :=
  snd <$> list_find (fun i => Contains i n = true) s.

Definition AddInterval (i : interval) (s : stencil) : stencil := s ++ [i].

Definition GetUpperEnd (s : stencil) : option Z :=
  match s with
  | [] => None
  | _ => Some (foldl (fun max i => if max <? End_ i then End_ i else max) 0 s)
  end.

(** [sort.Strings]: ascending in Go's byte-wise string order. *)
Definition sort_Strings (keys : list string) : list string := merge_sort String.le keys.

(** The keys of a Go map, in the order some range loop yields them. *)
Definition map_keys {V} (m : gmap string V) : list string := (map_to_list m).*1.

(** The loop of [buildStencil]: the stencil so far and the running sum [i]. *)
Definition buildStencil_step (proportions : gmap string Z) (acc : stencil * Z) (k : string)
  : stencil * Z :=
  let w := default 0 (proportions !! k) in
  (AddInterval (mkInterval acc.2 (wrap64 (wrap64 (acc.2 + w) - 1)) k) acc.1,
   wrap64 (acc.2 + w)).

Definition buildStencil (proportions : gmap string Z) : stencil :=
  (foldl (buildStencil_step proportions) ([], 0) (sort_Strings (map_keys proportions))).1.

(** [stencil.GetPartitionName]; [None] is the panic of [rand.Intn] on a
    bound that is not positive. *)
Definition GetPartitionName `{MathRand} (s : stencil) (r : Resource) : option string :=
  match GetUpperEnd s with
  | None => Some ""
  | Some upperEnd =>
      let bound := wrap64 (upperEnd + 1) in
      if bound <=? 0 then None
      else
        match FindByValue s (rand_Intn (int64_of_uint64 (Uid r)) bound) with
        | Some i => Some (Name i)
        | None => Some ""
        end
  end.

(** ** Partitioned hashring (the second part of src/pkg/core/collection.go) *)

Record partitionedHashring := mkPartitioned {
  partitions : gmap string Hashring;
  relations : gmap string string;
  stencil_ : stencil
}.

Definition newPartitionedHashring (proportions : gmap string Z) : partitionedHashring :=
  {| partitions := (fun _ => NewHashring) <$> proportions;
     relations := ∅;
     stencil_ := buildStencil proportions |}.

Definition with_partition (name : string) (h : Hashring) (p : partitionedHashring)
  : partitionedHashring :=
  {| partitions := <[name := h]> (partitions p); relations := relations p;
     stencil_ := stencil_ p |}.

Module Partitioned.

Local Abbreviation ring_Add := Add.
Local Abbreviation ring_AddOrUpdate := AddOrUpdate.
Local Abbreviation ring_Remove := Remove.
Local Abbreviation ring_GetAll := GetAll.
Local Abbreviation ring_Filter := Filter.
Local Abbreviation ring_Prune := Prune.

(** The loop over the relation identifiers: the name of the last identifier
    that is recorded for an existing partition, [""] when there is none. *)
Definition relatedPartition (p : partitionedHashring) (identifiers : list string) : string :=
  foldl (fun partitionName id =>
           match relations p !! id with
           | Some name =>
               if decide (is_Some (partitions p !! name)) then name else partitionName
           | None => partitionName
           end) "" identifiers.

Definition getPartitionName `{MathRand} (p : partitionedHashring) (r : Resource)
  : option string :=
  let partitionName := relatedPartition p (RelationIdentifiers r) in
  if decide (partitionName = "") then GetPartitionName (stencil_ p) r
  else Some partitionName.

Definition addRelationIdentifiers (r : Resource) (partitionName : string)
  (p : partitionedHashring) : partitionedHashring :=
  {| partitions := partitions p;
     relations := foldl (fun rel id => <[id := partitionName]> rel) (relations p)
                        (RelationIdentifiers r);
     stencil_ := stencil_ p |}.

(** [p.partitions[name]] of a name that is not there is a nil [*Hashring],
    and the method called on it panics when it takes the lock. *)
Definition Add `{MathRand} (st : Store) (now : time_Time) (r : Resource)
  (p : partitionedHashring) : option (partitionedHashring * option error * list Resource) :=
  name ← getPartitionName p r;
  let p := addRelationIdentifiers r name p in
  hashring ← partitions p !! name;
  let '(h', err, tested) := ring_Add st now r hashring in
  Some (with_partition name h' p, err, tested).

Definition AddOrUpdate `{MathRand} (st : Store) (now : time_Time) (r : Resource)
  (p : partitionedHashring) : option (partitionedHashring * Store * event * list Resource) :=
  name ← getPartitionName p r;
  let p := addRelationIdentifiers r name p in
  hashring ← partitions p !! name;
  let '(h', st', ev, tested) := ring_AddOrUpdate st now r hashring in
  Some (with_partition name h' p, st', ev, tested).

Definition Remove `{MathRand} (r : Resource) (p : partitionedHashring)
  : option (partitionedHashring * option error) :=
  name ← getPartitionName p r;
  hashring ← partitions p !! name;
  let '(h', err) := ring_Remove r hashring in
  Some (with_partition name h' p, err).

Definition Filter (f : FilterFunc) (p : partitionedHashring) : list Resource :=
  concat ((fun kv => ring_Filter f kv.2) <$> map_to_list (partitions p)).

Definition GetAll (p : partitionedHashring) : list Resource :=
  concat ((fun kv => ring_GetAll kv.2) <$> map_to_list (partitions p)).

Definition Prune (now : time_Time) (p : partitionedHashring)
  : partitionedHashring * list Resource :=
  ({| partitions := (fun h => (ring_Prune now h).1) <$> partitions p;
      relations := relations p; stencil_ := stencil_ p |},
   concat ((fun kv => (ring_Prune now kv.2).2) <$> map_to_list (partitions p))).

Definition Len (p : partitionedHashring) : nat :=
  foldr (fun kv count => (count + length kv.2)%nat) 0%nat (map_to_list (partitions p)).

Definition Clear (p : partitionedHashring) : partitionedHashring :=
  {| partitions := (fun _ => NewHashring) <$> partitions p;
     relations := relations p; stencil_ := stencil_ p |}.

Definition getHashring (partitionName : string) (p : partitionedHashring) : option Hashring :=
  partitions p !! partitionName.

End Partitioned.

(** ** Partitioned hashring with distributors (the second part of
       src/pkg/core/domain.go) *)

Module WithDistributors.

Local Abbreviation ring_Add := Add.
Local Abbreviation ring_AddOrUpdate := AddOrUpdate.
Local Abbreviation ring_Remove := Remove.

(** [newPartitionedWithDistributors]: the reserved partition ["none"]. *)
Definition newPartitionedWithDistributors (p : partitionedHashring) : partitionedHashring :=
  with_partition "none" NewHashring p.

Definition getPartitionName `{MathRand} (p : partitionedHashring) (r : Resource)
  : option string :=
  let distName := Distributor r in
  if decide (distName = "") then Partitioned.getPartitionName p r
  else if decide (is_Some (partitions p !! distName)) then Some distName
       else Some "none".

Definition addRelationIdentifiers (r : Resource) (partitionName : string)
  (p : partitionedHashring) : partitionedHashring :=
  if decide (partitionName = "none") then p
  else Partitioned.addRelationIdentifiers r partitionName p.

Definition Add `{MathRand} (st : Store) (now : time_Time) (r : Resource)
  (p : partitionedHashring) : option (partitionedHashring * option error * list Resource) :=
  name ← getPartitionName p r;
  let p := addRelationIdentifiers r name p in
  hashring ← partitions p !! name;
  let '(h', err, tested) := ring_Add st now r hashring in
  Some (with_partition name h' p, err, tested).

Definition AddOrUpdate `{MathRand} (st : Store) (now : time_Time) (r : Resource)
  (p : partitionedHashring) : option (partitionedHashring * Store * event * list Resource) :=
  name ← getPartitionName p r;
  let p := addRelationIdentifiers r name p in
  hashring ← partitions p !! name;
  let '(h', st', ev, tested) := ring_AddOrUpdate st now r hashring in
  Some (with_partition name h' p, st', ev, tested).

Definition Remove `{MathRand} (r : Resource) (p : partitionedHashring)
  : option (partitionedHashring * option error) :=
  name ← getPartitionName p r;
  hashring ← partitions p !! name;
  let '(h', err) := ring_Remove r hashring in
  Some (with_partition name h' p, err).

End WithDistributors.

(** ** The stencil of a proportions map *)

Definition Zsum (l : list Z) : Z := foldr Z.add 0 l.

(** [proportions[k]]: the weight of a name, 0 for a name that is not a key. *)
Definition weight (proportions : gmap string Z) (k : string) : Z :=
  default 0 (proportions !! k).

Definition total_weight (proportions : gmap string Z) : Z :=
  Zsum (weight proportions <$> map_keys proportions).

(** The sum of the weights of the names that come before [name] in
    lexicographic order. *)
Definition weight_below (proportions : gmap string Z) (name : string) : Z :=
  Zsum (weight proportions <$>
          filter (fun k => String.le k name /\ k <> name) (map_keys proportions)).

(** Consecutive blocks laid out from [i] on, one per name. *)
Fixpoint chain (proportions : gmap string Z) (i : Z) (ks : list string) : stencil :=
  match ks with
  | [] => []
  | k :: ks' =>
      mkInterval i (i + weight proportions k - 1) k
        :: chain proportions (i + weight proportions k) ks'
  end.

Lemma wrap64_id z : - 2 ^ 63 <= z < 2 ^ 63 -> wrap64 z = z.
Proof. intros Hz. unfold wrap64. rewrite Z.mod_small; lia. Qed.

Lemma Zsum_app l1 l2 : Zsum (l1 ++ l2) = Zsum l1 + Zsum l2.
Proof. induction l1 as [|x l1 IH]; simpl; lia. Qed.

Lemma Zsum_Permutation l1 l2 : l1 ≡ₚ l2 -> Zsum l1 = Zsum l2.
Proof. induction 1; simpl; lia. Qed.

Lemma Zsum_nonneg l : Forall (fun w => 0 <= w) l -> 0 <= Zsum l.
Proof. induction 1; simpl; lia. Qed.

Lemma Zsum_pos l : l <> [] -> Forall (fun w => 0 < w) l -> 0 < Zsum l.
Proof.
  intros Hne Hall. destruct Hall as [|w l Hw Hl]; [done|]. simpl.
  assert (0 <= Zsum l); [|lia].
  apply Zsum_nonneg. eapply Forall_impl; [exact Hl|]. simpl. lia.
Qed.

(** Without overflow the loop of [buildStencil] appends the chain. *)
Lemma buildStencil_loop_chain (proportions : gmap string Z) (ks : list string) :
  Forall (fun k => 0 < weight proportions k) ks ->
  forall s i, 0 <= i -> i + Zsum (weight proportions <$> ks) < 2 ^ 63 ->
  foldl (buildStencil_step proportions) (s, i) ks =
    (s ++ chain proportions i ks, i + Zsum (weight proportions <$> ks)).
Proof.
  induction 1 as [|k ks Hk Hks IH]; intros s i Hi Hsum.
  - simpl. by rewrite app_nil_r, Z.add_0_r.
  - rewrite fmap_cons in Hsum. simpl in Hsum.
    assert (0 <= Zsum (weight proportions <$> ks)).
    { apply Zsum_nonneg, Forall_fmap. eapply Forall_impl; [exact Hks|]. simpl. lia. }
    cbn [foldl]. unfold buildStencil_step at 2. cbn [fst snd].
    fold (weight proportions k).
    rewrite (wrap64_id (i + weight proportions k)) by lia.
    rewrite wrap64_id by lia. rewrite IH by lia.
    rewrite fmap_cons. unfold AddInterval, Zsum. rewrite <- app_assoc.
    cbn [chain foldr app]. f_equal. lia.
Qed.

Lemma FindByValue_chain (proportions : gmap string Z) (ks : list string) :
  Forall (fun k => 0 < weight proportions k) ks ->
  forall i n, i <= n < i + Zsum (weight proportions <$> ks) ->
  exists j k, ks !! j = Some k /\
    i + Zsum (weight proportions <$> take j ks) <= n /\
    n <= i + Zsum (weight proportions <$> take j ks) + weight proportions k - 1 /\
    FindByValue (chain proportions i ks) n =
      Some (mkInterval (i + Zsum (weight proportions <$> take j ks))
                       (i + Zsum (weight proportions <$> take j ks) + weight proportions k - 1)
                       k).
Proof.
  induction 1 as [|k ks Hk Hks IH]; intros i n Hn.
  - simpl in Hn. lia.
  - rewrite fmap_cons in Hn. simpl in Hn.
    destruct (Z_le_gt_dec n (i + weight proportions k - 1)) as [Hle|Hgt].
    + exists 0%nat, k. simpl. rewrite Z.add_0_r. repeat split; try lia.
      unfold FindByValue. cbn [chain list_find].
      rewrite decide_True; [done|].
      unfold Contains. simpl. apply andb_true_iff. split; apply Z.leb_le; lia.
    + destruct (IH (i + weight proportions k) n) as (j & k' & Hj & H1 & H2 & H3); [lia|].
      exists (S j), k'. cbn [lookup list_lookup take fmap list_fmap Zsum foldr].
      change (list_fmap _ _ ?f ?l) with (f <$> l). fold (Zsum (weight proportions <$> take j ks)).
      split; [exact Hj|]. split; [lia|]. split; [lia|].
      unfold FindByValue in *. cbn [chain list_find].
      rewrite decide_False.
      2:{ unfold Contains. simpl. rewrite andb_true_iff, !Z.leb_le. lia. }
      destruct (list_find _ (chain proportions (i + weight proportions k) ks)) as [[x y]|];
        [|done].
      simpl in H3 |- *. rewrite H3. do 2 f_equal; lia.
Qed.

Lemma GetUpperEnd_fold_chain (proportions : gmap string Z) (ks : list string) :
  Forall (fun k => 0 < weight proportions k) ks -> ks <> [] ->
  forall i m,
  foldl (fun max i => if max <? End_ i then End_ i else max) m (chain proportions i ks)
  = Z.max m (i + Zsum (weight proportions <$> ks) - 1).
Proof.
  induction 1 as [|k ks Hk Hks IH]; intros Hne i m; [done|].
  rewrite fmap_cons. cbn [chain foldl Zsum foldr End_].
  fold (Zsum (weight proportions <$> ks)).
  assert (Hstep : (if m <? i + weight proportions k - 1 then i + weight proportions k - 1 else m)
                  = Z.max m (i + weight proportions k - 1)).
  { destruct (Z.ltb_spec m (i + weight proportions k - 1)); lia. }
  rewrite Hstep. destruct ks as [|k' ks'].
  - simpl. f_equal. lia.
  - rewrite IH by done.
    assert (0 < Zsum (weight proportions <$> k' :: ks')).
    { apply Zsum_pos; [done|]. by apply Forall_fmap. }
    lia.
Qed.

(** *** The sorted key list *)

Lemma elem_of_map_keys {V} (m : gmap string V) k : k ∈ map_keys m <-> is_Some (m !! k).
Proof.
  unfold map_keys. rewrite list_elem_of_fmap. split.
  - intros ([k' v] & -> & Hin). apply elem_of_map_to_list in Hin. simpl. eauto.
  - intros [v Hv]. exists (k, v). split; [done|]. by apply elem_of_map_to_list.
Qed.

Lemma NoDup_map_keys {V} (m : gmap string V) : NoDup (map_keys m).
Proof. apply NoDup_fst_map_to_list. Qed.

Lemma sort_Strings_Permutation ks : sort_Strings ks ≡ₚ ks.
Proof. apply merge_sort_Permutation. Qed.

Lemma sort_Strings_sorted ks : StronglySorted String.le (sort_Strings ks).
Proof. apply StronglySorted_merge_sort; apply _. Qed.

Lemma filter_all {A} (P : A -> Prop) `{forall x, Decision (P x)} (l : list A) :
  Forall P l -> filter P l = l.
Proof.
  induction 1 as [|x l Hx Hl IH]; [done|]. rewrite filter_cons_True by done. by rewrite IH.
Qed.

Lemma filter_none {A} (P : A -> Prop) `{forall x, Decision (P x)} (l : list A) :
  Forall (fun x => ~ P x) l -> filter P l = [].
Proof.
  induction 1 as [|x l Hx Hl IH]; [done|]. by rewrite filter_cons_False.
Qed.

(** In a sorted list without repetition the names below the [j]-th one are
    the first [j]. *)
Lemma filter_below_take (ks : list string) j k :
  StronglySorted String.le ks -> NoDup ks -> ks !! j = Some k ->
  filter (fun k' => String.le k' k /\ k' <> k) ks = take j ks.
Proof.
  intros Hs Hnd Hj. rewrite <- (take_drop_middle ks j k Hj) in Hs, Hnd |- * at 1.
  apply StronglySorted_app in Hs as (H12 & _ & H2).
  apply StronglySorted_cons in H2 as [Hk _].
  apply NoDup_app in Hnd as (_ & Hdisj & Hnd2). apply NoDup_cons in Hnd2 as [Hknot _].
  rewrite filter_app, filter_cons_False by (intros [_ ?]; done).
  rewrite filter_all, filter_none; [by rewrite app_nil_r | |].
  - rewrite Forall_forall in Hk |- *. intros x Hx [Hle Hne]. apply Hne.
    by apply (anti_symm String.le); [|apply Hk].
  - apply Forall_forall. intros x Hx. split.
    + apply H12; [done | by left].
    + intros ->. apply (Hdisj k Hx). by left.
Qed.

Section StencilOfProportions.

Context `{MathRand}.
Variable proportions : gmap string Z.
Hypothesis weights_positive : forall k w, proportions !! k = Some w -> 0 < w.
Hypothesis no_overflow : total_weight proportions < 2 ^ 63.

Lemma sorted_keys_weights :
  Forall (fun k => 0 < weight proportions k) (sort_Strings (map_keys proportions)).
Proof.
  apply Forall_forall. intros k Hk. rewrite sort_Strings_Permutation in Hk.
  apply elem_of_map_keys in Hk as [w Hw]. unfold weight. rewrite Hw. simpl. eauto.
Qed.

Lemma sorted_keys_total :
  Zsum (weight proportions <$> sort_Strings (map_keys proportions)) = total_weight proportions.
Proof.
  unfold total_weight. apply Zsum_Permutation. by rewrite sort_Strings_Permutation.
Qed.

Lemma buildStencil_chain :
  buildStencil proportions = chain proportions 0 (sort_Strings (map_keys proportions)).
Proof.
  unfold buildStencil. rewrite buildStencil_loop_chain; [done | | done |].
  - apply sorted_keys_weights.
  - rewrite sorted_keys_total. lia.
Qed.

Lemma GetUpperEnd_buildStencil :
  proportions <> ∅ ->
  GetUpperEnd (buildStencil proportions) = Some (total_weight proportions - 1).
Proof.
  intros Hne. rewrite buildStencil_chain.
  assert (Hks : sort_Strings (map_keys proportions) <> []).
  { intros Hnil. apply Hne. apply map_empty. intros k.
    destruct (proportions !! k) eqn:Hk; [|done].
    assert (k ∈ sort_Strings (map_keys proportions)) as Hin.
    { rewrite sort_Strings_Permutation. apply elem_of_map_keys. eauto. }
    rewrite Hnil in Hin. by apply elem_of_nil in Hin. }
  pose proof (GetUpperEnd_fold_chain proportions _ sorted_keys_weights Hks 0 0) as Hfold.
  rewrite sorted_keys_total in Hfold.
  assert (0 < total_weight proportions).
  { rewrite <- sorted_keys_total. apply Zsum_pos.
    - by destruct (sort_Strings (map_keys proportions)).
    - apply Forall_fmap, sorted_keys_weights. }
  unfold GetUpperEnd.
  destruct (chain proportions 0 (sort_Strings (map_keys proportions))) eqn:Hc.
  - destruct (sort_Strings (map_keys proportions)); [done | discriminate].
  - rewrite Hfold. f_equal. lia.
Qed.

(** The interval [FindByValue] returns for a value below the total weight:
    the block of the name whose lexicographic predecessors weigh at most [n]
    and which itself reaches beyond [n]. *)
Lemma FindByValue_buildStencil n :
  0 <= n < total_weight proportions ->
  exists name w, proportions !! name = Some w /\
    weight_below proportions name <= n <= weight_below proportions name + w - 1 /\
    FindByValue (buildStencil proportions) n =
      Some (mkInterval (weight_below proportions name)
                       (weight_below proportions name + w - 1) name).
Proof.
  intros Hn. rewrite buildStencil_chain.
  destruct (FindByValue_chain proportions _ sorted_keys_weights 0 n)
    as (j & k & Hj & H1 & H2 & H3); [rewrite sorted_keys_total; lia|].
  assert (Hbelow : Zsum (weight proportions <$> take j (sort_Strings (map_keys proportions)))
                   = weight_below proportions k).
  { rewrite <- (filter_below_take _ j k (sort_Strings_sorted _)); [| |done].
    - unfold weight_below. apply Zsum_Permutation. by rewrite sort_Strings_Permutation.
    - rewrite sort_Strings_Permutation. apply NoDup_map_keys. }
  rewrite Hbelow in H1, H2, H3. rewrite !Z.add_0_l in *.
  assert (k ∈ map_keys proportions) as Hin.
  { rewrite <- sort_Strings_Permutation. eapply list_elem_of_lookup_2; eauto. }
  apply elem_of_map_keys in Hin as [w Hw].
  assert (weight proportions k = w) as Hwk by (unfold weight; by rewrite Hw).
  rewrite Hwk in *. exists k, w. split; [done|]. split; [lia|done].
Qed.

End StencilOfProportions.

(** ** Which partition the stencil picks *)

Lemma relatedPartition_none (p : partitionedHashring) (ids : list string) :
  (forall id, id ∈ ids -> relations p !! id = None) ->
  Partitioned.relatedPartition p ids = "".
Proof.
  unfold Partitioned.relatedPartition. generalize "". induction ids as [|id ids IH];
    intros acc Hnone; [done|].
  cbn [foldl]. rewrite (Hnone id) by (by left). apply IH. intros id' Hin.
  apply Hnone. by right.
Qed.

(** A stand-in generator for concrete runs: [x mod n]. *)
Definition modRand : MathRand := {| rngIntn x n := x mod n |}.

Lemma modRand_in_range : @Intn_in_range modRand.
Proof. intros x n Hn. simpl. apply Z.mod_pos_bound. lia. Qed.

(** C1 (as the code has it): with positive weights, a resource without a
    declared distributor and without a recorded relation identifier goes to
    the partition whose block contains [n], where the blocks
    [[sum_prev, sum_prev + weight - 1]] follow the lexicographic order of the
    names, [upper_end] is the total weight minus one, and [n] is what
    [rand.Intn(upper_end + 1)] returns after [rand.Seed(int64(Uid(r)))]. *)
Theorem C1_stencil_partition `{MathRand} (proportions : gmap string Z)
    (p : partitionedHashring) (r : Resource) :
  Intn_in_range ->
  (forall k w, proportions !! k = Some w -> 0 < w) ->
  proportions <> ∅ ->
  total_weight proportions < 2 ^ 63 ->
  stencil_ p = buildStencil proportions ->
  Distributor r = "" ->
  (forall id, id ∈ RelationIdentifiers r -> relations p !! id = None) ->
  GetUpperEnd (stencil_ p) = Some (total_weight proportions - 1) /\
  exists name w,
    proportions !! name = Some w /\
    mkInterval (weight_below proportions name) (weight_below proportions name + w - 1) name
      ∈ stencil_ p /\
    weight_below proportions name
      <= rand_Intn (int64_of_uint64 (Uid r)) (total_weight proportions - 1 + 1)
      <= weight_below proportions name + w - 1 /\
    WithDistributors.getPartitionName p r = Some name.
Proof.
  intros Hrange Hpos Hne Hsum Hst Hdist Hrel.
  pose proof (GetUpperEnd_buildStencil proportions Hpos Hsum Hne) as Hup.
  rewrite Hst. split; [done|].
  assert (0 < total_weight proportions) as Htot.
  { rewrite <- (sorted_keys_total proportions). apply Zsum_pos.
    - intros Hnil. apply fmap_nil_inv in Hnil.
      apply Hne, map_empty. intros k. destruct (proportions !! k) eqn:Hk; [|done].
      assert (k ∈ sort_Strings (map_keys proportions)) as Hin.
      { rewrite sort_Strings_Permutation. apply elem_of_map_keys. eauto. }
      rewrite Hnil in Hin. by apply elem_of_nil in Hin.
    - apply Forall_fmap, sorted_keys_weights, Hpos. }
  replace (total_weight proportions - 1 + 1) with (total_weight proportions) by lia.
  set (n := rand_Intn (int64_of_uint64 (Uid r)) (total_weight proportions)).
  assert (0 <= n < total_weight proportions) as Hn by (apply Hrange; lia).
  destruct (FindByValue_buildStencil proportions Hpos Hsum n Hn) as (name & w & Hw & Hin & Hfind).
  exists name, w. split; [done|]. split; [|split; [done|]].
  - unfold FindByValue in Hfind.
    destruct (list_find _ (buildStencil proportions)) as [[j x]|] eqn:Hlf; [|done].
    simpl in Hfind. injection Hfind as ->. apply list_find_Some in Hlf as (Hj & _).
    eapply list_elem_of_lookup_2; eauto.
  - unfold WithDistributors.getPartitionName. rewrite decide_True by done.
    unfold Partitioned.getPartitionName. rewrite relatedPartition_none by done.
    rewrite decide_True by done. unfold GetPartitionName. rewrite Hst, Hup.
    replace (total_weight proportions - 1 + 1) with (total_weight proportions) by lia.
    rewrite wrap64_id by lia.
    destruct (Z.leb_spec (total_weight proportions) 0); [lia|].
    fold n. by rewrite Hfind.
Qed.

Lemma C1_stencil_partition_witness :
  let proportions : gmap string Z := {[ "https" := 1; "moat" := 5 ]} in
  let p := WithDistributors.newPartitionedWithDistributors (newPartitionedHashring proportions) in
  let r := NewDummy 1 1 9 in
  GetUpperEnd (stencil_ p) = Some (total_weight proportions - 1) /\
  exists name w,
    proportions !! name = Some w /\
    mkInterval (weight_below proportions name) (weight_below proportions name + w - 1) name
      ∈ stencil_ p /\
    weight_below proportions name
      <= @rand_Intn modRand (int64_of_uint64 (Uid r)) (total_weight proportions - 1 + 1)
      <= weight_below proportions name + w - 1 /\
    @WithDistributors.getPartitionName modRand p r = Some name.
Proof.
  intros proportions p r.
  apply (@C1_stencil_partition modRand proportions p r).
  - exact modRand_in_range.
  - intros k w Hk. unfold proportions in Hk.
    apply lookup_insert_Some in Hk as [[_ <-]|[_ Hk]]; [lia|].
    apply lookup_singleton_Some in Hk as [_ <-]. lia.
  - unfold proportions. apply insert_non_empty.
  - vm_compute. reflexivity.
  - vm_compute. reflexivity.
  - reflexivity.
  - intros id Hid. by apply elem_of_nil in Hid.
Defined.

(** C1 as the specification words it: the partition would be the block that
    contains [Uid(r) mod (upper_end + 1)].  With the proportions [{a:1, b:1}]
    the blocks are [a = [0,0]] and [b = [1,1]]; UID 1 is odd and would go to
    [b], UID [2^31] is even and would go to [a].  But [rand.Seed] reduces both
    seeds to the same generator state 1, so whatever the generator's table
    the two resources get the same partition: no generator makes the code
    agree with the modulus on both. *)
Lemma C1_seed_is_not_modulus :
  let proportions : gmap string Z := {[ "a" := 1; "b" := 1 ]} in
  let p := WithDistributors.newPartitionedWithDistributors (newPartitionedHashring proportions) in
  let r1 := NewDummy 1 1 1 in
  let r2 := NewDummy 2 2 (2 ^ 31) in
  buildStencil proportions = [mkInterval 0 0 "a"; mkInterval 1 1 "b"] /\
  Uid r1 mod (1 + 1) = 1 /\
  Uid r2 mod (1 + 1) = 0 /\
  ~ exists R : MathRand,
      @WithDistributors.getPartitionName R p r1 = Some "b" /\
      @WithDistributors.getPartitionName R p r2 = Some "a".
Proof.
  cbv zeta. split; [vm_compute; reflexivity|]. split; [reflexivity|]. split; [reflexivity|].
  intros (R & H1 & H2). vm_compute in H1, H2. rewrite H1 in H2. discriminate.
Qed.

(** ** Relations and co-location *)

Lemma Add_keeps_keys st now r (h : Hashring) k :
  has_key h k -> has_key (Add st now r h).1.1 k.
Proof.
  unfold Add, has_key. intros Hk. destruct (getIndex h (Uid r)); simpl.
  - by rewrite alter_touch_keys.
  - unfold sort_Sort. rewrite merge_sort_Permutation, fmap_app. apply elem_of_app. by left.
  - unfold sort_Sort. rewrite merge_sort_Permutation, fmap_app. apply elem_of_app. by left.
Qed.

Lemma AddOrUpdate_keys st now r (h : Hashring) :
  (exists i, getIndex h (Uid r) = IndexFound i /\
             hashkey <$> (AddOrUpdate st now r h).1.1.1 = hashkey <$> h) \/
  ((forall i, getIndex h (Uid r) <> IndexFound i) /\
   hashkey <$> (AddOrUpdate st now r h).1.1.1 ≡ₚ hashkey <$> (h ++ [NewHashnode now (Uid r) r])).
Proof.
  unfold AddOrUpdate. destruct (getIndex h (Uid r)) as [i|i|] eqn:Hg.
  - left. exists i. split; [done|].
    destruct (getIndex_found_inv _ _ _ Hg) as (n & Hn & Hk). rewrite Hn.
    assert (forall e, hashkey <$> <[i := {| hashkey := hashkey n; elem := e; lastUpdate := now |}]> h
                      = hashkey <$> h) as Hkeys.
    { intros e. by eapply insert_same_key_keys. }
    repeat (match goal with |- context [if ?b then (_, _, _, _) else _] => destruct b end);
      simpl; apply Hkeys.
  - right. split; [done|]. simpl. unfold sort_Sort. by rewrite merge_sort_Permutation.
  - right. split; [done|]. simpl. unfold sort_Sort. by rewrite merge_sort_Permutation.
Qed.

Lemma AddOrUpdate_has_key st now r (h : Hashring) :
  has_key (AddOrUpdate st now r h).1.1.1 (Uid r).
Proof.
  unfold has_key. destruct (AddOrUpdate_keys st now r h) as [(i & Hg & ->)|[_ ->]].
  - apply getIndex_found_inv in Hg as (n & Hn & <-).
    apply list_elem_of_fmap_2. eapply list_elem_of_lookup_2; eauto.
  - rewrite fmap_app. apply elem_of_app. right. simpl. by apply list_elem_of_singleton.
Qed.

Lemma AddOrUpdate_keeps_keys st now r (h : Hashring) k :
  has_key h k -> has_key (AddOrUpdate st now r h).1.1.1 k.
Proof.
  unfold has_key. intros Hk. destruct (AddOrUpdate_keys st now r h) as [(i & _ & ->)|[_ ->]].
  - done.
  - rewrite fmap_app. apply elem_of_app. by left.
Qed.

(** What the loop of [addRelationIdentifiers] leaves in the table. *)
Lemma relations_fold_lookup (rel : gmap string string) (ids : list string) name id :
  foldl (fun rel id => <[id := name]> rel) rel ids !! id =
    if decide (id ∈ ids) then Some name else rel !! id.
Proof.
  revert rel. induction ids as [|x ids IH]; intros rel; cbn [foldl].
  - rewrite decide_False; [done | apply not_elem_of_nil].
  - rewrite IH. destruct (decide (id ∈ ids)) as [Hin|Hnin].
    + rewrite decide_True; [done | by right].
    + destruct (decide (id = x)) as [->|Hne].
      * rewrite lookup_insert_eq. rewrite decide_True; [done | by left].
      * rewrite lookup_insert_ne by done. rewrite decide_False; [done|].
        rewrite elem_of_cons. tauto.
Qed.

Section RelatedPartition.

Variable p : partitionedHashring.
Variable name : string.
Variable ids : list string.
Hypothesis all_same : forall id nm,
  id ∈ ids -> relations p !! id = Some nm -> is_Some (partitions p !! nm) -> nm = name.

Let pick (partitionName id : string) : string :=
  match relations p !! id with
  | Some nm => if decide (is_Some (partitions p !! nm)) then nm else partitionName
  | None => partitionName
  end.

Lemma relatedPartition_fold_same (l : list string) :
  (forall id, id ∈ l -> id ∈ ids) -> foldl pick name l = name.
Proof.
  induction l as [|id l IH]; intros Hsub; [done|]. cbn [foldl].
  assert (pick name id = name) as ->.
  { unfold pick. destruct (relations p !! id) as [nm|] eqn:Hid; [|done].
    destruct (decide _) as [Hsome|]; [|done].
    apply (all_same id nm); [apply Hsub; by left | done | done]. }
  apply IH. intros id' Hin. apply Hsub. by right.
Qed.

Lemma relatedPartition_fold_shared (l : list string) acc s :
  (forall id, id ∈ l -> id ∈ ids) ->
  s ∈ l -> relations p !! s = Some name -> is_Some (partitions p !! name) ->
  foldl pick acc l = name.
Proof.
  intros Hsub Hs Hrel Hpart. revert acc Hsub Hs.
  induction l as [|id l IH]; intros acc Hsub Hs; [by apply elem_of_nil in Hs|].
  cbn [foldl]. apply elem_of_cons in Hs as [->|Hs].
  - assert (pick acc id = name) as ->.
    { unfold pick. rewrite Hrel. by rewrite decide_True. }
    apply relatedPartition_fold_same. intros id' Hin. apply Hsub. by right.
  - apply IH; [|done]. intros id' Hin. apply Hsub. by right.
Qed.

(** When every recorded identifier of the list points to [name] and one of
    them is recorded, the loop of [getPartitionName] ends with [name]. *)
Lemma relatedPartition_shared s :
  s ∈ ids -> relations p !! s = Some name -> is_Some (partitions p !! name) ->
  Partitioned.relatedPartition p ids = name.
Proof.
  intros Hs Hrel Hpart. unfold Partitioned.relatedPartition.
  by apply (relatedPartition_fold_shared ids "" s).
Qed.

End RelatedPartition.

(** Insertion through either entry point. *)
Inductive insert_how := ViaAdd | ViaAddOrUpdate.

Definition insert_with `{MathRand} (how : insert_how) (st : Store) (now : time_Time)
  (r : Resource) (p : partitionedHashring) : option partitionedHashring :=
  match how with
  | ViaAdd => (fun x => x.1.1) <$> WithDistributors.Add st now r p
  | ViaAddOrUpdate => (fun x => x.1.1.1) <$> WithDistributors.AddOrUpdate st now r p
  end.

(** One insertion into an existing partition other than ["none"]. *)
Lemma insert_with_spec `{MathRand} how st now r (p : partitionedHashring) name h :
  WithDistributors.getPartitionName p r = Some name ->
  name <> "none" ->
  partitions p !! name = Some h ->
  exists h', insert_with how st now r p =
      Some (with_partition name h' (Partitioned.addRelationIdentifiers r name p)) /\
    has_key h' (Uid r) /\ (forall k, has_key h k -> has_key h' k).
Proof.
  intros Hname Hnone Hh.
  assert (Hp : partitions (WithDistributors.addRelationIdentifiers r name p) !! name = Some h).
  { unfold WithDistributors.addRelationIdentifiers. by rewrite decide_False. }
  assert (Hrel : WithDistributors.addRelationIdentifiers r name p
                 = Partitioned.addRelationIdentifiers r name p).
  { unfold WithDistributors.addRelationIdentifiers. by rewrite decide_False. }
  destruct how; unfold insert_with.
  - exists (Add st now r h).1.1. split; [|split].
    + unfold WithDistributors.Add. rewrite Hname. cbn [mbind option_bind].
      rewrite Hp. cbn [mbind option_bind]. rewrite Hrel.
      by destruct (Add st now r h) as [[h' err] tested].
    + apply Add_has_key.
    + intros k. apply Add_keeps_keys.
  - exists (AddOrUpdate st now r h).1.1.1. split; [|split].
    + unfold WithDistributors.AddOrUpdate. rewrite Hname. cbn [mbind option_bind].
      rewrite Hp. cbn [mbind option_bind]. rewrite Hrel.
      by destruct (AddOrUpdate st now r h) as [[[h' st'] ev] tested].
    + apply AddOrUpdate_has_key.
    + intros k. apply AddOrUpdate_keeps_keys.
Qed.

(** C6 (as the code has it): a resource [r1] is inserted into an existing
    partition [name] other than ["none"] and [""], and every one of its
    relation identifiers is then recorded for [name]; a resource [r2] without
    a declared distributor that shares an identifier with [r1] and is inserted
    afterwards lands in [name] too, whatever the UIDs, as long as none of its
    identifiers was recorded beforehand for another existing partition (the
    last recorded identifier decides otherwise).  Add and AddOrUpdate behave
    alike. *)
Theorem C6_colocation `{MathRand} (how1 how2 : insert_how) st1 now1 st2 now2
    (r1 r2 : Resource) (p : partitionedHashring) (name s : string) (h : Hashring) :
  Distributor r2 = "" ->
  s ∈ RelationIdentifiers r1 -> s ∈ RelationIdentifiers r2 ->
  WithDistributors.getPartitionName p r1 = Some name ->
  name <> "" -> name <> "none" ->
  partitions p !! name = Some h ->
  (forall id nm, id ∈ RelationIdentifiers r2 -> relations p !! id = Some nm ->
                 is_Some (partitions p !! nm) -> nm = name) ->
  exists p1 p2 h2,
    insert_with how1 st1 now1 r1 p = Some p1 /\
    (forall id, id ∈ RelationIdentifiers r1 -> relations p1 !! id = Some name) /\
    WithDistributors.getPartitionName p1 r2 = Some name /\
    insert_with how2 st2 now2 r2 p1 = Some p2 /\
    partitions p2 !! name = Some h2 /\
    has_key h2 (Uid r1) /\ has_key h2 (Uid r2) /\
    (forall id, id ∈ RelationIdentifiers r1 ++ RelationIdentifiers r2 ->
                relations p2 !! id = Some name).
Proof.
  intros Hd2 Hs1 Hs2 Hname Hne Hnone Hh Hsame.
  destruct (insert_with_spec how1 st1 now1 r1 p name h Hname Hnone Hh) as (h1 & Hins1 & Hk1 & _).
  set (p1 := with_partition name h1 (Partitioned.addRelationIdentifiers r1 name p)) in *.
  assert (Hrel1 : forall id, relations p1 !! id =
            if decide (id ∈ RelationIdentifiers r1) then Some name else relations p !! id).
  { intros id. apply relations_fold_lookup. }
  assert (Hpart1 : forall nm, is_Some (partitions p1 !! nm) <-> is_Some (partitions p !! nm)).
  { intros nm. unfold p1. cbn [partitions with_partition Partitioned.addRelationIdentifiers].
    destruct (decide (name = nm)) as [<-|Hnm].
    - rewrite lookup_insert_eq, Hh. split; eauto.
    - by rewrite lookup_insert_ne. }
  assert (Hh1 : partitions p1 !! name = Some h1) by apply lookup_insert_eq.
  assert (Hname2 : WithDistributors.getPartitionName p1 r2 = Some name).
  { unfold WithDistributors.getPartitionName. rewrite decide_True by done.
    unfold Partitioned.getPartitionName.
    rewrite (relatedPartition_shared p1 name (RelationIdentifiers r2)) with (s := s).
    - by rewrite decide_False.
    - intros id nm Hid Hrel Hsome. rewrite Hrel1 in Hrel.
      destruct (decide (id ∈ RelationIdentifiers r1)); [congruence|].
      apply (Hsame id nm); [done | done | by apply Hpart1].
    - done.
    - rewrite Hrel1. by rewrite decide_True.
    - eauto. }
  destruct (insert_with_spec how2 st2 now2 r2 p1 name h1 Hname2 Hnone Hh1)
    as (h2 & Hins2 & Hk2 & Hkeep).
  exists p1, (with_partition name h2 (Partitioned.addRelationIdentifiers r2 name p1)), h2.
  split; [done|]. split.
  { intros id Hid. rewrite Hrel1. by rewrite decide_True. }
  split; [done|]. split; [done|]. split; [apply lookup_insert_eq|].
  split; [by apply Hkeep|]. split; [done|].
  intros id Hid. cbn [relations with_partition Partitioned.addRelationIdentifiers].
  rewrite relations_fold_lookup. destruct (decide (id ∈ RelationIdentifiers r2)); [done|].
  change (relations p1 !! id = Some name). rewrite Hrel1.
  apply elem_of_app in Hid as [Hid|Hid]; [by rewrite decide_True | done].
Qed.

(** The partition table of the backend for the proportions [{a:1, b:1}]. *)
Definition two_partitions : partitionedHashring :=
  WithDistributors.newPartitionedWithDistributors
    (newPartitionedHashring {[ "a" := 1; "b" := 1 ]}).

Definition withRelations (ids : list string) (dist : string) (r : Resource) : Resource :=
  {| Ptr := Ptr r; Impl := Impl r; RType := RType r; String_ := String_ r;
     Uid := Uid r; Oid := Oid r; RelationIdentifiers := ids; Expiry := Expiry r;
     Distributor := dist |}.

Lemma C6_colocation_witness :
  let r1 := withRelations ["fingerprint"] "a" (NewDummy 1 1 1) in
  let r2 := withRelations ["fingerprint"; "1.2.3.4"] "" (NewDummy 2 2 2) in
  exists p1 p2 h2,
    @insert_with modRand ViaAdd (fun _ => passingTest) 7 r1 two_partitions = Some p1 /\
    (forall id, id ∈ RelationIdentifiers r1 -> relations p1 !! id = Some "a") /\
    @WithDistributors.getPartitionName modRand p1 r2 = Some "a" /\
    @insert_with modRand ViaAddOrUpdate (fun _ => passingTest) 8 r2 p1 = Some p2 /\
    partitions p2 !! "a" = Some h2 /\
    has_key h2 (Uid r1) /\ has_key h2 (Uid r2) /\
    (forall id, id ∈ RelationIdentifiers r1 ++ RelationIdentifiers r2 ->
                relations p2 !! id = Some "a").
Proof.
  intros r1 r2.
  apply (@C6_colocation modRand ViaAdd ViaAddOrUpdate (fun _ => passingTest) 7
           (fun _ => passingTest) 8 r1 r2 two_partitions "a" "fingerprint" []).
  - reflexivity.
  - by left.
  - by left.
  - vm_compute. reflexivity.
  - discriminate.
  - discriminate.
  - vm_compute. reflexivity.
  - intros id nm _ Hrel. vm_compute in Hrel. discriminate.
Defined.

(** The four Adds of the counterexample to C6: [X] and [Y] declare their
    distributors, [r1] and [r2] declare none and share ["fp"]. *)
Definition colocation_run `{MathRand} : option partitionedHashring :=
  let st : Store := fun _ => passingTest in
  let X := withRelations ["1.1.1.1"] "a" (NewDummy 10 10 10) in
  let Y := withRelations ["2.2.2.2"] "b" (NewDummy 20 20 20) in
  let r1 := withRelations ["fp"; "1.1.1.1"] "" (NewDummy 1 1 1) in
  let r2 := withRelations ["fp"; "2.2.2.2"] "" (NewDummy 2 2 2) in
  p ← insert_with ViaAdd st 1 X two_partitions;
  p ← insert_with ViaAdd st 2 Y p;
  p ← insert_with ViaAdd st 3 r1 p;
  insert_with ViaAdd st 4 r2 p.

(** The hashkeys held by a partition. *)
Definition partition_keys (name : string) (p : partitionedHashring) : option (list Z) :=
  (fun h : Hashring => hashkey <$> h) <$> (partitions p !! name).

(** C6 as the specification words it fails when the relations table already
    holds other identifiers of the two resources: [r1] (UID 1) follows
    ["1.1.1.1"] into [a], then [r2] (UID 2), which shares ["fp"] with [r1],
    follows its last identifier ["2.2.2.2"] into [b].  The stencil is never
    asked on this run, so the outcome is the same for every generator. *)
Lemma C6_shared_identifier_split :
  ~ exists R : MathRand,
      (fun p => (partition_keys "a" p, partition_keys "b" p, relations p !! "fp"))
        <$> @colocation_run R
      <> Some (Some [1; 10], Some [2; 20], Some "b").
Proof. intros (R & Hne). apply Hne. vm_compute. reflexivity. Qed.

(** ** Resource queues, maps and diffs (src/pkg/core/domain.go,
       src/unnamed/part_015) *)

Abbreviation ResourceQueue := (list Resource).
Abbreviation ResourceMap := (gmap string (list Resource)).

Record ResourceDiff := mkResourceDiff {
  New : ResourceMap;
  Changed : ResourceMap;
  Gone : ResourceMap;
  FullUpdate : bool
}.

Definition hasUid (k : Hashkey) (q : ResourceQueue) : bool :=
  existsb (fun r2 => k =? Uid r2) q.

(** The queue methods; the returned errors are dropped by every caller. *)
Definition Enqueue (q : ResourceQueue) (r1 : Resource) : ResourceQueue :=
  if hasUid (Uid r1) q then q else q ++ [r1].

Definition Update (q : ResourceQueue) (r1 : Resource) : ResourceQueue :=
  (fun r2 => if Uid r1 =? Uid r2 then r1 else r2) <$> q.

Definition Delete (q : ResourceQueue) (r1 : Resource) : ResourceQueue :=
  filter (fun r2 => Uid r1 <> Uid r2) q.

(** [m[t]] of a Go map of slices: the nil slice for a key that is not there. *)
Definition queue_of (m : ResourceMap) (t : string) : ResourceQueue := default [] (m !! t).

Module ResMap.

(** One of the three loops of [ApplyDiff]:
    [for rType, resources := range part { for _, r := range resources {
       q := resmap[rType]; q.f(r); resmap[rType] = q } }],
    over the entries of [part] in the order the range yields them. *)
Definition apply_queue (f : ResourceQueue -> Resource -> ResourceQueue) (rType : string)
  (resmap : ResourceMap) (resources : list Resource) : ResourceMap :=
  foldl (fun rm r => <[rType := f (queue_of rm rType) r]> rm) resmap resources.

Definition apply_each (f : ResourceQueue -> Resource -> ResourceQueue)
  (resmap : ResourceMap) (entries : list (string * list Resource)) : ResourceMap :=
  foldl (fun rm kv => apply_queue f kv.1 rm kv.2) resmap entries.

(** [ResourceMap.ApplyDiff]: the map [m] after the call. *)
Definition ApplyDiff (d : ResourceDiff) (m : ResourceMap) : ResourceMap :=
  let resmap := if FullUpdate d then (fun _ => []) <$> m else m in
  let resmap := apply_each Enqueue resmap (map_to_list (New d)) in
  let resmap := apply_each Update resmap (map_to_list (Changed d)) in
  let resmap := apply_each Delete resmap (map_to_list (Gone d)) in
  if FullUpdate d then map_imap (fun t _ => Some (queue_of resmap t)) m else resmap.

End ResMap.

(** ** Resource groups and collections (src/pkg/core/collection.go) *)

(** The implementations of the [ResourceGroup] interface. *)
Inductive ResourceGroup :=
| GroupHashring (h : Hashring)
| GroupPartitioned (p : partitionedHashring)
| GroupWithDistributors (p : partitionedHashring).

Abbreviation Collection := (gmap string ResourceGroup).

(** Dynamic dispatch of the interface methods. *)
Module Group.

Local Abbreviation ring_Add := Add.
Local Abbreviation ring_AddOrUpdate := AddOrUpdate.
Local Abbreviation ring_Remove := Remove.
Local Abbreviation ring_Clear := Clear.
Local Abbreviation ring_GetAll := GetAll.
Local Abbreviation ring_Prune := Prune.

Definition Add `{MathRand} (st : Store) (now : time_Time) (r : Resource) (g : ResourceGroup)
  : option (ResourceGroup * option error * list Resource) :=
  match g with
  | GroupHashring h =>
      let '(h', err, tested) := ring_Add st now r h in Some (GroupHashring h', err, tested)
  | GroupPartitioned p =>
      x ← Partitioned.Add st now r p; Some (GroupPartitioned x.1.1, x.1.2, x.2)
  | GroupWithDistributors p =>
      x ← WithDistributors.Add st now r p; Some (GroupWithDistributors x.1.1, x.1.2, x.2)
  end.

Definition AddOrUpdate `{MathRand} (st : Store) (now : time_Time) (r : Resource)
  (g : ResourceGroup) : option (ResourceGroup * Store * event * list Resource) :=
  match g with
  | GroupHashring h =>
      let '(h', st', ev, tested) := ring_AddOrUpdate st now r h in
      Some (GroupHashring h', st', ev, tested)
  | GroupPartitioned p =>
      x ← Partitioned.AddOrUpdate st now r p;
      Some (GroupPartitioned x.1.1.1, x.1.1.2, x.1.2, x.2)
  | GroupWithDistributors p =>
      x ← WithDistributors.AddOrUpdate st now r p;
      Some (GroupWithDistributors x.1.1.1, x.1.1.2, x.1.2, x.2)
  end.

Definition Remove `{MathRand} (r : Resource) (g : ResourceGroup)
  : option (ResourceGroup * option error) :=
  match g with
  | GroupHashring h => let '(h', err) := ring_Remove r h in Some (GroupHashring h', err)
  | GroupPartitioned p => x ← Partitioned.Remove r p; Some (GroupPartitioned x.1, x.2)
  | GroupWithDistributors p =>
      x ← WithDistributors.Remove r p; Some (GroupWithDistributors x.1, x.2)
  end.

Definition Clear (g : ResourceGroup) : ResourceGroup :=
  match g with
  | GroupHashring h => GroupHashring (ring_Clear h)
  | GroupPartitioned p => GroupPartitioned (Partitioned.Clear p)
  | GroupWithDistributors p => GroupWithDistributors (Partitioned.Clear p)
  end.

Definition GetAll (g : ResourceGroup) : list Resource :=
  match g with
  | GroupHashring h => ring_GetAll h
  | GroupPartitioned p | GroupWithDistributors p => Partitioned.GetAll p
  end.

Definition Prune (now : time_Time) (g : ResourceGroup) : ResourceGroup * list Resource :=
  match g with
  | GroupHashring h => let '(h', pruned) := ring_Prune now h in (GroupHashring h', pruned)
  | GroupPartitioned p =>
      let '(p', pruned) := Partitioned.Prune now p in (GroupPartitioned p', pruned)
  | GroupWithDistributors p =>
      let '(p', pruned) := Partitioned.Prune now p in (GroupWithDistributors p', pruned)
  end.

(** [getHashring]; [None] is the nil pointer of a partition that is not there. *)
Definition getHashring (partitionName : string) (g : ResourceGroup) : option Hashring :=
  match g with
  | GroupHashring h => Some h
  | GroupPartitioned p | GroupWithDistributors p => Partitioned.getHashring partitionName p
  end.

Definition getPartitionName `{MathRand} (g : ResourceGroup) (r : Resource) : option string :=
  match g with
  | GroupHashring _ => Some ""
  | GroupPartitioned p => Partitioned.getPartitionName p r
  | GroupWithDistributors p => WithDistributors.getPartitionName p r
  end.

End Group.

(** The mutable world a collection lives in: the collection, the test
    results and the tests started so far. *)
Record world := mkWorld {
  w_coll : Collection;
  w_store : Store;
  w_tested : list Resource
}.

Fixpoint forM {S A} (f : S -> A -> option S) (s : S) (l : list A) : option S :=
  match l with
  | [] => Some s
  | x :: l' => s' ← f s x; forM f s' l'
  end.

Module Coll.

(** [Collection.Add]. *)
Definition Add `{MathRand} (st : Store) (now : time_Time) (r : Resource) (c : Collection)
  : option (Collection * option error * list Resource) :=
  match c !! RType r with
  | None => Some (c, Some (ErrNoResourceType (RType r)), [])
  | Some rt =>
      x ← Group.Add st now r rt; Some (<[RType r := x.1.1]> c, x.1.2, x.2)
  end.

(** [c[rType].Add(r)] and its siblings inside [ApplyDiff]: the group of a
    type that is not registered is a nil interface, and calling a method on
    it panics. *)
Definition add_one `{MathRand} (now : time_Time) (rType : string) (w : world) (r : Resource)
  : option world :=
  g ← w_coll w !! rType;
  x ← Group.Add (w_store w) now r g;
  Some {| w_coll := <[rType := x.1.1]> (w_coll w); w_store := w_store w;
          w_tested := w_tested w ++ x.2 |}.

Definition update_one `{MathRand} (now : time_Time) (rType : string) (w : world) (r : Resource)
  : option world :=
  g ← w_coll w !! rType;
  x ← Group.AddOrUpdate (w_store w) now r g;
  Some {| w_coll := <[rType := x.1.1.1]> (w_coll w); w_store := x.1.1.2;
          w_tested := w_tested w ++ x.2 |}.

Definition remove_one `{MathRand} (rType : string) (w : world) (r : Resource) : option world :=
  g ← w_coll w !! rType;
  x ← Group.Remove r g;
  Some {| w_coll := <[rType := x.1]> (w_coll w); w_store := w_store w;
          w_tested := w_tested w |}.

Definition each_type (f : string -> world -> Resource -> option world)
  (w : world) (entries : list (string * list Resource)) : option world :=
  forM (fun w kv => forM (f kv.1) w kv.2) w entries.

(** [Collection.ApplyDiff]. *)
Definition ApplyDiff `{MathRand} (now : time_Time) (d : ResourceDiff) (w : world)
  : option world :=
  let w := if FullUpdate d
           then {| w_coll := Group.Clear <$> w_coll w; w_store := w_store w;
                   w_tested := w_tested w |}
           else w in
  w ← each_type (add_one now) w (map_to_list (New d));
  w ← each_type (update_one now) w (map_to_list (Changed d));
  each_type remove_one w (map_to_list (Gone d)).

(** [Collection.GetHashring]. *)
Definition GetHashring (partitionName rType : string) (c : Collection) : option Hashring :=
  match c !! rType with
  | None => Some NewHashring
  | Some rt => Group.getHashring partitionName rt
  end.

End Coll.

(** ** Backend resources (the second part of src/pkg/core/domain.go) *)

Record ResourceRequest := mkResourceRequest {
  RequestOrigin : string;
  ResourceTypes : list string
}.

Definition HasResourceType (req : ResourceRequest) (rType1 : string) : bool :=
  existsb (fun rType2 => String.eqb rType1 rType2) (ResourceTypes req).

(** A channel is known by its identity; what is sent on it is logged. *)
Record EventRecipient := mkEventRecipient {
  EventChans : list nat;
  Request : ResourceRequest
}.

Record BackendResources := mkBackendResources {
  Collection_ : Collection;
  OnlyFunctional : bool;
  UseBandwidthRatio : bool;
  EventRecipients : gmap string EventRecipient
}.

Definition with_collection (c : Collection) (ctx : BackendResources) : BackendResources :=
  {| Collection_ := c; OnlyFunctional := OnlyFunctional ctx;
     UseBandwidthRatio := UseBandwidthRatio ctx; EventRecipients := EventRecipients ctx |}.

(** What a call on the backend leaves behind: the backend, the store, the
    tests started and the diffs sent, each with the channel it went to. *)
Record outcome := mkOutcome {
  o_ctx : BackendResources;
  o_store : Store;
  o_tested : list Resource;
  o_sent : list (nat * ResourceDiff)
}.

Module Backend.

Definition event_diff (r : Resource) (ev : event) : option ResourceDiff :=
  let rm : ResourceMap := {[ RType r := [r] ]} in
  match ev with
  | ResourceIsNew => Some {| New := rm; Changed := ∅; Gone := ∅; FullUpdate := false |}
  | ResourceChanged => Some {| New := ∅; Changed := rm; Gone := ∅; FullUpdate := false |}
  | ResourceIsGone => Some {| New := ∅; Changed := ∅; Gone := rm; FullUpdate := false |}
  | ResourceUnchanged => None
  end.

(** [propagateUpdate]: the sends [c <- diff], in order. *)
Definition propagateUpdate `{MathRand} (ctx : BackendResources) (r : Resource) (ev : event)
  : option (list (nat * ResourceDiff)) :=
  match Collection_ ctx !! RType r with
  | None => Some []
  | Some g =>
      match event_diff r ev with
      | None => Some []
      | Some diff =>
          distName ← Group.getPartitionName g r;
          match EventRecipients ctx !! distName with
          | None => Some []
          | Some eventRecipient =>
              if HasResourceType (Request eventRecipient) (RType r)
              then Some ((fun c => (c, diff)) <$> EventChans eventRecipient)
              else Some []
          end
      end
  end.

(** [BackendResources.Add].  The Go method has no result: all it does is in
    the outcome. *)
Definition Add `{MathRand} (st : Store) (now : time_Time) (r1 : Resource)
  (ctx : BackendResources) : option outcome :=
  match Collection_ ctx !! RType r1 with
  | None => Some {| o_ctx := ctx; o_store := st; o_tested := []; o_sent := [] |}
  | Some hashring =>
      x ← Group.AddOrUpdate st now r1 hashring;
      let ctx' := with_collection (<[RType r1 := x.1.1.1]> (Collection_ ctx)) ctx in
      sent ← match x.1.2 with
             | ResourceUnchanged => Some []
             | ev => propagateUpdate ctx' r1 ev
             end;
      Some {| o_ctx := ctx'; o_store := x.1.1.2; o_tested := x.2; o_sent := sent |}
  end.

(** [BackendResources.Get]: the working and the not-working resources. *)
Definition Get (st : Store) (distName rType : string) (ctx : BackendResources)
  : list Resource * list Resource :=
  match Coll.GetHashring distName rType (Collection_ ctx) with
  | None => ([], [])
  | Some hashring =>
      let working (r : Resource) : bool :=
        (negb (OnlyFunctional ctx) || isFunctional (State (TestResult st r)))
        && (negb (UseBandwidthRatio ctx) || negb (isRejected (Speed (TestResult st r)))) in
      (filter (fun r => working r = true) (GetAll hashring),
       filter (fun r => working r <> true) (GetAll hashring))
  end.

End Backend.

(** C10: for a resource whose type has no entry in the collection,
    BackendResources.Add returns at once: the backend (every hashring, every
    recipient) and the store are as before, no test is started and nothing is
    sent on any channel; Collection.Add on the same input reports the
    "No resource type" error. *)
Theorem C10_Add_unregistered_type `{MathRand} st now (r : Resource) (ctx : BackendResources) :
  Collection_ ctx !! RType r = None ->
  Backend.Add st now r ctx =
    Some {| o_ctx := ctx; o_store := st; o_tested := []; o_sent := [] |} /\
  Coll.Add st now r (Collection_ ctx) =
    Some (Collection_ ctx, Some (ErrNoResourceType (RType r)), []).
Proof.
  intros Hno. unfold Backend.Add, Coll.Add. by rewrite Hno.
Qed.

Lemma C10_Add_unregistered_type_witness :
  let ctx := {| Collection_ := {[ "obfs4" := GroupHashring [] ]};
                OnlyFunctional := false; UseBandwidthRatio := false;
                EventRecipients :=
                  {[ "" := {| EventChans := [1%nat];
                              Request := {| RequestOrigin := "";
                                            ResourceTypes := ["dummy"] |} |} ]} |} in
  let r := NewDummy 1 1 1 in
  @Backend.Add modRand (fun _ => passingTest) 7 r ctx =
    Some {| o_ctx := ctx; o_store := fun _ => passingTest; o_tested := []; o_sent := [] |} /\
  @Coll.Add modRand (fun _ => passingTest) 7 r (Collection_ ctx) =
    Some (Collection_ ctx, Some (ErrNoResourceType "dummy"), []).
Proof.
  intros ctx r.
  apply (@C10_Add_unregistered_type modRand (fun _ => passingTest) 7 r ctx).
  reflexivity.
Defined.

(** ** The onbasca write-back of the test pool (src/internal/resourcetest.go) *)

(** One entry of [bridge_results]; [last_tested] and [ratio] are pointers,
    JSON [null] leaves them nil. *)
Record BridgeTest := mkBridgeTest {
  Functional : bool;
  BT_LastTested : option time_Time;
  BT_Ratio : option float;
  BT_Error : string
}.

(** [Bridges] is a [map[string]*BridgeTest]: an entry that is JSON [null]
    is a nil pointer, [None] here. *)
Record BridgeTestResponse := mkBridgeTestResponse {
  Bridges : gmap string (option BridgeTest);
  Response_Error : string
}.

Definition withSpeed (speed : TestSpeed) (ratio : option float) (rt : ResourceTest)
  : ResourceTest :=
  {| State := State rt; Speed := speed; Ratio := ratio;
     LastTested := LastTested rt; LastPassed := LastPassed rt; Error := Error rt |}.

Module TestPool.

(** The body of the loop of [testOnbasca] for one entry that matched a
    pooled resource, as a function of that resource's test result; [None] is
    the nil dereference of [*bridgeTest.Ratio]. *)
Definition onbascaEntry (bandwidthRatioThreshold : float) (bridgeTest : BridgeTest)
  (rTest : ResourceTest) : option ResourceTest :=
  if negb (String.eqb (BT_Error bridgeTest) "") then
    Some (withSpeed SpeedUntested None rTest)
  else if match BT_Ratio bridgeTest with
          | Some ratio => PrimFloat.eqb ratio 0%float
          | None => false
          end && Functional bridgeTest then
    Some (withSpeed SpeedUntested None rTest)
  else
    match BT_Ratio bridgeTest with
    | None => None
    | Some ratio =>
        if PrimFloat.ltb ratio bandwidthRatioThreshold
        then Some (withSpeed SpeedRejected (Some ratio) rTest)
        else Some (withSpeed SpeedAccepted (Some ratio) rTest)
    end.

(** One round of the loop: an entry for a line that is not pooled is
    skipped; for a pooled line [bridgeTest.Error] is read first, which
    panics on a nil entry. *)
Definition onbascaStep (threshold : float) (rMap : gmap string Resource)
  (st : Store) (entry : string * option BridgeTest) : option Store :=
  match rMap !! entry.1 with
  | None => Some st
  | Some r =>
      bridgeTest ← entry.2;
      rTest ← onbascaEntry threshold bridgeTest (TestResult st r);
      Some (<[Ptr r := rTest]> st)
  end.

(** [testOnbasca] once [MakeJsonRequest] has returned: [resp] is [None] when
    the request failed. *)
Definition testOnbasca (threshold : float) (rMap : gmap string Resource)
  (resp : option BridgeTestResponse) (st : Store) : option Store :=
  match resp with
  | None => Some st
  | Some resp =>
      if negb (String.eqb (Response_Error resp) "") then Some st
      else forM (onbascaStep threshold rMap) st (map_to_list (Bridges resp))
  end.

End TestPool.

(** For an entry whose ratio is a number the write-back is the one the
    specification describes. *)
Lemma onbascaEntry_number threshold functional lastTested ratio err rTest :
  TestPool.onbascaEntry threshold (mkBridgeTest functional lastTested (Some ratio) err) rTest =
    Some (if negb (String.eqb err "") then withSpeed SpeedUntested None rTest
          else if PrimFloat.eqb ratio 0%float && functional
               then withSpeed SpeedUntested None rTest
               else if PrimFloat.ltb ratio threshold
                    then withSpeed SpeedRejected (Some ratio) rTest
                    else withSpeed SpeedAccepted (Some ratio) rTest).
Proof.
  unfold TestPool.onbascaEntry. simpl.
  destruct (negb (String.eqb err "")); [done|].
  destruct (PrimFloat.eqb ratio 0 && functional); [done|].
  by destruct (PrimFloat.ltb ratio threshold).
Qed.

(** C4 on an entry with an empty error and a null ratio: the third branch
    dereferences the nil [Ratio], so the entry is not compared with the
    threshold and no speed is written; the whole write-back of the batch
    panics. *)
Theorem C4_null_ratio_is_dereferenced :
  let entry := {| Functional := false; BT_LastTested := None; BT_Ratio := None;
                  BT_Error := "" |} in
  let r := NewDummy 1 1 1 in
  let rMap : gmap string Resource := {[ String_ r := r ]} in
  let resp := {| Bridges := {[ String_ r := Some entry ]}; Response_Error := "" |} in
  (forall threshold rTest, TestPool.onbascaEntry threshold entry rTest = None) /\
  (forall threshold functional rTest,
     TestPool.onbascaEntry threshold
       {| Functional := functional; BT_LastTested := None; BT_Ratio := None;
          BT_Error := "" |} rTest = None) /\
  TestPool.testOnbasca 1%float rMap (Some resp) (fun _ => passingTest) = None.
Proof.
  cbv zeta. split; [reflexivity|]. split; [reflexivity|]. vm_compute. reflexivity.
Qed.

(** ** Applying a diff to a resource map *)

Lemma apply_queue_lookup f k (rm : ResourceMap) rs t :
  queue_of (ResMap.apply_queue f k rm rs) t =
    if decide (k = t) then foldl f (queue_of rm t) rs else queue_of rm t.
Proof.
  unfold ResMap.apply_queue. revert rm. induction rs as [|r rs IH]; intros rm; cbn [foldl].
  - by destruct (decide (k = t)).
  - rewrite IH. unfold queue_of at 1 3. destruct (decide (k = t)) as [->|Hne].
    + by rewrite lookup_insert_eq.
    + by rewrite lookup_insert_ne.
Qed.

Lemma apply_queue_is_Some f k (rm : ResourceMap) rs t :
  is_Some (rm !! t) -> is_Some (ResMap.apply_queue f k rm rs !! t).
Proof.
  unfold ResMap.apply_queue. revert rm. induction rs as [|r rs IH]; intros rm Hs; cbn [foldl];
    [done|].
  apply IH. destruct (decide (k = t)) as [->|Hne].
  - rewrite lookup_insert_eq. eauto.
  - by rewrite lookup_insert_ne.
Qed.

Lemma apply_each_other f (rm : ResourceMap) (entries : list (string * list Resource)) t :
  t ∉ entries.*1 -> queue_of (ResMap.apply_each f rm entries) t = queue_of rm t.
Proof.
  unfold ResMap.apply_each. revert rm.
  induction entries as [|[k rs] entries IH]; intros rm Hnot; cbn [foldl]; [done|].
  rewrite fmap_cons, not_elem_of_cons in Hnot. destruct Hnot as [Hne Hnot].
  rewrite IH by done. cbn [fst snd]. rewrite apply_queue_lookup.
  simpl in Hne. by rewrite decide_False.
Qed.

Lemma apply_each_at f (rm : ResourceMap) (entries : list (string * list Resource)) t rs :
  NoDup entries.*1 -> (t, rs) ∈ entries ->
  queue_of (ResMap.apply_each f rm entries) t = foldl f (queue_of rm t) rs.
Proof.
  unfold ResMap.apply_each. revert rm.
  induction entries as [|[k rs'] entries IH]; intros rm Hnd Hin; cbn [foldl].
  - by apply elem_of_nil in Hin.
  - rewrite fmap_cons in Hnd. apply NoDup_cons in Hnd as [Hnotin Hnd].
    apply elem_of_cons in Hin as [Heq|Hin].
    + injection Heq as <- <-.
      change (foldl _ ?a entries) with (ResMap.apply_each f a entries).
      rewrite apply_each_other by done. cbn [fst snd]. rewrite apply_queue_lookup.
      by rewrite decide_True.
    + rewrite IH by done. cbn [fst snd]. rewrite apply_queue_lookup.
      rewrite decide_False; [done|]. intros ->. apply Hnotin.
      simpl. by apply (list_elem_of_fmap_2 fst) in Hin.
Qed.

(** One loop of [ApplyDiff] over a map: every type's queue is folded with
    the resources the part lists for it, whatever the order of the range. *)
Lemma apply_each_map f (rm part : ResourceMap) t :
  queue_of (ResMap.apply_each f rm (map_to_list part)) t =
    foldl f (queue_of rm t) (queue_of part t).
Proof.
  unfold queue_of at 3. destruct (part !! t) as [rs|] eqn:Hp; simpl.
  - apply apply_each_at; [apply NoDup_fst_map_to_list | by apply elem_of_map_to_list].
  - apply apply_each_other. intros Hin. apply list_elem_of_fmap in Hin as ([k rs] & -> & Hin).
    apply elem_of_map_to_list in Hin. simpl in Hp. congruence.
Qed.

(** The queue a full update leaves for a type: the New resources, one per
    UID, then the Changed ones written over them, then the Gone ones
    deleted. *)
Definition full_update_queue (d : ResourceDiff) (t : string) : ResourceQueue :=
  foldl Delete
    (foldl Update (foldl Enqueue [] (queue_of (New d) t)) (queue_of (Changed d) t))
    (queue_of (Gone d) t).

Lemma hasUid_false k (q : ResourceQueue) : k ∉ Uid <$> q -> hasUid k q = false.
Proof.
  unfold hasUid. induction q as [|r q IH]; intros Hnot; [done|].
  rewrite fmap_cons, not_elem_of_cons in Hnot. destruct Hnot as [Hne Hnot].
  simpl. rewrite IH by done. destruct (Z.eqb_spec k (Uid r)); [done|done].
Qed.

Lemma foldl_Enqueue_NoDup (q news : ResourceQueue) :
  NoDup (Uid <$> (q ++ news)) -> foldl Enqueue q news = q ++ news.
Proof.
  revert q. induction news as [|r news IH]; intros q Hnd; cbn [foldl].
  - by rewrite app_nil_r.
  - assert (Enqueue q r = q ++ [r]) as ->.
    { unfold Enqueue. rewrite hasUid_false; [done|].
      rewrite fmap_app in Hnd. apply NoDup_app in Hnd as (_ & Hdisj & _).
      intros Hin. apply (Hdisj _ Hin). rewrite fmap_cons. by left. }
    rewrite IH; rewrite <- app_assoc; done.
Qed.

Lemma ResMap_ApplyDiff_full (d : ResourceDiff) (m : ResourceMap) t :
  FullUpdate d = true ->
  ResMap.ApplyDiff d m !! t = (fun _ => full_update_queue d t) <$> (m !! t).
Proof.
  intros Hfull. unfold ResMap.ApplyDiff. rewrite Hfull. rewrite map_lookup_imap.
  destruct (m !! t) as [q|] eqn:Hm; [|done]. simpl. f_equal.
  rewrite !apply_each_map. unfold full_update_queue. do 3 f_equal.
  unfold queue_of. by rewrite lookup_fmap, Hm.
Qed.

(** ** Applying a diff to a collection *)

Lemma Add_has_key_iff st now r (h : Hashring) k :
  has_key (Add st now r h).1.1 k <-> has_key h k \/ k = Uid r.
Proof.
  split.
  - unfold Add, has_key. destruct (getIndex h (Uid r)) as [i|i|]; simpl.
    + rewrite alter_touch_keys. auto.
    + unfold sort_Sort. rewrite merge_sort_Permutation, fmap_app, elem_of_app. simpl.
      rewrite list_elem_of_singleton. auto.
    + unfold sort_Sort. rewrite merge_sort_Permutation, fmap_app, elem_of_app. simpl.
      rewrite list_elem_of_singleton. auto.
  - intros [Hk| ->]; [by apply Add_keeps_keys | apply Add_has_key].
Qed.

Lemma Add_elems st now r (h : Hashring) x :
  x ∈ GetAll (Add st now r h).1.1 -> x ∈ GetAll h \/ x = r.
Proof.
  unfold Add, GetAll. destruct (getIndex h (Uid r)) as [i|i|]; simpl.
  - rewrite (list_fmap_alter elem (touch now) id); [|by apply Forall_forall].
    rewrite list_alter_id by done. auto.
  - unfold sort_Sort. rewrite merge_sort_Permutation, fmap_app, elem_of_app. simpl.
    rewrite list_elem_of_singleton. auto.
  - unfold sort_Sort. rewrite merge_sort_Permutation, fmap_app, elem_of_app. simpl.
    rewrite list_elem_of_singleton. auto.
Qed.

(** The ring a run of Adds builds. *)
Definition add_all (st : Store) (now : time_Time) (h : Hashring) (news : list Resource)
  : Hashring :=
  foldl (fun h r => (Add st now r h).1.1) h news.

Lemma add_all_spec st now news : forall h,
  ring_ok h ->
  ring_ok (add_all st now h news) /\
  (forall k, has_key (add_all st now h news) k <-> has_key h k \/ k ∈ Uid <$> news) /\
  (forall x, x ∈ GetAll (add_all st now h news) -> x ∈ GetAll h \/ x ∈ news).
Proof.
  induction news as [|r news IH]; intros h Hs; cbn [add_all foldl].
  - split; [done|]. split; [|auto]. intros k. rewrite fmap_nil, elem_of_nil. tauto.
  - destruct (IH (Add st now r h).1.1 (Add_ring_ok st now r h Hs)) as (H1 & H2 & H3).
    fold (add_all st now (Add st now r h).1.1 news).
    split; [done|]. split.
    + intros k. rewrite H2, Add_has_key_iff, fmap_cons, elem_of_cons. tauto.
    + intros x Hx. apply H3 in Hx as [Hx|Hx].
      * apply Add_elems in Hx as [Hx| ->]; [by left | right; by left].
      * right. by right.
Qed.

Lemma forM_add_one_ring `{MathRand} now t (news : list Resource) : forall (w : world) h,
  w_coll w !! t = Some (GroupHashring h) ->
  exists tested,
    forM (Coll.add_one now t) w news =
      Some {| w_coll := <[t := GroupHashring (add_all (w_store w) now h news)]> (w_coll w);
              w_store := w_store w; w_tested := tested |}.
Proof.
  induction news as [|r news IH]; intros w h Hw.
  - exists (w_tested w). cbn [forM add_all foldl]. rewrite insert_id by done. by destruct w.
  - assert (Hstep : Coll.add_one now t w r =
        Some {| w_coll := <[t := GroupHashring (Add (w_store w) now r h).1.1]> (w_coll w);
                w_store := w_store w;
                w_tested := w_tested w ++ (Add (w_store w) now r h).2 |}).
    { unfold Coll.add_one. rewrite Hw. cbn [mbind option_bind Group.Add].
      by destruct (Add (w_store w) now r h) as [[h' err] tested]. }
    cbn [forM]. rewrite Hstep. cbn [mbind option_bind].
    destruct (IH {| w_coll := <[t := GroupHashring (Add (w_store w) now r h).1.1]> (w_coll w);
                    w_store := w_store w;
                    w_tested := w_tested w ++ (Add (w_store w) now r h).2 |}
                 (Add (w_store w) now r h).1.1) as [tested' Htested'].
    { apply lookup_insert_eq. }
    exists tested'. rewrite Htested'. cbn [w_coll w_store].
    by rewrite insert_insert_eq.
Qed.

Lemma forM_add_one_unregistered `{MathRand} now k t (rs : list Resource) : forall (w w' : world),
  w_coll w !! t = None -> forM (Coll.add_one now k) w rs = Some w' -> w_coll w' !! t = None.
Proof.
  induction rs as [|r rs IH]; intros w w' Hw Hrun; cbn [forM] in Hrun.
  - by injection Hrun as <-.
  - destruct (Coll.add_one now k w r) as [w1|] eqn:H1; [|done].
    cbn [mbind option_bind] in Hrun. apply (IH w1 w'); [|done].
    unfold Coll.add_one in H1. destruct (w_coll w !! k) as [g|] eqn:Hk; [|done].
    cbn [mbind option_bind] in H1. destruct (Group.Add _ _ _ _) as [x|]; [|done].
    cbn [mbind option_bind] in H1. injection H1 as <-. cbn [w_coll].
    rewrite lookup_insert_ne; [done|]. intros ->. congruence.
Qed.

(** The New loop over types that all have an unpartitioned hashring: every
    such ring receives the resources listed for its type, the other groups
    and the store stay as they are. *)
Lemma each_type_add_rings `{MathRand} now (entries : list (string * list Resource)) :
  NoDup entries.*1 ->
  forall w : world,
  (forall k rs, (k, rs) ∈ entries -> exists h, w_coll w !! k = Some (GroupHashring h)) ->
  exists w', Coll.each_type (Coll.add_one now) w entries = Some w' /\
    w_store w' = w_store w /\
    (forall t, t ∉ entries.*1 -> w_coll w' !! t = w_coll w !! t) /\
    (forall t rs h, (t, rs) ∈ entries -> w_coll w !! t = Some (GroupHashring h) ->
       w_coll w' !! t = Some (GroupHashring (add_all (w_store w) now h rs))).
Proof.
  unfold Coll.each_type. induction entries as [|[k rs] entries IH]; intros Hnd w Hreg.
  - exists w. split; [done|]. split; [done|]. split; [done|].
    intros t rs h Hin. by apply elem_of_nil in Hin.
  - rewrite fmap_cons in Hnd. apply NoDup_cons in Hnd as [Hnotin Hnd]. simpl in Hnotin.
    destruct (Hreg k rs) as [h Hk]; [by left|].
    destruct (forM_add_one_ring now k rs w h Hk) as [tested Hrun].
    set (w1 := {| w_coll := <[k := GroupHashring (add_all (w_store w) now h rs)]> (w_coll w);
                  w_store := w_store w; w_tested := tested |}) in *.
    destruct (IH Hnd w1) as (w' & Hw' & Hst & Hother & Hat).
    { intros k' rs' Hin. destruct (Hreg k' rs') as [h' Hk']; [by right|].
      exists h'. cbn [w1 w_coll]. rewrite lookup_insert_ne; [done|].
      intros ->. apply Hnotin. by apply (list_elem_of_fmap_2 fst) in Hin. }
    exists w'. cbn [forM fst snd]. rewrite Hrun. cbn [mbind option_bind].
    split; [done|]. split; [done|]. split.
    + intros t Hnot. rewrite fmap_cons, not_elem_of_cons in Hnot. destruct Hnot as [Hne Hnot].
      rewrite Hother by done. cbn [w1 w_coll]. simpl in Hne. by rewrite lookup_insert_ne.
    + intros t rs' h' Hin Ht. apply elem_of_cons in Hin as [Heq|Hin].
      * injection Heq as -> ->. rewrite Hother by done. cbn [w1 w_coll].
        rewrite lookup_insert_eq. congruence.
      * assert (k <> t) as Hne.
        { intros ->. apply Hnotin. by apply (list_elem_of_fmap_2 fst) in Hin. }
        rewrite (Hat t rs' h'); [done | done |].
        cbn [w1 w_coll]. by rewrite lookup_insert_ne.
Qed.

(** A New entry for a type without a group stops [ApplyDiff]: the method is
    called on a nil interface. *)
Lemma each_type_unregistered `{MathRand} now t r rs (entries : list (string * list Resource)) :
  (t, r :: rs) ∈ entries ->
  forall w, w_coll w !! t = None -> Coll.each_type (Coll.add_one now) w entries = None.
Proof.
  unfold Coll.each_type. induction entries as [|[k rs'] entries IH]; intros Hin w Hw.
  - by apply elem_of_nil in Hin.
  - cbn [forM fst snd]. apply elem_of_cons in Hin as [Heq|Hin].
    + injection Heq as <- <-. cbn [forM].
      assert (Coll.add_one now t w r = None) as ->; [|done].
      unfold Coll.add_one. by rewrite Hw.
    + destruct (forM (Coll.add_one now k) w rs') as [w1|] eqn:H1; [|done].
      cbn [mbind option_bind]. apply IH; [done|].
      by eapply forM_add_one_unregistered.
Qed.

(** X25: a full update gives every type the resource map has the queue
    built from the diff alone (New, one resource per UID, then Changed and
    Gone applied), which is exactly [d.New[t]] when that list has no UID
    twice and the diff changes and removes nothing of the type.  A
    collection whose New types all have an unpartitioned hashring (and
    nothing is changed or gone) ends up with one node for each UID of the
    New resources in the ring of their type and nothing else, and with
    every other group cleared. *)
Theorem X25_full_update_existing_types `{MathRand} (d : ResourceDiff) (m : ResourceMap) now
    (w : world) :
  FullUpdate d = true ->
  (forall t, is_Some (m !! t) -> ResMap.ApplyDiff d m !! t = Some (full_update_queue d t)) /\
  (forall t, is_Some (m !! t) -> NoDup (Uid <$> queue_of (New d) t) ->
             queue_of (Changed d) t = [] -> queue_of (Gone d) t = [] ->
             ResMap.ApplyDiff d m !! t = Some (queue_of (New d) t)) /\
  ((forall t, is_Some (New d !! t) -> exists h, w_coll w !! t = Some (GroupHashring h)) ->
   Changed d = ∅ -> Gone d = ∅ ->
   exists w', Coll.ApplyDiff now d w = Some w' /\
     w_store w' = w_store w /\
     (forall t, New d !! t = None ->
                w_coll w' !! t = Group.Clear <$> (w_coll w !! t)) /\
     (forall t h, w_coll w !! t = Some (GroupHashring h) ->
        exists h', w_coll w' !! t = Some (GroupHashring h') /\
          ring_ok h' /\
          (forall k, has_key h' k <-> k ∈ Uid <$> queue_of (New d) t) /\
          (forall x, x ∈ GetAll h' -> x ∈ queue_of (New d) t))).
Proof.
  intros Hfull. split; [|split].
  - intros t [q Hq]. by rewrite ResMap_ApplyDiff_full, Hq.
  - intros t [q Hq] Hnd Hc Hg. rewrite ResMap_ApplyDiff_full, Hq by done. simpl. f_equal.
    unfold full_update_queue. rewrite Hc, Hg. cbn [foldl].
    by rewrite (foldl_Enqueue_NoDup [] _).
  - intros Hreg Hc Hg. unfold Coll.ApplyDiff. rewrite Hfull, Hc, Hg, map_to_list_empty.
    set (w0 := {| w_coll := Group.Clear <$> w_coll w; w_store := w_store w;
                  w_tested := w_tested w |}).
    destruct (each_type_add_rings now (map_to_list (New d)) (NoDup_fst_map_to_list _) w0)
      as (w' & Hrun & Hst & Hother & Hat).
    { intros k rs Hin. apply elem_of_map_to_list in Hin.
      destruct (Hreg k) as [h Hk]; [eauto|]. exists []. cbn [w0 w_coll].
      by rewrite lookup_fmap, Hk. }
    exists w'. rewrite Hrun. cbn [mbind option_bind]. unfold Coll.each_type. cbn [forM].
    cbn [mbind option_bind]. split; [done|]. split; [done|]. split.
    + intros t Hnone. rewrite Hother; [by rewrite <- lookup_fmap|].
      intros Hin. apply list_elem_of_fmap in Hin as ([k rs] & -> & Hin).
      apply elem_of_map_to_list in Hin. simpl in Hnone. congruence.
    + intros t h Ht.
      assert (w_coll w' !! t = Some (GroupHashring (add_all (w_store w) now [] (queue_of (New d) t))))
        as Hres.
      { unfold queue_of. destruct (New d !! t) as [rs|] eqn:Hnew; simpl.
        - apply (Hat t rs []); [by apply elem_of_map_to_list|].
          cbn [w0 w_coll]. by rewrite lookup_fmap, Ht.
        - rewrite Hother.
          + cbn [w0 w_coll]. by rewrite lookup_fmap, Ht.
          + intros Hin. apply list_elem_of_fmap in Hin as ([k rs] & -> & Hin).
            apply elem_of_map_to_list in Hin. simpl in Hnew. congruence. }
      exists (add_all (w_store w) now [] (queue_of (New d) t)). split; [done|].
      destruct (add_all_spec (w_store w) now (queue_of (New d) t) []) as (H1 & H2 & H3);
        [constructor|].
      split; [done|]. split.
      * intros k. rewrite H2. unfold has_key. rewrite fmap_nil, elem_of_nil. tauto.
      * intros x Hx. apply H3 in Hx as [Hx|Hx]; [|done]. by apply elem_of_nil in Hx.
Qed.

Lemma X25_full_update_existing_types_witness :
  let old := NewDummy 1 1 1 in
  let r := NewDummy 2 2 2 in
  let d := {| New := {[ "dummy" := [r] ]}; Changed := ∅; Gone := ∅; FullUpdate := true |} in
  let m : ResourceMap := {[ "dummy" := [old] ]} in
  ResMap.ApplyDiff d m !! "dummy" = Some (queue_of (New d) "dummy").
Proof.
  intros old r d m.
  refine (proj1 (proj2 (@X25_full_update_existing_types modRand d m 7
            {| w_coll := ∅; w_store := fun _ => passingTest; w_tested := [] |} eq_refl))
          "dummy" _ _ _ _).
  - by exists [old].
  - vm_compute. repeat constructor. intros Hin. by apply elem_of_nil in Hin.
  - reflexivity.
  - reflexivity.
Defined.

(** C5 at an input where the code departs from it, a type the receiver did
    not have: the full update lists an obfs4 bridge, the resource map that
    only knew "vanilla" ends up without any obfs4 entry, and a collection
    that has only a "vanilla" group panics. *)
Lemma C5_new_type_is_dropped :
  let old := NewDummy 1 1 1 in
  let r := NewDummy 2 2 2 in
  let d := {| New := {[ "obfs4" := [r] ]}; Changed := ∅; Gone := ∅; FullUpdate := true |} in
  let m : ResourceMap := {[ "vanilla" := [old] ]} in
  let w := {| w_coll := {[ "vanilla" := GroupHashring [mkHashnode 1 old 0] ]};
              w_store := fun _ => passingTest; w_tested := [] |} in
  New d !! "obfs4" = Some [r] /\
  ResMap.ApplyDiff d m !! "obfs4" = None /\
  ResMap.ApplyDiff d m <> New d /\
  @Coll.ApplyDiff modRand 7 d w = None.
Proof.
  cbv zeta. split; [reflexivity|]. split; [vm_compute; reflexivity|]. split.
  - intros Heq.
    assert (Hl : ResMap.ApplyDiff
              {| New := {[ "obfs4" := [NewDummy 2 2 2] ]}; Changed := ∅; Gone := ∅;
                 FullUpdate := true |} {[ "vanilla" := [NewDummy 1 1 1] ]} !! "obfs4" = None)
      by (vm_compute; reflexivity).
    rewrite Heq in Hl. vm_compute in Hl. discriminate.
  - vm_compute. reflexivity.
Qed.

(** The sibling paths at the same input: the same diff applied as an
    incremental one adds the new type to the resource map, and
    [Collection.Add] of the same resource returns an error instead of
    panicking. *)
Lemma new_type_sibling_paths :
  let old := NewDummy 1 1 1 in
  let r := NewDummy 2 2 2 in
  let d := {| New := {[ "obfs4" := [r] ]}; Changed := ∅; Gone := ∅; FullUpdate := false |} in
  let m : ResourceMap := {[ "vanilla" := [old] ]} in
  let c : Collection := {[ "vanilla" := GroupHashring [mkHashnode 1 old 0] ]} in
  ResMap.ApplyDiff d m !! "obfs4" = Some [r] /\
  @Coll.Add modRand (fun _ => passingTest) 7 r c
    = Some (c, Some (ErrNoResourceType (RType r)), []).
Proof. cbv zeta. split; vm_compute; reflexivity. Qed.

(** * Further properties of the hashring *)

Lemma NoDup_keys_same_node (h : Hashring) a b :
  NoDup (hashkey <$> h) -> a ∈ h -> b ∈ h -> hashkey a = hashkey b -> a = b.
Proof.
  intros Hnd Ha Hb Hk.
  apply list_elem_of_lookup_1 in Ha as [i Hi]. apply list_elem_of_lookup_1 in Hb as [j Hj].
  assert (i = j) as ->; [|congruence].
  apply (NoDup_lookup (hashkey <$> h) i j (hashkey a) Hnd).
  - by rewrite list_lookup_fmap, Hi.
  - rewrite list_lookup_fmap, Hj. simpl. by rewrite Hk.
Qed.

Lemma delete_keys (h : Hashring) i n :
  ring_ok h -> h !! i = Some n ->
  forall k, has_key (take i h ++ drop (S i) h) k <-> has_key h k /\ k <> hashkey n.
Proof.
  intros Hs Hn k. pose proof (ring_ok_NoDup h Hs) as Hnd.
  rewrite <- (take_drop_middle h i n Hn) in Hnd at 1.
  unfold has_key. rewrite <- (take_drop_middle h i n Hn) at 3.
  rewrite !fmap_app, fmap_cons in *. rewrite !elem_of_app, elem_of_cons.
  apply NoDup_app in Hnd as (_ & Hdisj & Hnd2). apply NoDup_cons in Hnd2 as [Hnot _].
  split.
  - intros [Hk|Hk].
    + split; [auto|]. intros ->. apply (Hdisj _ Hk). by left.
    + split; [auto|]. intros ->. by apply Hnot.
  - intros [[Hk|[->|Hk]] Hne]; auto. done.
Qed.

(** X1: Remove of a resource whose UID is in a sorted ring takes out exactly
    the node with that hashkey and returns no error: the UID is gone, every
    other hashkey stays and the order is kept; Remove of a UID that is not
    there changes nothing and returns "hashring is empty" for an empty ring,
    "could not find key" otherwise. *)
Theorem X1_Remove_exact (r : Resource) (h : Hashring) :
  ring_ok h ->
  (forall i n, h !! i = Some n -> hashkey n = Uid r ->
     Remove r h = (take i h ++ drop (S i) h, None) /\
     ring_ok (Remove r h).1 /\
     ~ has_key (Remove r h).1 (Uid r) /\
     (forall k, k <> Uid r -> (has_key (Remove r h).1 k <-> has_key h k))) /\
  (~ has_key h (Uid r) ->
     Remove r h = (h, Some (match h with [] => ErrHashringEmpty | _ => ErrKeyNotFound end))).
Proof.
  intros Hs. split.
  - intros i n Hn Hk.
    assert (Heq : Remove r h = (take i h ++ drop (S i) h, None)).
    { unfold Remove, remove. by rewrite (getIndex_found h (Uid r) i n Hs Hn Hk). }
    rewrite Heq. cbn [fst]. split; [done|]. split; [by apply ring_ok_delete|].
    split.
    + rewrite (delete_keys h i n Hs Hn). intros [_ Hne]. congruence.
    + intros k Hne. rewrite (delete_keys h i n Hs Hn). rewrite Hk. tauto.
  - intros Hno. unfold Remove, remove.
    destruct (getIndex h (Uid r)) as [i|i|] eqn:Hg.
    + by apply getIndex_not_found in Hg.
    + destruct h; [done|done].
    + by apply getIndex_empty_inv in Hg as ->.
Qed.

Definition ring259 : Hashring :=
  [mkHashnode 2 (NewDummy 1 2 2) 0; mkHashnode 5 (NewDummy 2 5 5) 0;
   mkHashnode 9 (NewDummy 3 9 9) 0].

Lemma ring259_ok : ring_ok ring259.
Proof. unfold ring259, ring_ok, node_lt. repeat constructor; simpl; lia. Qed.

Lemma X1_Remove_exact_witness :
  Remove (NewDummy 7 5 5) ring259 =
    ([mkHashnode 2 (NewDummy 1 2 2) 0; mkHashnode 9 (NewDummy 3 9 9) 0], None).
Proof.
  exact (proj1 (proj1 (X1_Remove_exact (NewDummy 7 5 5) ring259 ring259_ok)
                  1%nat (mkHashnode 5 (NewDummy 2 5 5) 0) eq_refl eq_refl)).
Defined.

Lemma Add_absent st now r (h : Hashring) :
  ring_ok h -> ~ has_key h (Uid r) ->
  exists l1 l2, h = l1 ++ l2 /\ ring_ok (l1 ++ NewHashnode now (Uid r) r :: l2) /\
    Add st now r h = (l1 ++ NewHashnode now (Uid r) r :: l2, None, [r]).
Proof.
  intros Hs Hno.
  destruct (sort_Sort_insert h (NewHashnode now (Uid r) r) Hs Hno) as (l1 & l2 & H1 & H2 & H3).
  exists l1, l2. split; [done|]. split; [done|].
  unfold Add. rewrite maybeTestResource_absent by done.
  destruct (getIndex h (Uid r)) as [i|i|] eqn:Hg.
  - by apply getIndex_not_found in Hg.
  - by rewrite H2.
  - by rewrite H2.
Qed.

(** X2: on a sorted ring, adding a resource whose UID is new and removing it
    again gives back the ring as it was, node for node, and neither call
    reports an error. *)
Theorem X2_Add_Remove_roundtrip st now (r : Resource) (h : Hashring) :
  ring_ok h -> ~ has_key h (Uid r) ->
  (Add st now r h).1.2 = None /\
  Remove r (Add st now r h).1.1 = (h, None).
Proof.
  intros Hs Hno. destruct (Add_absent st now r h Hs Hno) as (l1 & l2 & -> & Hok & ->).
  cbn [fst snd]. split; [done|].
  unfold Remove, remove.
  rewrite (getIndex_found _ (Uid r) (length l1) (NewHashnode now (Uid r) r) Hok).
  - f_equal. rewrite take_app_length.
    replace (S (length l1)) with (length (l1 ++ [NewHashnode now (Uid r) r])).
    + rewrite (cons_middle _ l1 l2), app_assoc. by rewrite drop_app_length.
    + rewrite length_app. simpl. lia.
  - by rewrite list_lookup_middle.
  - done.
Qed.

Lemma X2_Add_Remove_roundtrip_witness :
  Remove (NewDummy 7 6 6) (Add (fun _ => passingTest) 3 (NewDummy 7 6 6) ring259).1.1
  = (ring259, None).
Proof.
  refine (proj2 (X2_Add_Remove_roundtrip (fun _ => passingTest) 3 (NewDummy 7 6 6) ring259
                   ring259_ok _)).
  unfold has_key. vm_compute. intros Hin.
  repeat (apply elem_of_cons in Hin as [Hin|Hin]; [discriminate|]).
  by apply elem_of_nil in Hin.
Defined.

(** X3: on a sorted ring GetExact(k) returns a resource exactly when a node
    with hashkey [k] holds it; for a key that is not there it returns
    "hashring is empty" on an empty ring and "could not find key" otherwise. *)
Theorem X3_GetExact_iff (h : Hashring) (k : Hashkey) :
  ring_ok h ->
  (forall x, GetExact h k = Ok x <-> exists n, n ∈ h /\ hashkey n = k /\ elem n = x) /\
  (~ has_key h k ->
     GetExact h k = Err (match h with [] => ErrHashringEmpty | _ => ErrKeyNotFound end)).
Proof.
  intros Hs. split.
  - intros x. split.
    + unfold GetExact. destruct (getIndex h k) as [i|i|] eqn:Hg; [|done..].
      destruct (getIndex_found_inv _ _ _ Hg) as (n & Hn & Hk). rewrite Hn.
      intros [= <-]. exists n. split; [|done]. eapply list_elem_of_lookup_2; eauto.
    + intros (n & Hin & Hk & Hx). apply list_elem_of_lookup_1 in Hin as [i Hi].
      unfold GetExact. rewrite (getIndex_found h k i n Hs Hi Hk), Hi. by rewrite Hx.
  - intros Hno. unfold GetExact. destruct (getIndex h k) as [i|i|] eqn:Hg.
    + by apply getIndex_not_found in Hg.
    + by destruct h.
    + by apply getIndex_empty_inv in Hg as ->.
Qed.

Lemma X3_GetExact_iff_witness : GetExact ring259 4 = Err ErrKeyNotFound.
Proof.
  refine (proj2 (X3_GetExact_iff ring259 4 ring259_ok) _).
  unfold has_key. vm_compute. intros Hin.
  repeat (apply elem_of_cons in Hin as [Hin|Hin]; [discriminate|]).
  by apply elem_of_nil in Hin.
Defined.

(** X4: Get never fails on a non-empty sorted ring: it returns the resource
    at the first hashkey [>= k] and wraps to the first node when every
    hashkey is smaller; a key that is in the ring yields its own resource.
    On the empty ring it returns "hashring is empty". *)
Theorem X4_Get_nearest (h : Hashring) (k : Hashkey) :
  ring_ok h ->
  (h <> [] -> exists i n, start_index h k i /\ h !! i = Some n /\ Get h k = Ok (elem n)) /\
  (forall n, n ∈ h -> hashkey n = k -> Get h k = Ok (elem n)) /\
  Get [] k = Err ErrHashringEmpty.
Proof.
  intros Hs. split; [|split; [|done]].
  - intros Hne. destruct (getIndex_start h k Hs Hne) as (i & Hg & Hi & Hstart).
    destruct (lookup_lt_is_Some_2 h i Hi) as [n Hn]. exists i, n.
    split; [done|]. split; [done|]. unfold Get. by destruct Hg as [-> | ->]; rewrite Hn.
  - intros n Hin Hk. apply list_elem_of_lookup_1 in Hin as [i Hi].
    unfold Get. by rewrite (getIndex_found h k i n Hs Hi Hk), Hi.
Qed.

Lemma X4_Get_nearest_witness :
  exists i n, start_index ring259 10 i /\ ring259 !! i = Some n /\
              Get ring259 10 = Ok (elem n).
Proof.
  refine (proj1 (X4_Get_nearest ring259 10 ring259_ok) _). discriminate.
Defined.

(** X5: what a read sees after an insertion into a sorted ring.  After Add,
    GetExact of the UID returns the resource that was stored first (Add never
    overwrites); after AddOrUpdate it returns the stored resource when the
    OID is the same and the new one when the OID differs; for a UID that was
    not there both return the resource just inserted. *)
Theorem X5_insert_then_GetExact st now (r : Resource) (h : Hashring) :
  ring_ok h ->
  (forall i n, h !! i = Some n -> hashkey n = Uid r ->
     GetExact (Add st now r h).1.1 (Uid r) = Ok (elem n) /\
     GetExact (AddOrUpdate st now r h).1.1.1 (Uid r) =
       Ok (if Oid (elem n) =? Oid r then elem n else r)) /\
  (~ has_key h (Uid r) ->
     GetExact (Add st now r h).1.1 (Uid r) = Ok r /\
     GetExact (AddOrUpdate st now r h).1.1.1 (Uid r) = Ok r).
Proof.
  intros Hs. split.
  - intros i n Hn Hk. split.
    + rewrite (Add_present st now r h i n Hs Hn Hk). cbn [fst].
      assert (Hl : <[i := touch now n]> h !! i = Some (touch now n)).
      { apply list_lookup_insert_eq. by eapply lookup_lt_Some. }
      unfold GetExact. rewrite (getIndex_found _ (Uid r) i (touch now n)); [by rewrite Hl | | done | done].
      eapply ring_ok_of_keys; [|exact Hs]. by eapply insert_same_key_keys.
    + pose proof (AddOrUpdate_ring_ok st now r h Hs) as Hok. revert Hok.
      unfold AddOrUpdate. rewrite (getIndex_found h (Uid r) i n Hs Hn Hk), Hn.
      set (e := if negb (Oid (elem n) =? Oid r) then r else elem n).
      set (n' := {| hashkey := hashkey n; elem := e; lastUpdate := now |}).
      assert (Hl : <[i := n']> h !! i = Some n').
      { apply list_lookup_insert_eq. by eapply lookup_lt_Some. }
      assert (He : e = if Oid (elem n) =? Oid r then elem n else r).
      { unfold e. by destruct (Oid (elem n) =? Oid r). }
      assert (Hget : ring_ok (<[i := n']> h) -> GetExact (<[i := n']> h) (Uid r) = Ok e).
      { intros Hok. unfold GetExact.
        by rewrite (getIndex_found _ (Uid r) i n' Hok Hl Hk), Hl. }
      rewrite <- He.
      repeat (match goal with |- context [if ?b then (_, _, _, _) else _] => destruct b end);
        cbn [fst]; exact Hget.
  - intros Hno. split.
    + destruct (Add_absent st now r h Hs Hno) as (l1 & l2 & _ & Hok & ->). cbn [fst].
      unfold GetExact.
      rewrite (getIndex_found _ (Uid r) (length l1) (NewHashnode now (Uid r) r) Hok);
        [by rewrite list_lookup_middle | by rewrite list_lookup_middle | done].
    + destruct (sort_Sort_insert h (NewHashnode now (Uid r) r) Hs Hno) as (l1 & l2 & _ & Hsort & Hok).
      assert (Hring : (AddOrUpdate st now r h).1.1.1 = l1 ++ NewHashnode now (Uid r) r :: l2).
      { unfold AddOrUpdate. destruct (getIndex h (Uid r)) as [i|i|] eqn:Hg.
        - by apply getIndex_not_found in Hg.
        - done.
        - done. }
      rewrite Hring. unfold GetExact.
      rewrite (getIndex_found _ (Uid r) (length l1) (NewHashnode now (Uid r) r) Hok);
        [by rewrite list_lookup_middle | by rewrite list_lookup_middle | done].
Qed.

Lemma X5_insert_then_GetExact_witness :
  GetExact (AddOrUpdate (fun _ => passingTest) 4 (NewDummy 7 6 5) ring259).1.1.1 5
  = Ok (NewDummy 7 6 5).
Proof.
  exact (proj2 (proj1 (X5_insert_then_GetExact (fun _ => passingTest) 4 (NewDummy 7 6 5)
                         ring259 ring259_ok)
                  1%nat (mkHashnode 5 (NewDummy 2 5 5) 0) eq_refl eq_refl)).
Defined.

(** ** GetManyFiltered (src/unnamed/part_015) *)

(** The loop [for j := i; j < num+i+skipped && skipped < h.Len(); j++].
    Every round either appends (and uses up one of the [num] places) or
    skips (and uses up one of the [h.Len()] skips), so
    [num + h.Len()] rounds of fuel are never used up
    ([GetManyFiltered_loop_fuel]). *)
Fixpoint GetManyFiltered_loop (fuel : nat) (h : Hashring) (f : FilterFunc) (num : Z)
  (i j skipped : nat) (resources : list Resource) : list Resource :=
  match fuel with
  | O => resources
  | S fuel' =>
      if (Z.of_nat j <? num + Z.of_nat i + Z.of_nat skipped) && (skipped <? length h)%nat then
        match h !! (j mod length h)%nat with
        | Some n =>
            if f (elem n)
            then GetManyFiltered_loop fuel' h f num i (S j) skipped (resources ++ [elem n])
            else GetManyFiltered_loop fuel' h f num i (S j) (S skipped) resources
        | None => resources
        end
      else resources
  end.

Definition GetManyFiltered (h : Hashring) (k : Hashkey) (f : FilterFunc) (num : Z)
  : res (list Resource) :=
  if (length h =? 0)%nat then Err ErrHashringEmpty
  else
    let num := if Z.of_nat (length h) <=? num then Z.of_nat (length h) else num in
    match getIndex h k with
    | IndexEmpty => Err ErrHashringEmpty
    | IndexFound i | IndexNext i =>
        Ok (GetManyFiltered_loop (Z.to_nat num + length h) h f num i i 0 [])
    end.

(** The rounds the loop can still make. *)
Definition rounds_left (h : Hashring) (num : Z) (i j skipped : nat) : nat :=
  (Z.to_nat (num + Z.of_nat i + Z.of_nat skipped - Z.of_nat j) + (length h - skipped))%nat.

Lemma GetManyFiltered_loop_fuel (h : Hashring) f num i : forall fuel extra j skipped resources,
  (rounds_left h num i j skipped <= fuel)%nat ->
  GetManyFiltered_loop (fuel + extra) h f num i j skipped resources =
  GetManyFiltered_loop fuel h f num i j skipped resources.
Proof.
  unfold rounds_left.
  induction fuel as [|fuel IH]; intros extra j skipped resources Hfuel.
  - destruct extra as [|extra]; [done|]. cbn [Nat.add GetManyFiltered_loop].
    destruct (Z.ltb_spec (Z.of_nat j) (num + Z.of_nat i + Z.of_nat skipped)); [|done].
    destruct (Nat.ltb_spec skipped (length h)); cbn [andb]; [lia|done].
  - cbn [Nat.add GetManyFiltered_loop].
    destruct (Z.ltb_spec (Z.of_nat j) (num + Z.of_nat i + Z.of_nat skipped)); [|done].
    destruct (Nat.ltb_spec skipped (length h)); cbn [andb]; [|done].
    destruct (h !! (j mod length h)%nat) as [n|]; [|done].
    destruct (f (elem n)); apply IH; lia.
Qed.

Lemma GetManyFiltered_loop_inv (h : Hashring) f num i : forall fuel j skipped resources,
  Forall (fun x => f x = true /\ x ∈ GetAll h) resources ->
  Forall (fun x => f x = true /\ x ∈ GetAll h)
         (GetManyFiltered_loop fuel h f num i j skipped resources) /\
  (length (GetManyFiltered_loop fuel h f num i j skipped resources)
   <= length resources + Z.to_nat (num + Z.of_nat i + Z.of_nat skipped - Z.of_nat j))%nat.
Proof.
  induction fuel as [|fuel IH]; intros j skipped resources Hres; cbn [GetManyFiltered_loop].
  - split; [done|lia].
  - destruct (Z.ltb_spec (Z.of_nat j) (num + Z.of_nat i + Z.of_nat skipped));
      cbn [andb]; [|split; [done|lia]].
    destruct (Nat.ltb_spec skipped (length h)); [|split; [done|lia]].
    destruct (h !! (j mod length h)%nat) as [n|] eqn:Hn; [|split; [done|lia]].
    destruct (f (elem n)) eqn:Hf.
    + destruct (IH (S j) skipped (resources ++ [elem n])) as [H1 H2].
      { apply Forall_app. split; [done|]. constructor; [|constructor].
        split; [done|]. unfold GetAll. apply list_elem_of_fmap_2.
        eapply list_elem_of_lookup_2; eauto. }
      split; [done|]. rewrite length_app in H2. simpl in H2. lia.
    + destruct (IH (S j) (S skipped) resources Hres) as [H1 H2]. split; [done|]. lia.
Qed.

Lemma GetManyFiltered_loop_all (h : Hashring) f num i :
  h <> [] -> (forall x, x ∈ GetAll h -> f x = true) ->
  forall c fuel j resources,
  (c <= fuel)%nat -> Z.of_nat j + Z.of_nat c = Z.max num 0 + Z.of_nat i ->
  (num <= 0 -> c = 0%nat) ->
  GetManyFiltered_loop fuel h f num i j 0 resources =
    resources ++ omap (fun j => elem <$> h !! (j mod length h)%nat) (seq j c).
Proof.
  intros Hne Hall.
  assert (0 < length h)%nat as Hlen by (destruct h; [done | simpl; lia]).
  induction c as [|c IH]; intros fuel j resources Hfuel Hj Hnum.
  - rewrite app_nil_r. destruct fuel as [|fuel]; [done|]. cbn [GetManyFiltered_loop].
    destruct (Z.ltb_spec (Z.of_nat j) (num + Z.of_nat i + Z.of_nat 0)); [lia|done].
  - destruct fuel as [|fuel]; [lia|]. cbn [GetManyFiltered_loop seq omap list_omap].
    change (list_omap ?g ?l) with (omap g l).
    assert (0 < num) by (destruct (Z_le_gt_dec num 0) as [Hle|]; [specialize (Hnum Hle)|]; lia).
    destruct (Z.ltb_spec (Z.of_nat j) (num + Z.of_nat i + Z.of_nat 0)); [|lia].
    destruct (Nat.ltb_spec 0 (length h)); [|lia]. cbn [andb].
    destruct (lookup_lt_is_Some_2 h (j mod length h)%nat) as [n Hn].
    { apply Nat.mod_upper_bound. lia. }
    rewrite Hn. cbn [fmap option_fmap option_map].
    rewrite Hall.
    2:{ unfold GetAll. apply list_elem_of_fmap_2. eapply list_elem_of_lookup_2; eauto. }
    rewrite IH; [by rewrite <- app_assoc | lia | lia | lia].
Qed.

(** X6: on a non-empty sorted ring GetManyFiltered returns only resources of
    the ring that pass the filter, at most min(num, len) of them (none for a
    negative num), and the fuel of the loop is never exhausted; with a filter
    that accepts every resource of the ring it returns what GetMany
    returns. *)
Theorem X6_GetManyFiltered (h : Hashring) (k : Hashkey) (f : FilterFunc) (num : Z) :
  ring_ok h -> h <> [] ->
  exists i l,
    start_index h k i /\
    GetManyFiltered h k f num = Ok l /\
    (forall extra,
       l = GetManyFiltered_loop (Z.to_nat (Z.min num (Z.of_nat (length h))) + length h + extra)
             h f (Z.min num (Z.of_nat (length h))) i i 0 []) /\
    Forall (fun x => f x = true /\ x ∈ GetAll h) l /\
    (length l <= Z.to_nat (Z.min num (Z.of_nat (length h))))%nat /\
    ((forall x, x ∈ GetAll h -> f x = true) -> GetMany h k num = Ok l).
Proof.
  intros Hs Hne. destruct (getIndex_start h k Hs Hne) as (i & Hg & Hi & Hstart).
  set (n := Z.min num (Z.of_nat (length h))).
  assert (Hn : (if Z.of_nat (length h) <=? num then Z.of_nat (length h) else num) = n).
  { unfold n. destruct (Z.leb_spec (Z.of_nat (length h)) num); lia. }
  exists i, (GetManyFiltered_loop (Z.to_nat n + length h) h f n i i 0 []).
  assert (length h <> 0)%nat as Hlen by (destruct h; [done | simpl; lia]).
  split; [done|]. split; [|split; [|split; [|split]]].
  - unfold GetManyFiltered. destruct (Nat.eqb_spec (length h) 0); [done|].
    rewrite Hn. by destruct Hg as [-> | ->].
  - intros extra. symmetry. apply GetManyFiltered_loop_fuel. unfold rounds_left. lia.
  - by apply GetManyFiltered_loop_inv.
  - destruct (GetManyFiltered_loop_inv h f n i (Z.to_nat n + length h) i 0 []) as [_ Hl]; [done|].
    simpl in Hl. lia.
  - intros Hall. unfold GetMany. destruct (Nat.eqb_spec (length h) 0); [done|].
    rewrite Hn.
    rewrite (GetManyFiltered_loop_all h f n i Hne Hall (Z.to_nat n)); [|lia|lia|lia].
    by destruct Hg as [-> | ->].
Qed.

Lemma X6_GetManyFiltered_witness :
  exists i l,
    start_index ring259 6 i /\
    GetManyFiltered ring259 6 (fun x => negb (Uid x =? 9)) 2 = Ok l /\
    (forall extra,
       l = GetManyFiltered_loop (Z.to_nat (Z.min 2 (Z.of_nat (length ring259)))
                                 + length ring259 + extra)
             ring259 (fun x => negb (Uid x =? 9)) (Z.min 2 (Z.of_nat (length ring259))) i i 0 []) /\
    Forall (fun x => negb (Uid x =? 9) = true /\ x ∈ GetAll ring259) l /\
    (length l <= Z.to_nat (Z.min 2 (Z.of_nat (length ring259))))%nat /\
    ((forall x, x ∈ GetAll ring259 -> negb (Uid x =? 9) = true) -> GetMany ring259 6 2 = Ok l).
Proof.
  apply (X6_GetManyFiltered ring259 6 (fun x => negb (Uid x =? 9)) 2 ring259_ok).
  discriminate.
Defined.

(** ** When a test is started *)

(** X7: on a sorted ring maybeTestResource starts no test exactly when the
    ring already holds a node with the same UID and the same OID whose
    resource is Functional and Accepted and was tested less than its expiry
    ago; in every other case it starts one test: on the stored resource when
    UID and OID are the same, on the given resource otherwise. *)
Theorem X7_maybeTestResource_gate st now (r : Resource) (h : Hashring) :
  ring_ok h ->
  (maybeTestResource st now h r = [] <->
     exists n, n ∈ h /\ hashkey n = Uid r /\ Oid (elem n) = Oid r /\
       State (TestResult st (elem n)) = StateFunctional /\
       Speed (TestResult st (elem n)) = SpeedAccepted /\
       time_Sub now (LastTested (TestResult st (elem n))) < Expiry (elem n)) /\
  (maybeTestResource st now h r <> [] ->
     (exists n, n ∈ h /\ hashkey n = Uid r /\ Oid (elem n) = Oid r /\
                maybeTestResource st now h r = [elem n]) \/
     ((forall n, n ∈ h -> hashkey n = Uid r -> Oid (elem n) <> Oid r) /\
      maybeTestResource st now h r = [r])).
Proof.
  intros Hs.
  assert (Hcase :
    (exists i n, h !! i = Some n /\ hashkey n = Uid r /\
       maybeTestResource st now h r =
         if Oid (elem n) =? Oid r then
           if negb (isStateUntested (State (TestResult st (elem n))))
              && negb (isSpeedUntested (Speed (TestResult st (elem n))))
              && (time_Sub now (LastTested (TestResult st (elem n))) <? Expiry (elem n))
              && (isFunctional (State (TestResult st (elem n)))
                  && isAccepted (Speed (TestResult st (elem n))))
           then [] else [elem n]
         else [r]) \/
    (~ has_key h (Uid r) /\ maybeTestResource st now h r = [r])).
  { destruct (decide (Uid r ∈ hashkey <$> h)) as [Hk|Hno].
    - left. apply list_elem_of_fmap in Hk as (n & Hk & Hin).
      apply list_elem_of_lookup_1 in Hin as [i Hi]. exists i, n.
      split; [done|]. split; [done|]. unfold maybeTestResource.
      by rewrite (getIndex_found h (Uid r) i n Hs Hi (eq_sym Hk)), Hi.
    - right. split; [done|]. by apply maybeTestResource_absent. }
  assert (Huniq : forall i n m, h !! i = Some n -> hashkey n = Uid r -> m ∈ h ->
                                hashkey m = Uid r -> m = n).
  { intros i n m Hn Hk Hm Hkm. apply (NoDup_keys_same_node h); [by apply ring_ok_NoDup|done| |congruence].
    eapply list_elem_of_lookup_2; eauto. }
  split; [split|].
  - intros Hnil. destruct Hcase as [(i & n & Hn & Hk & Heq)|[_ Heq]]; [|congruence].
    rewrite Heq in Hnil. exists n. split; [eapply list_elem_of_lookup_2; eauto|]. split; [done|].
    destruct (Z.eqb_spec (Oid (elem n)) (Oid r)); [|done]. split; [done|].
    destruct (State (TestResult st (elem n))), (Speed (TestResult st (elem n)));
      simpl in Hnil; try discriminate Hnil;
      try (rewrite andb_false_r in Hnil; discriminate Hnil).
    destruct (Z.ltb_spec (time_Sub now (LastTested (TestResult st (elem n)))) (Expiry (elem n)));
      [by repeat split | discriminate Hnil].
  - intros (m & Hm & Hkm & Hoid & Hst & Hsp & Hlt).
    destruct Hcase as [(i & n & Hn & Hk & Heq)|[Hno _]].
    + rewrite (Huniq i n m Hn Hk Hm Hkm) in *. rewrite Heq, Hoid, Z.eqb_refl, Hst, Hsp. simpl.
      by destruct (Z.ltb_spec (time_Sub now (LastTested (TestResult st (elem n)))) (Expiry (elem n)));
        [|lia].
    + exfalso. apply Hno. unfold has_key. rewrite <- Hkm. by apply list_elem_of_fmap_2.
  - intros Hne. destruct Hcase as [(i & n & Hn & Hk & Heq)|[Hno Heq]].
    + destruct (Z.eqb_spec (Oid (elem n)) (Oid r)) as [Hoid|Hoid].
      * left. exists n. split; [eapply list_elem_of_lookup_2; eauto|]. split; [done|].
        split; [done|]. rewrite Heq in Hne |- *.
        by destruct (_ && _).
      * right. split; [|done]. intros m Hm Hkm. by rewrite (Huniq i n m Hn Hk Hm Hkm).
    + right. split; [|done]. intros m Hm Hkm. exfalso. apply Hno. unfold has_key.
      rewrite <- Hkm. by apply list_elem_of_fmap_2.
Qed.

Lemma X7_maybeTestResource_gate_witness :
  maybeTestResource (fun _ => passingTest) 7 ring259 (NewDummy 8 5 5) = [] <->
    exists n, n ∈ ring259 /\ hashkey n = 5 /\ Oid (elem n) = 5 /\
      State (TestResult (fun _ => passingTest) (elem n)) = StateFunctional /\
      Speed (TestResult (fun _ => passingTest) (elem n)) = SpeedAccepted /\
      time_Sub 7 (LastTested (TestResult (fun _ => passingTest) (elem n))) < Expiry (elem n).
Proof.
  exact (proj1 (X7_maybeTestResource_gate (fun _ => passingTest) 7 (NewDummy 8 5 5) ring259
                  ring259_ok)).
Defined.

(** ** What Prune does guarantee *)

Lemma remove_in_place_elems (arr : list hashnode) (n i : nat) x :
  x ∈ remove_in_place arr n i -> x ∈ arr.
Proof.
  unfold remove_in_place. rewrite !elem_of_app. intros [Hx|[Hx|Hx]].
  - by apply (subseteq_take i arr).
  - apply (subseteq_drop (S i) arr). by apply (subseteq_take (n - 1 - i) _).
  - by apply (subseteq_drop (n - 1) arr).
Qed.

(** What the loop of Prune keeps true of the backing array [arr], the length
    [n] of the slice and the resources collected so far. *)
Definition Prune_inv (now : time_Time) (h : Hashring) (arr : list hashnode) (n : nat)
  (pruned : list Resource) : Prop :=
  (n <= length arr)%nat /\
  ring_ok (take n arr) /\
  (forall x, x ∈ arr -> x ∈ h) /\
  (forall x, x ∈ h -> expired now x = false -> x ∈ take n arr) /\
  (forall r, r ∈ pruned ->
     exists x, x ∈ h /\ elem x = r /\ expired now x = true /\ x ∉ take n arr).

Lemma Prune_loop_inv now (h : Hashring) :
  ring_ok h -> keys_ok h ->
  forall idxs arr n pruned,
  Prune_inv now h arr n pruned ->
  Prune_inv now h (Prune_loop now idxs arr n pruned).1.1 (Prune_loop now idxs arr n pruned).1.2
            (Prune_loop now idxs arr n pruned).2.
Proof.
  intros Hs Hkeys. induction idxs as [|idx idxs IH]; intros arr n pruned Hinv; [done|].
  cbn [Prune_loop]. destruct (arr !! idx) as [node|] eqn:Hnode; [|done].
  destruct (expired now node) eqn:Hexp; [|by apply IH].
  destruct Hinv as (Hn & Hok & Hsub & Hkeep & Hpr).
  assert (Hnodeh : node ∈ h) by (apply Hsub; eapply list_elem_of_lookup_2; eauto).
  assert (Hkn : hashkey node = Uid (elem node)).
  { unfold keys_ok in Hkeys. rewrite Forall_forall in Hkeys. by apply Hkeys. }
  destruct (getIndex (take n arr) (Uid (elem node))) as [i|i|] eqn:Hg.
  - apply IH. destruct (getIndex_found_inv _ _ _ Hg) as (m & Hm & Hkm).
    assert (Hi : (i < n)%nat).
    { apply lookup_lt_Some in Hm. rewrite length_take in Hm. lia. }
    assert (Hmh : m ∈ h).
    { apply Hsub. apply (subseteq_take n arr). eapply list_elem_of_lookup_2; eauto. }
    assert (m = node) as ->.
    { apply (NoDup_keys_same_node h); [by apply ring_ok_NoDup|done|done|congruence]. }
    assert (Hslice : take (n - 1) (remove_in_place arr n i)
                     = take i (take n arr) ++ drop (S i) (take n arr)).
    { apply remove_in_place_slice. lia. }
    assert (Hlen : length (remove_in_place arr n i) = length arr).
    { unfold remove_in_place. rewrite !length_app, !length_take, !length_drop. lia. }
    pose proof (delete_keys (take n arr) i node Hok Hm) as Hdel.
    assert (Hgone : node ∉ take i (take n arr) ++ drop (S i) (take n arr)).
    { intros Hin. assert (has_key (take i (take n arr) ++ drop (S i) (take n arr)) (hashkey node))
        as Hk by (by apply list_elem_of_fmap_2).
      apply Hdel in Hk as [_ Hne]. done. }
    assert (Hsubslice : forall x, x ∈ take i (take n arr) ++ drop (S i) (take n arr) ->
                                  x ∈ take n arr).
    { intros x. rewrite elem_of_app. intros [Hx|Hx].
      - by apply (subseteq_take i _).
      - by apply (subseteq_drop (S i) _). }
    split; [lia|]. rewrite Hslice. split; [by apply ring_ok_delete|].
    split; [intros x Hx; apply Hsub; by eapply remove_in_place_elems|]. split.
    + intros x Hx Hnexp. specialize (Hkeep x Hx Hnexp).
      rewrite <- (take_drop_middle (take n arr) i node Hm) in Hkeep.
      rewrite elem_of_app, elem_of_cons in Hkeep. rewrite elem_of_app.
      destruct Hkeep as [Hk|[->|Hk]]; [by left | congruence | by right].
    + intros r Hr. apply elem_of_app in Hr as [Hr|Hr].
      * destruct (Hpr r Hr) as (x & Hx & He & Hex & Hnot). exists x.
        repeat split; try done. intros Hin. apply Hnot. by apply Hsubslice.
      * apply list_elem_of_singleton in Hr as ->. exists node. by repeat split.
  - apply IH. split; [done|]. split; [done|]. split; [done|]. split; [done|].
    intros r Hr. apply elem_of_app in Hr as [Hr|Hr]; [by apply Hpr|].
    apply list_elem_of_singleton in Hr as ->. exists node. repeat split; try done.
    intros Hin. apply list_elem_of_lookup_1 in Hin as [j Hj].
    by rewrite (getIndex_found _ (Uid (elem node)) j node Hok Hj Hkn) in Hg.
  - apply IH. split; [done|]. split; [done|]. split; [done|]. split; [done|].
    intros r Hr. apply elem_of_app in Hr as [Hr|Hr]; [by apply Hpr|].
    apply list_elem_of_singleton in Hr as ->. exists node. repeat split; try done.
    intros Hin. apply list_elem_of_lookup_1 in Hin as [j Hj].
    by rewrite (getIndex_found _ (Uid (elem node)) j node Hok Hj Hkn) in Hg.
Qed.

(** X8: on a sorted ring whose nodes are filed under their resources' UIDs,
    Prune keeps the ring sorted, keeps every node that has not expired, adds
    nothing, and every resource it returns belongs to an expired node that is
    no longer in the ring; a ring without expired nodes is returned as it
    is, with no resource pruned. *)
Theorem X8_Prune_sound now (h : Hashring) :
  ring_ok h -> keys_ok h ->
  ring_ok (Prune now h).1 /\
  (forall x, x ∈ (Prune now h).1 -> x ∈ h) /\
  (forall x, x ∈ h -> expired now x = false -> x ∈ (Prune now h).1) /\
  (forall r, r ∈ (Prune now h).2 ->
     exists x, x ∈ h /\ elem x = r /\ expired now x = true /\ x ∉ (Prune now h).1) /\
  ((forall x, x ∈ h -> expired now x = false) -> Prune now h = (h, [])).
Proof.
  intros Hs Hkeys.
  assert (Hinit : Prune_inv now h h (length h) []).
  { unfold Prune_inv. rewrite firstn_all. split; [done|]. split; [done|]. split; [done|].
    split; [done|]. intros r Hr. by apply elem_of_nil in Hr. }
  pose proof (Prune_loop_inv now h Hs Hkeys (seq 0 (length h)) h (length h) [] Hinit) as Hfin.
  assert (Hprune : Prune now h =
    (take (Prune_loop now (seq 0 (length h)) h (length h) []).1.2
          (Prune_loop now (seq 0 (length h)) h (length h) []).1.1,
     (Prune_loop now (seq 0 (length h)) h (length h) []).2)).
  { unfold Prune. by destruct (Prune_loop now (seq 0 (length h)) h (length h) []) as [[arr n] pruned]. }
  destruct Hfin as (Hn & Hok & Hsub & Hkeep & Hpr).
  assert (Hin : forall x, x ∈ (Prune now h).1 -> x ∈ h).
  { rewrite Hprune. cbn [fst]. intros x Hx. apply Hsub. by apply (subseteq_take _ _) in Hx. }
  assert (Hkept : forall x, x ∈ h -> expired now x = false -> x ∈ (Prune now h).1).
  { rewrite Hprune. cbn [fst]. exact Hkeep. }
  assert (Hret : forall r, r ∈ (Prune now h).2 ->
     exists x, x ∈ h /\ elem x = r /\ expired now x = true /\ x ∉ (Prune now h).1).
  { rewrite Hprune. cbn [fst snd]. exact Hpr. }
  assert (Hok' : ring_ok (Prune now h).1) by (rewrite Hprune; exact Hok).
  split; [done|]. split; [done|]. split; [done|]. split; [done|].
  intros Hnone. destruct (Prune now h) as [h' pruned] eqn:HP. cbn [fst snd] in *. f_equal.
  - apply ring_ok_unique; [done|done|]. apply NoDup_Permutation.
    + eapply NoDup_fmap_1. by apply ring_ok_NoDup.
    + eapply NoDup_fmap_1. by apply ring_ok_NoDup.
    + intros x. split; [apply Hin | intros Hx; apply Hkept; auto].
  - destruct pruned as [|r pruned]; [done|].
    destruct (Hret r) as (x & Hx & _ & Hex & _); [by left|].
    rewrite (Hnone x Hx) in Hex. done.
Qed.

Lemma X8_Prune_sound_witness : ring_ok (Prune (hour + 5) ring259).1.
Proof.
  refine (proj1 (X8_Prune_sound (hour + 5) ring259 ring259_ok _)).
  unfold keys_ok, ring259. by repeat constructor.
Defined.

(** * Further properties of the stencil *)

Lemma chain_lookup (proportions : gmap string Z) : forall ks i j k,
  ks !! j = Some k ->
  chain proportions i ks !! j =
    Some (mkInterval (i + Zsum (weight proportions <$> take j ks))
                     (i + Zsum (weight proportions <$> take j ks) + weight proportions k - 1) k).
Proof.
  induction ks as [|k0 ks IH]; intros i j k Hj; [done|].
  destruct j as [|j].
  - injection Hj as ->. cbn [chain lookup list_lookup take fmap list_fmap Zsum foldr].
    by rewrite Z.add_0_r.
  - cbn [chain lookup list_lookup]. change (list_lookup j ?l) with (l !! j).
    rewrite (IH _ j k Hj). cbn [take fmap list_fmap Zsum foldr].
    change (list_fmap _ _ ?g ?l) with (g <$> l).
    fold (Zsum (weight proportions <$> take j ks)). do 2 f_equal; lia.
Qed.

Lemma chain_length (proportions : gmap string Z) ks i :
  length (chain proportions i ks) = length ks.
Proof. revert i. induction ks as [|k ks IH]; intros i; simpl; [done | by rewrite IH]. Qed.

Lemma chain_bounds (proportions : gmap string Z) ks :
  Forall (fun k => 0 < weight proportions k) ks ->
  forall i I, I ∈ chain proportions i ks ->
    i <= Begin I /\ Begin I <= End_ I /\
    End_ I <= i + Zsum (weight proportions <$> ks) - 1.
Proof.
  induction 1 as [|k ks Hk Hks IH]; intros i I HI; [by apply elem_of_nil in HI|].
  assert (0 <= Zsum (weight proportions <$> ks)).
  { apply Zsum_nonneg, Forall_fmap. eapply Forall_impl; [exact Hks|]. simpl. lia. }
  rewrite fmap_cons. cbn [chain Zsum foldr] in *. fold (Zsum (weight proportions <$> ks)).
  apply elem_of_cons in HI as [->|HI]; simpl; [lia|].
  destruct (IH _ _ HI) as (H1 & H2 & H3). lia.
Qed.

Lemma chain_disjoint (proportions : gmap string Z) ks :
  Forall (fun k => 0 < weight proportions k) ks ->
  forall i n I J, I ∈ chain proportions i ks -> J ∈ chain proportions i ks ->
    Contains I n = true -> Contains J n = true -> I = J.
Proof.
  induction 1 as [|k ks Hk Hks IH]; intros i n I J HI HJ HIn HJn;
    [by apply elem_of_nil in HI|].
  cbn [chain] in HI, HJ. unfold Contains in HIn, HJn.
  apply andb_true_iff in HIn as [HI1 HI2]. apply andb_true_iff in HJn as [HJ1 HJ2].
  apply Z.leb_le in HI1, HI2, HJ1, HJ2.
  apply elem_of_cons in HI as [->|HI]; apply elem_of_cons in HJ as [->|HJ]; simpl in *.
  - done.
  - destruct (chain_bounds proportions ks Hks _ _ HJ) as (H1 & _). lia.
  - destruct (chain_bounds proportions ks Hks _ _ HI) as (H1 & _). lia.
  - apply (IH (i + weight proportions k) n); try done;
      unfold Contains; apply andb_true_iff; split; by apply Z.leb_le.
Qed.

(** X9: for positive weights whose sum fits an [int], buildStencil yields one
    interval per partition name, the one of [name] being
    [[below, below + weight - 1]] with [below] the weight of the names before
    it in lexicographic order; no value lies in two intervals, and the values
    that lie in one are exactly [0 .. total weight - 1]. *)
Theorem X9_buildStencil_partition (proportions : gmap string Z) :
  (forall k w, proportions !! k = Some w -> 0 < w) ->
  total_weight proportions < 2 ^ 63 ->
  length (buildStencil proportions) = size proportions /\
  (forall name w, proportions !! name = Some w ->
     mkInterval (weight_below proportions name) (weight_below proportions name + w - 1) name
       ∈ buildStencil proportions) /\
  (forall I, I ∈ buildStencil proportions ->
     exists w, proportions !! Name I = Some w /\
       Begin I = weight_below proportions (Name I) /\ End_ I = Begin I + w - 1) /\
  (forall n I J, I ∈ buildStencil proportions -> J ∈ buildStencil proportions ->
     Contains I n = true -> Contains J n = true -> I = J) /\
  (forall n, is_Some (FindByValue (buildStencil proportions) n) <->
             0 <= n < total_weight proportions).
Proof.
  intros Hpos Hsum. rewrite (buildStencil_chain proportions Hpos Hsum).
  set (ks := sort_Strings (map_keys proportions)).
  pose proof (sorted_keys_weights proportions Hpos) as Hw. fold ks in Hw.
  assert (Hbelow : forall j k, ks !! j = Some k ->
            Zsum (weight proportions <$> take j ks) = weight_below proportions k).
  { intros j k Hj. rewrite <- (filter_below_take ks j k (sort_Strings_sorted _)); [| |done].
    - unfold weight_below. apply Zsum_Permutation. unfold ks. by rewrite sort_Strings_Permutation.
    - unfold ks. rewrite sort_Strings_Permutation. apply NoDup_map_keys. }
  assert (Hkey : forall k, k ∈ ks <-> is_Some (proportions !! k)).
  { intros k. unfold ks. rewrite sort_Strings_Permutation. apply elem_of_map_keys. }
  split; [|split; [|split; [|split]]].
  - rewrite chain_length. unfold ks, sort_Strings, map_keys.
    rewrite merge_sort_Permutation, length_fmap. apply length_map_to_list.
  - intros name w Hname.
    assert (name ∈ ks) as Hin by (apply Hkey; eauto).
    apply list_elem_of_lookup_1 in Hin as [j Hj].
    pose proof (chain_lookup proportions ks 0 j name Hj) as Hl.
    rewrite (Hbelow j name Hj), !Z.add_0_l in Hl.
    assert (weight proportions name = w) as Hwn by (unfold weight; by rewrite Hname).
    rewrite Hwn in Hl. eapply list_elem_of_lookup_2; eauto.
  - intros I HI. apply list_elem_of_lookup_1 in HI as [j Hj].
    destruct (lookup_lt_is_Some_2 ks j) as [k Hk].
    { apply lookup_lt_Some in Hj. by rewrite chain_length in Hj. }
    rewrite (chain_lookup proportions ks 0 j k Hk) in Hj. injection Hj as <-. simpl.
    rewrite (Hbelow j k Hk), !Z.add_0_l.
    assert (is_Some (proportions !! k)) as [w Hwk].
    { apply Hkey. eapply list_elem_of_lookup_2; eauto. }
    exists w. split; [done|]. split; [done|]. unfold weight. by rewrite Hwk.
  - intros n I J. by apply chain_disjoint.
  - intros n. split.
    + intros [I HI]. unfold FindByValue in HI.
      destruct (list_find _ (chain proportions 0 ks)) as [[j x]|] eqn:Hlf; [|done].
      simpl in HI. injection HI as ->. apply list_find_Some in Hlf as (Hj & Hc & _).
      destruct (chain_bounds proportions ks Hw 0 I) as (H1 & H2 & H3).
      { eapply list_elem_of_lookup_2; eauto. }
      fold ks in H3. unfold ks in H3. rewrite (sorted_keys_total proportions) in H3.
      unfold Contains in Hc. apply andb_true_iff in Hc as [Hc1 Hc2].
      apply Z.leb_le in Hc1, Hc2. lia.
    + intros Hn. destruct (FindByValue_buildStencil proportions Hpos Hsum n Hn)
        as (name & w & _ & _ & Hfind).
      rewrite (buildStencil_chain proportions Hpos Hsum) in Hfind. fold ks in Hfind.
      rewrite Hfind. eauto.
Qed.

Lemma X9_buildStencil_partition_witness :
  is_Some (FindByValue (buildStencil {[ "foo" := 1; "bar" := 2 ]}) 2).
Proof.
  refine (proj2 (proj2 (proj2 (proj2 (proj2
            (X9_buildStencil_partition {[ "foo" := 1; "bar" := 2 ]} _ _)))) 2) _).
  - intros k w Hk.
    apply lookup_insert_Some in Hk as [[_ <-]|[_ Hk]]; [lia|].
    apply lookup_singleton_Some in Hk as [_ <-]. lia.
  - vm_compute. reflexivity.
  - vm_compute. split; [discriminate | reflexivity].
Defined.

(** * The partition table of a resource group *)

Lemma Prune_rings now (h : Hashring) :
  ring_ok h -> keys_ok h -> ring_ok (Prune now h).1 /\ keys_ok (Prune now h).1.
Proof.
  intros Hs Hkeys.
  assert (Hinit : Prune_inv now h h (length h) []).
  { unfold Prune_inv. rewrite firstn_all. split; [done|]. split; [done|]. split; [done|].
    split; [done|]. intros r Hr. by apply elem_of_nil in Hr. }
  pose proof (Prune_loop_inv now h Hs Hkeys (seq 0 (length h)) h (length h) [] Hinit) as Hfin.
  unfold Prune. destruct (Prune_loop now (seq 0 (length h)) h (length h) []) as [[arr n] pruned].
  destruct Hfin as (Hn & Hok & Hsub & _). cbn [fst snd] in *. split; [done|].
  unfold keys_ok in *. rewrite Forall_forall in *. intros x Hx.
  apply Hkeys, Hsub. by apply (subseteq_take n arr).
Qed.

(** A table is in order for the proportions it was built from when its
    stencil is theirs, every name of theirs has a partition, and every
    partition is a sorted ring filed under UIDs. *)
Definition partitions_ok (proportions : gmap string Z) (p : partitionedHashring) : Prop :=
  stencil_ p = buildStencil proportions /\
  (forall name, is_Some (proportions !! name) -> is_Some (partitions p !! name)) /\
  (forall name h, partitions p !! name = Some h -> ring_ok h /\ keys_ok h).

Definition group_ok (proportions : gmap string Z) (g : ResourceGroup) : Prop :=
  match g with
  | GroupHashring h => ring_ok h /\ keys_ok h
  | GroupPartitioned p => partitions_ok proportions p
  | GroupWithDistributors p => partitions_ok proportions p /\ is_Some (partitions p !! "none")
  end.

Lemma relatedPartition_exists (p : partitionedHashring) (ids : list string) :
  Partitioned.relatedPartition p ids <> "" ->
  is_Some (partitions p !! Partitioned.relatedPartition p ids).
Proof.
  unfold Partitioned.relatedPartition.
  set (pick := fun partitionName id =>
         match relations p !! id with
         | Some name => if decide (is_Some (partitions p !! name)) then name else partitionName
         | None => partitionName
         end).
  assert (Hgen : forall acc, (acc <> "" -> is_Some (partitions p !! acc)) ->
            foldl pick acc ids <> "" -> is_Some (partitions p !! foldl pick acc ids)).
  { induction ids as [|id ids IH]; intros acc Hacc; [done|].
    cbn [foldl]. apply IH. unfold pick. destruct (relations p !! id) as [nm|]; [|done].
    destruct (decide (is_Some (partitions p !! nm))); done. }
  by apply Hgen.
Qed.

Lemma with_partition_ok proportions name h (p : partitionedHashring) :
  partitions_ok proportions p -> ring_ok h -> keys_ok h ->
  partitions_ok proportions (with_partition name h p).
Proof.
  intros (Hst & Hnames & Hrings) Hs Hk. split; [done|]. split.
  - intros nm Hnm. cbn [partitions with_partition].
    apply lookup_insert_is_Some'. right. by apply Hnames.
  - intros nm h'. cbn [partitions with_partition]. intros Hl.
    apply lookup_insert_Some in Hl as [[_ <-]|[_ Hl]]; [done | by eapply Hrings].
Qed.

Lemma addRelationIdentifiers_ok proportions r name (p : partitionedHashring) :
  partitions_ok proportions p ->
  partitions_ok proportions (Partitioned.addRelationIdentifiers r name p).
Proof. by intros (Hst & Hnames & Hrings). Qed.

Lemma WD_addRelationIdentifiers_ok proportions r name (p : partitionedHashring) :
  partitions_ok proportions p ->
  partitions_ok proportions (WithDistributors.addRelationIdentifiers r name p).
Proof.
  intros Hok. unfold WithDistributors.addRelationIdentifiers.
  destruct (decide (name = "none")); [done | by apply addRelationIdentifiers_ok].
Qed.

Lemma WD_addRelationIdentifiers_partitions r name (p : partitionedHashring) :
  partitions (WithDistributors.addRelationIdentifiers r name p) = partitions p.
Proof. unfold WithDistributors.addRelationIdentifiers. by destruct (decide _). Qed.

Section PartitionTable.

Context `{MathRand}.
Variable proportions : gmap string Z.
Hypothesis Intn_ok : Intn_in_range.
Hypothesis weights_positive : forall k w, proportions !! k = Some w -> 0 < w.
Hypothesis some_partition : proportions <> ∅.
Hypothesis no_overflow : total_weight proportions < 2 ^ 63.

Lemma total_weight_pos : 0 < total_weight proportions.
Proof.
  rewrite <- (sorted_keys_total proportions). apply Zsum_pos.
  - intros Hnil. apply fmap_nil_inv in Hnil.
    apply some_partition, map_empty. intros k. destruct (proportions !! k) eqn:Hk; [|done].
    assert (k ∈ sort_Strings (map_keys proportions)) as Hin.
    { rewrite sort_Strings_Permutation. apply elem_of_map_keys. eauto. }
    rewrite Hnil in Hin. by apply elem_of_nil in Hin.
  - apply Forall_fmap, sorted_keys_weights, weights_positive.
Qed.

(** The stencil of the proportions always names one of them. *)
Lemma GetPartitionName_buildStencil (r : Resource) :
  exists name, is_Some (proportions !! name) /\
               GetPartitionName (buildStencil proportions) r = Some name.
Proof.
  pose proof total_weight_pos as Htot.
  unfold GetPartitionName.
  rewrite (GetUpperEnd_buildStencil proportions weights_positive no_overflow some_partition).
  replace (total_weight proportions - 1 + 1) with (total_weight proportions) by lia.
  rewrite wrap64_id by lia.
  destruct (Z.leb_spec (total_weight proportions) 0); [lia|].
  set (n := rand_Intn (int64_of_uint64 (Uid r)) (total_weight proportions)).
  assert (0 <= n < total_weight proportions) as Hn by (apply Intn_ok; lia).
  destruct (FindByValue_buildStencil proportions weights_positive no_overflow n Hn)
    as (name & w & Hw & _ & Hfind).
  exists name. rewrite Hfind. eauto.
Qed.

Lemma Partitioned_getPartitionName_ok (p : partitionedHashring) (r : Resource) :
  partitions_ok proportions p ->
  exists name h, Partitioned.getPartitionName p r = Some name /\
                 partitions p !! name = Some h.
Proof.
  intros (Hst & Hnames & _). unfold Partitioned.getPartitionName.
  destruct (decide (Partitioned.relatedPartition p (RelationIdentifiers r) = "")) as [He|Hne].
  - rewrite Hst. destruct (GetPartitionName_buildStencil r) as (name & Hname & ->).
    destruct (Hnames name Hname) as [h Hh]. eauto.
  - destruct (relatedPartition_exists p _ Hne) as [h Hh]. eauto.
Qed.

Lemma WD_getPartitionName_ok (p : partitionedHashring) (r : Resource) :
  partitions_ok proportions p -> is_Some (partitions p !! "none") ->
  exists name h, WithDistributors.getPartitionName p r = Some name /\
                 partitions p !! name = Some h.
Proof.
  intros Hok [hn Hnone]. unfold WithDistributors.getPartitionName.
  destruct (decide (Distributor r = "")); [by apply Partitioned_getPartitionName_ok|].
  destruct (decide (is_Some (partitions p !! Distributor r))) as [[h Hh]|]; eauto.
Qed.

Lemma group_methods_total st now (r : Resource) (g : ResourceGroup) :
  group_ok proportions g ->
  (exists x, Group.Add st now r g = Some x /\ group_ok proportions x.1.1) /\
  (exists x, Group.AddOrUpdate st now r g = Some x /\ group_ok proportions x.1.1.1) /\
  (exists x, Group.Remove r g = Some x /\ group_ok proportions x.1) /\
  group_ok proportions (Group.Clear g) /\
  group_ok proportions (Group.Prune now g).1.
Proof.
  intros Hg. destruct g as [h|p|p]; cbn [group_ok] in Hg.
  - destruct Hg as [Hs Hk]. split; [|split; [|split; [|split]]].
    + cbn [Group.Add]. pose proof (Add_ring_ok st now r h Hs). pose proof (Add_keys_ok st now r h Hk).
      destruct (Add st now r h) as [[h' err] tested]. by eexists.
    + cbn [Group.AddOrUpdate]. pose proof (AddOrUpdate_ring_ok st now r h Hs).
      pose proof (AddOrUpdate_keys_ok st now r h Hk).
      destruct (AddOrUpdate st now r h) as [[[h' st'] ev] tested]. by eexists.
    + cbn [Group.Remove]. pose proof (remove_ring_ok r h Hs). pose proof (remove_keys_ok r h Hk).
      unfold Remove. destruct (remove r h) as [h' err]. by eexists.
    + split; constructor.
    + cbn [Group.Prune]. pose proof (Prune_rings now h Hs Hk) as Hpr.
      by destruct (Prune now h).
  - pose proof Hg as (Hst & Hnames & Hrings).
    destruct (Partitioned_getPartitionName_ok p r Hg) as (name & h & Hname & Hh).
    destruct (Hrings name h Hh) as [Hs Hk]. split; [|split; [|split; [|split]]].
    + cbn [Group.Add]. unfold Partitioned.Add. rewrite Hname. cbn [mbind option_bind].
      cbn [partitions Partitioned.addRelationIdentifiers]. rewrite Hh. cbn [mbind option_bind].
      pose proof (Add_ring_ok st now r h Hs). pose proof (Add_keys_ok st now r h Hk).
      destruct (Add st now r h) as [[h' err] tested]. eexists. split; [done|].
      cbn [fst group_ok]. apply with_partition_ok; [by apply addRelationIdentifiers_ok|done..].
    + cbn [Group.AddOrUpdate]. unfold Partitioned.AddOrUpdate. rewrite Hname.
      cbn [mbind option_bind].
      cbn [partitions Partitioned.addRelationIdentifiers]. rewrite Hh. cbn [mbind option_bind].
      pose proof (AddOrUpdate_ring_ok st now r h Hs).
      pose proof (AddOrUpdate_keys_ok st now r h Hk).
      destruct (AddOrUpdate st now r h) as [[[h' st'] ev] tested]. eexists. split; [done|].
      cbn [fst group_ok]. apply with_partition_ok; [by apply addRelationIdentifiers_ok|done..].
    + cbn [Group.Remove]. unfold Partitioned.Remove. rewrite Hname. cbn [mbind option_bind].
      rewrite Hh. cbn [mbind option_bind].
      pose proof (remove_ring_ok r h Hs). pose proof (remove_keys_ok r h Hk).
      unfold Remove. destruct (remove r h) as [h' err]. eexists. split; [done|].
      cbn [fst group_ok]. by apply with_partition_ok.
    + cbn [Group.Clear group_ok]. split; [done|]. split.
      * intros nm Hnm. cbn [partitions Partitioned.Clear]. rewrite lookup_fmap.
        destruct (Hnames nm Hnm) as [x ->]. by eexists.
      * intros nm h0. cbn [partitions Partitioned.Clear]. rewrite lookup_fmap.
        destruct (partitions p !! nm); [|done]. intros [= <-]. split; constructor.
    + cbn [Group.Prune]. unfold Partitioned.Prune. cbn [fst group_ok]. split; [done|]. split.
      * intros nm Hnm. cbn [partitions]. rewrite lookup_fmap.
        destruct (Hnames nm Hnm) as [x ->]. by eexists.
      * intros nm h0. cbn [partitions]. rewrite lookup_fmap.
        destruct (partitions p !! nm) as [h1|] eqn:Hnm; [|done]. intros [= <-].
        destruct (Hrings nm h1 Hnm). by apply Prune_rings.
  - destruct Hg as [Hok [hn Hnone]]. pose proof Hok as (Hst & Hnames & Hrings).
    destruct (WD_getPartitionName_ok p r Hok) as (name & h & Hname & Hh); [by eexists|].
    destruct (Hrings name h Hh) as [Hs Hk]. split; [|split; [|split; [|split]]].
    + cbn [Group.Add]. unfold WithDistributors.Add. rewrite Hname. cbn [mbind option_bind].
      rewrite WD_addRelationIdentifiers_partitions, Hh. cbn [mbind option_bind].
      pose proof (Add_ring_ok st now r h Hs). pose proof (Add_keys_ok st now r h Hk).
      destruct (Add st now r h) as [[h' err] tested]. eexists. split; [done|].
      cbn [fst group_ok]. split.
      * apply with_partition_ok; [by apply WD_addRelationIdentifiers_ok|done..].
      * cbn [partitions with_partition]. rewrite WD_addRelationIdentifiers_partitions.
        apply lookup_insert_is_Some'. right. by eexists.
    + cbn [Group.AddOrUpdate]. unfold WithDistributors.AddOrUpdate. rewrite Hname.
      cbn [mbind option_bind].
      rewrite WD_addRelationIdentifiers_partitions, Hh. cbn [mbind option_bind].
      pose proof (AddOrUpdate_ring_ok st now r h Hs).
      pose proof (AddOrUpdate_keys_ok st now r h Hk).
      destruct (AddOrUpdate st now r h) as [[[h' st'] ev] tested]. eexists. split; [done|].
      cbn [fst group_ok]. split.
      * apply with_partition_ok; [by apply WD_addRelationIdentifiers_ok|done..].
      * cbn [partitions with_partition]. rewrite WD_addRelationIdentifiers_partitions.
        apply lookup_insert_is_Some'. right. by eexists.
    + cbn [Group.Remove]. unfold WithDistributors.Remove. rewrite Hname.
      cbn [mbind option_bind]. rewrite Hh. cbn [mbind option_bind].
      pose proof (remove_ring_ok r h Hs). pose proof (remove_keys_ok r h Hk).
      unfold Remove. destruct (remove r h) as [h' err]. eexists. split; [done|].
      cbn [fst group_ok]. split; [by apply with_partition_ok|].
      cbn [partitions with_partition]. apply lookup_insert_is_Some'. right. by eexists.
    + cbn [Group.Clear group_ok]. split; [split; [done|split]|].
      * intros nm Hnm. cbn [partitions Partitioned.Clear]. rewrite lookup_fmap.
        destruct (Hnames nm Hnm) as [x ->]. by eexists.
      * intros nm h0. cbn [partitions Partitioned.Clear]. rewrite lookup_fmap.
        destruct (partitions p !! nm); [|done]. intros [= <-]. split; constructor.
      * cbn [partitions Partitioned.Clear]. rewrite lookup_fmap, Hnone. by eexists.
    + cbn [Group.Prune]. unfold Partitioned.Prune. cbn [fst group_ok]. split; [split; [done|split]|].
      * intros nm Hnm. cbn [partitions]. rewrite lookup_fmap.
        destruct (Hnames nm Hnm) as [x ->]. by eexists.
      * intros nm h0. cbn [partitions]. rewrite lookup_fmap.
        destruct (partitions p !! nm) as [h1|] eqn:Hnm; [|done]. intros [= <-].
        destruct (Hrings nm h1 Hnm). by apply Prune_rings.
      * cbn [partitions]. rewrite lookup_fmap, Hnone. by eexists.
Qed.

End PartitionTable.

(** The loop of [getPartitionName] reads the relations and which partitions
    exist, nothing else. *)
Lemma relatedPartition_ext (p p' : partitionedHashring) (ids : list string) :
  (forall id, id ∈ ids -> relations p' !! id = relations p !! id) ->
  (forall nm, is_Some (partitions p' !! nm) <-> is_Some (partitions p !! nm)) ->
  Partitioned.relatedPartition p' ids = Partitioned.relatedPartition p ids.
Proof.
  intros Hrel Hpart. unfold Partitioned.relatedPartition. generalize "".
  induction ids as [|id ids IH]; intros acc; [done|].
  cbn [foldl]. rewrite (Hrel id) by (by left).
  assert (Hstep : forall nm,
            (if decide (is_Some (partitions p' !! nm)) then nm else acc)
            = (if decide (is_Some (partitions p !! nm)) then nm else acc)).
  { intros nm. destruct (decide (is_Some (partitions p' !! nm))) as [Hs|Hs];
      destruct (decide (is_Some (partitions p !! nm))) as [Hs'|Hs']; try done.
    - by apply Hpart in Hs.
    - by apply Hpart in Hs'. }
  destruct (relations p !! id) as [nm|].
  - rewrite Hstep. apply IH. intros id' Hin. apply Hrel. by right.
  - apply IH. intros id' Hin. apply Hrel. by right.
Qed.

Lemma with_partition_is_Some name h (p : partitionedHashring) nm :
  is_Some (partitions p !! name) ->
  is_Some (partitions (with_partition name h p) !! nm) <-> is_Some (partitions p !! nm).
Proof.
  intros Hname. cbn [partitions with_partition]. rewrite lookup_insert_is_Some'.
  split; [|tauto]. by intros [<-|?].
Qed.

(** Replacing the ring of an existing partition does not move a resource. *)
Lemma Partitioned_getPartitionName_frame `{MathRand} (p : partitionedHashring) r name h' :
  is_Some (partitions p !! name) ->
  Partitioned.getPartitionName (with_partition name h' p) r
  = Partitioned.getPartitionName p r.
Proof.
  intros Hname. unfold Partitioned.getPartitionName.
  rewrite (relatedPartition_ext p (with_partition name h' p)); [done|done|].
  intros nm. by apply with_partition_is_Some.
Qed.

(** Once a resource was filed under [name], its identifiers lead back to
    [name]. *)
Lemma Partitioned_getPartitionName_stable `{MathRand} (p : partitionedHashring) r name h' :
  Partitioned.getPartitionName p r = Some name ->
  is_Some (partitions p !! name) ->
  Partitioned.getPartitionName
    (with_partition name h' (Partitioned.addRelationIdentifiers r name p)) r = Some name.
Proof.
  intros Hget Hname.
  rewrite Partitioned_getPartitionName_frame by done.
  set (p1 := Partitioned.addRelationIdentifiers r name p).
  assert (Hrel1 : forall id, relations p1 !! id =
            if decide (id ∈ RelationIdentifiers r) then Some name else relations p !! id).
  { intros id. apply relations_fold_lookup. }
  unfold Partitioned.getPartitionName in *.
  destruct (RelationIdentifiers r) as [|id0 ids] eqn:Hids.
  - cbn [Partitioned.relatedPartition foldl] in *. exact Hget.
  - assert (Partitioned.relatedPartition p1 (id0 :: ids) = name) as ->.
    { apply (relatedPartition_shared p1 name (id0 :: ids)) with (s := id0).
      - intros id nm Hin Hl _. rewrite Hrel1, decide_True in Hl by done. congruence.
      - by left.
      - rewrite Hrel1, decide_True; [done | by left].
      - done. }
    destruct (decide (name = "")) as [->|Hne]; [|done].
    destruct (decide (Partitioned.relatedPartition p (id0 :: ids) = "")); [done|].
    congruence.
Qed.

Lemma WD_getPartitionName_stable `{MathRand} (p : partitionedHashring) r name h' :
  WithDistributors.getPartitionName p r = Some name ->
  is_Some (partitions p !! name) ->
  WithDistributors.getPartitionName
    (with_partition name h' (WithDistributors.addRelationIdentifiers r name p)) r = Some name.
Proof.
  intros Hget Hname. unfold WithDistributors.getPartitionName in *.
  destruct (decide (Distributor r = "")) as [Hd|Hd].
  - unfold WithDistributors.addRelationIdentifiers. destruct (decide (name = "none")).
    + by rewrite Partitioned_getPartitionName_frame.
    + by apply Partitioned_getPartitionName_stable.
  - assert (Hiff : is_Some (partitions (with_partition name h'
                      (WithDistributors.addRelationIdentifiers r name p)) !! Distributor r)
                   <-> is_Some (partitions p !! Distributor r)).
    { rewrite with_partition_is_Some; rewrite WD_addRelationIdentifiers_partitions; done. }
    destruct (decide (is_Some (partitions p !! Distributor r))) as [Hs|Hs].
    + rewrite decide_True; [done | by apply Hiff].
    + rewrite decide_False; [done | by rewrite Hiff].
Qed.

(** After AddOrUpdate the ring holds a resource with the UID and the OID of
    the one handed in. *)
Lemma AddOrUpdate_holds st now (r : Resource) (h : Hashring) :
  keys_ok h ->
  exists e, e ∈ GetAll (AddOrUpdate st now r h).1.1.1 /\ Uid e = Uid r /\ Oid e = Oid r.
Proof.
  intros Hkeys. unfold AddOrUpdate, GetAll.
  assert (Hnew : exists e, e ∈ elem <$> sort_Sort (h ++ [NewHashnode now (Uid r) r]) /\
                           Uid e = Uid r /\ Oid e = Oid r).
  { exists r. split; [|done]. unfold sort_Sort. rewrite merge_sort_Permutation.
    rewrite fmap_app, elem_of_app. right. by left. }
  destruct (getIndex h (Uid r)) as [i|i|] eqn:Hg; [|done..].
  destruct (getIndex_found_inv _ _ _ Hg) as (n & Hn & Hk). rewrite Hn.
  set (e := if negb (Oid (elem n) =? Oid r) then r else elem n).
  set (n' := {| hashkey := hashkey n; elem := e; lastUpdate := now |}).
  assert (He : e ∈ elem <$> <[i := n']> h).
  { apply (list_elem_of_fmap_2 elem _ n'). eapply list_elem_of_lookup_2.
    apply list_lookup_insert_eq. by eapply lookup_lt_Some. }
  assert (Hu : Uid e = Uid r /\ Oid e = Oid r).
  { unfold e. destruct (Z.eqb_spec (Oid (elem n)) (Oid r)) as [Ho|Ho]; cbn [negb]; [|done].
    split; [|done]. unfold keys_ok in Hkeys. rewrite Forall_forall in Hkeys.
    rewrite <- (Hkeys n); [done|]. eapply list_elem_of_lookup_2; eauto. }
  exists e.
  repeat (match goal with |- context [if ?b then (_, _, _, _) else _] => destruct b end);
    cbn [fst]; done.
Qed.

Section Owner.

Context `{MathRand}.
Variable proportions : gmap string Z.
Hypothesis Intn_ok : Intn_in_range.
Hypothesis weights_positive : forall k w, proportions !! k = Some w -> 0 < w.
Hypothesis some_partition : proportions <> ∅.
Hypothesis no_overflow : total_weight proportions < 2 ^ 63.

(** AddOrUpdate files the resource in the partition [getPartitionName] names
    before the call, and names again after it. *)
Lemma Group_AddOrUpdate_owner st now (r : Resource) (g : ResourceGroup) :
  group_ok proportions g ->
  exists name x h',
    Group.getPartitionName g r = Some name /\
    Group.AddOrUpdate st now r g = Some x /\
    Group.getPartitionName x.1.1.1 r = Some name /\
    Group.getHashring name x.1.1.1 = Some h' /\
    has_key h' (Uid r) /\
    (exists e, e ∈ GetAll h' /\ Uid e = Uid r /\ Oid e = Oid r).
Proof.
  intros Hg. destruct g as [h|p|p]; cbn [group_ok] in Hg.
  - exists "". cbn [Group.AddOrUpdate Group.getPartitionName].
    pose proof (AddOrUpdate_has_key st now r h) as Hk.
    pose proof (AddOrUpdate_holds st now r h (proj2 Hg)) as He.
    destruct (AddOrUpdate st now r h) as [[[h' st'] ev] tested]. by eexists _, h'.
  - destruct (Partitioned_getPartitionName_ok proportions Intn_ok weights_positive
                some_partition no_overflow p r Hg) as (name & h & Hname & Hh).
    exists name. cbn [Group.AddOrUpdate Group.getPartitionName].
    unfold Partitioned.AddOrUpdate. rewrite Hname. cbn [mbind option_bind].
    cbn [partitions Partitioned.addRelationIdentifiers]. rewrite Hh. cbn [mbind option_bind].
    pose proof (AddOrUpdate_has_key st now r h) as Hk.
    pose proof (AddOrUpdate_holds st now r h (proj2 (proj2 (proj2 Hg) name h Hh))) as He.
    destruct (AddOrUpdate st now r h) as [[[h' st'] ev] tested]. eexists _, h'.
    split; [done|]. split; [done|]. cbn [fst snd Group.getPartitionName Group.getHashring].
    split; [apply Partitioned_getPartitionName_stable; [done | by eexists]|].
    split; [|done]. unfold Partitioned.getHashring. cbn [partitions with_partition].
    apply lookup_insert_eq.
  - destruct Hg as [Hok Hnone].
    destruct (WD_getPartitionName_ok proportions Intn_ok weights_positive
                some_partition no_overflow p r Hok Hnone) as (name & h & Hname & Hh).
    exists name. cbn [Group.AddOrUpdate Group.getPartitionName].
    unfold WithDistributors.AddOrUpdate. rewrite Hname. cbn [mbind option_bind].
    rewrite WD_addRelationIdentifiers_partitions, Hh. cbn [mbind option_bind].
    pose proof (AddOrUpdate_has_key st now r h) as Hk.
    pose proof (AddOrUpdate_holds st now r h (proj2 (proj2 (proj2 Hok) name h Hh))) as He.
    destruct (AddOrUpdate st now r h) as [[[h' st'] ev] tested]. eexists _, h'.
    split; [done|]. split; [done|]. cbn [fst snd Group.getPartitionName Group.getHashring].
    split; [apply WD_getPartitionName_stable; [done | by eexists]|].
    split; [|done]. unfold Partitioned.getHashring. cbn [partitions with_partition].
    apply lookup_insert_eq.
Qed.

End Owner.

(** A small backend for concrete runs: one partitioned type ["dummy"] with the
    partitions ["https"] and ["moat"], and a recipient for ["moat"]. *)
Definition dummy_proportions : gmap string Z := {[ "https" := 1; "moat" := 5 ]}.

Definition dummy_group : ResourceGroup :=
  GroupWithDistributors
    (WithDistributors.newPartitionedWithDistributors (newPartitionedHashring dummy_proportions)).

Lemma dummy_proportions_positive k w : dummy_proportions !! k = Some w -> 0 < w.
Proof.
  unfold dummy_proportions. intros Hk.
  apply lookup_insert_Some in Hk as [[_ <-]|[_ Hk]]; [lia|].
  apply lookup_singleton_Some in Hk as [_ <-]. lia.
Qed.

Lemma dummy_proportions_nonempty : dummy_proportions <> ∅.
Proof. unfold dummy_proportions. apply insert_non_empty. Qed.

Lemma newPartitioned_ok (proportions : gmap string Z) :
  group_ok proportions (GroupPartitioned (newPartitionedHashring proportions)) /\
  group_ok proportions
    (GroupWithDistributors
       (WithDistributors.newPartitionedWithDistributors (newPartitionedHashring proportions))).
Proof.
  assert (Hnew : partitions_ok proportions (newPartitionedHashring proportions)).
  { split; [done|]. split.
    - intros name [w Hw]. cbn [partitions newPartitionedHashring].
      rewrite lookup_fmap, Hw. by eexists.
    - intros name h. cbn [partitions newPartitionedHashring]. rewrite lookup_fmap.
      destruct (proportions !! name); [|done]. intros [= <-]. split; constructor. }
  split; [done|]. split.
  - apply with_partition_ok; [done | constructor | constructor].
  - cbn [partitions with_partition WithDistributors.newPartitionedWithDistributors].
    rewrite lookup_insert_eq. by eexists.
Qed.

(** X10: a resource group whose stencil comes from non-empty positive
    proportions and which has a partition for each of their names (and the
    partition ["none"], where distributors are declared) never lacks the
    partition it picks: Add, AddOrUpdate and Remove return, and they, Clear
    and Prune leave a group of the same kind, every ring of it sorted and
    filed under UIDs.  The groups newPartitionedHashring and
    newPartitionedWithDistributors build are of that kind. *)
Theorem X10_group_never_lacks_partition `{MathRand} (proportions : gmap string Z)
    st now (r : Resource) (g : ResourceGroup) :
  Intn_in_range ->
  (forall k w, proportions !! k = Some w -> 0 < w) ->
  proportions <> ∅ ->
  total_weight proportions < 2 ^ 63 ->
  group_ok proportions g ->
  (exists x, Group.Add st now r g = Some x /\ group_ok proportions x.1.1) /\
  (exists x, Group.AddOrUpdate st now r g = Some x /\ group_ok proportions x.1.1.1) /\
  (exists x, Group.Remove r g = Some x /\ group_ok proportions x.1) /\
  group_ok proportions (Group.Clear g) /\
  group_ok proportions (Group.Prune now g).1 /\
  group_ok proportions (GroupPartitioned (newPartitionedHashring proportions)) /\
  group_ok proportions
    (GroupWithDistributors
       (WithDistributors.newPartitionedWithDistributors (newPartitionedHashring proportions))).
Proof.
  intros Hrange Hpos Hne Hsum Hg.
  destruct (group_methods_total proportions Hrange Hpos Hne Hsum st now r g Hg)
    as (H1 & H2 & H3 & H4 & H5).
  destruct (newPartitioned_ok proportions) as [H6 H7]. done.
Qed.

Lemma X10_group_never_lacks_partition_witness :
  exists x, @Group.Add modRand (fun _ => passingTest) 3 (NewDummy 1 1 9) dummy_group = Some x /\
            group_ok dummy_proportions x.1.1.
Proof.
  refine (proj1 (@X10_group_never_lacks_partition modRand dummy_proportions
                   (fun _ => passingTest) 3 (NewDummy 1 1 9) dummy_group
                   modRand_in_range dummy_proportions_positive dummy_proportions_nonempty _ _)).
  - vm_compute. reflexivity.
  - apply newPartitioned_ok.
Defined.

Lemma filter_split {A} (f : A -> bool) (l : list A) :
  filter (fun x => f x = true) l ++ filter (fun x => f x <> true) l ≡ₚ l.
Proof.
  induction l as [|a l IH]; [done|]. destruct (f a) eqn:Hfa.
  - rewrite filter_cons_True by done.
    rewrite (filter_cons_False (fun x => f x <> true)) by (rewrite Hfa; tauto).
    cbn [app]. by rewrite IH.
  - rewrite filter_cons_False by (by rewrite Hfa).
    rewrite (filter_cons_True (fun x => f x <> true)) by (by rewrite Hfa).
    rewrite <- Permutation_middle. by rewrite IH.
Qed.

(** What BackendResources.Add leaves behind for a type whose group is in
    order. *)
Lemma Backend_Add_outcome `{MathRand} (proportions : gmap string Z)
    st now (r : Resource) (ctx : BackendResources) (g : ResourceGroup) :
  Intn_in_range ->
  (forall k w, proportions !! k = Some w -> 0 < w) ->
  proportions <> ∅ ->
  total_weight proportions < 2 ^ 63 ->
  Collection_ ctx !! RType r = Some g ->
  group_ok proportions g ->
  exists name x h',
    Group.getPartitionName g r = Some name /\
    Group.AddOrUpdate st now r g = Some x /\
    Group.getHashring name x.1.1.1 = Some h' /\ has_key h' (Uid r) /\
    (exists e, e ∈ GetAll h' /\ Uid e = Uid r /\ Oid e = Oid r) /\
    Backend.Add st now r ctx =
      Some {| o_ctx := with_collection (<[RType r := x.1.1.1]> (Collection_ ctx)) ctx;
              o_store := x.1.1.2;
              o_tested := x.2;
              o_sent :=
                match Backend.event_diff r x.1.2, EventRecipients ctx !! name with
                | Some diff, Some eventRecipient =>
                    if HasResourceType (Request eventRecipient) (RType r)
                    then (fun c => (c, diff)) <$> EventChans eventRecipient
                    else []
                | _, _ => []
                end |}.
Proof.
  intros Hrange Hpos Hne Hsum Hg Hok.
  destruct (Group_AddOrUpdate_owner proportions Hrange Hpos Hne Hsum st now r g Hok)
    as (name & x & h' & Hname & Hx & Hname' & Hh' & Hk & He).
  exists name, x, h'. split; [done|]. split; [done|]. split; [done|]. split; [done|].
  split; [done|].
  unfold Backend.Add. rewrite Hg, Hx. cbn [mbind option_bind].
  assert (Hprop : Backend.propagateUpdate
            (with_collection (<[RType r := x.1.1.1]> (Collection_ ctx)) ctx) r x.1.2
          = Some match Backend.event_diff r x.1.2, EventRecipients ctx !! name with
                 | Some diff, Some eventRecipient =>
                     if HasResourceType (Request eventRecipient) (RType r)
                     then (fun c => (c, diff)) <$> EventChans eventRecipient
                     else []
                 | _, _ => []
                 end).
  { unfold Backend.propagateUpdate. cbn [Collection_ with_collection EventRecipients].
    rewrite lookup_insert_eq. destruct (Backend.event_diff r x.1.2) as [diff|]; [|done].
    rewrite Hname'. cbn [mbind option_bind].
    destruct (EventRecipients ctx !! name) as [er|]; [|done].
    by destruct (HasResourceType (Request er) (RType r)). }
  destruct (x.1.2) eqn:Hev.
  - cbn [mbind option_bind]. by cbn [Backend.event_diff].
  - rewrite Hprop. done.
  - rewrite Hprop. done.
  - rewrite Hprop. done.
Qed.

(** X11: BackendResources.Add of a resource whose type has a group in order
    files the resource in the ring of the partition [getPartitionName] names,
    and what it sends is decided by that name alone: nothing when the
    resource is unchanged, when no recipient is registered under the name,
    or when the recipient did not ask for the type; otherwise one diff,
    holding the resource alone under the heading of the event, to each of
    the recipient's channels in their order. *)
Theorem X11_Add_notifies_owner `{MathRand} (proportions : gmap string Z)
    st now (r : Resource) (ctx : BackendResources) (g : ResourceGroup) :
  Intn_in_range ->
  (forall k w, proportions !! k = Some w -> 0 < w) ->
  proportions <> ∅ ->
  total_weight proportions < 2 ^ 63 ->
  Collection_ ctx !! RType r = Some g ->
  group_ok proportions g ->
  exists name x h',
    Group.getPartitionName g r = Some name /\
    Group.AddOrUpdate st now r g = Some x /\
    Group.getHashring name x.1.1.1 = Some h' /\ has_key h' (Uid r) /\
    Backend.Add st now r ctx =
      Some {| o_ctx := with_collection (<[RType r := x.1.1.1]> (Collection_ ctx)) ctx;
              o_store := x.1.1.2;
              o_tested := x.2;
              o_sent :=
                match Backend.event_diff r x.1.2, EventRecipients ctx !! name with
                | Some diff, Some eventRecipient =>
                    if HasResourceType (Request eventRecipient) (RType r)
                    then (fun c => (c, diff)) <$> EventChans eventRecipient
                    else []
                | _, _ => []
                end |}.
Proof.
  intros Hrange Hpos Hne Hsum Hg Hok.
  destruct (Backend_Add_outcome proportions st now r ctx g Hrange Hpos Hne Hsum Hg Hok)
    as (name & x & h' & Hname & Hx & Hh' & Hk & _ & Hadd).
  by exists name, x, h'.
Qed.

(** X16: what BackendResources.Add has stored, BackendResources.Get hands
    out: for the partition the resource was filed in, the working and the
    not-working resources together are the resources of that partition's
    ring, and one of them has the UID and the OID of the resource added. *)
Theorem X16_Add_then_Get `{MathRand} (proportions : gmap string Z)
    st now (r : Resource) (ctx : BackendResources) (g : ResourceGroup) :
  Intn_in_range ->
  (forall k w, proportions !! k = Some w -> 0 < w) ->
  proportions <> ∅ ->
  total_weight proportions < 2 ^ 63 ->
  Collection_ ctx !! RType r = Some g ->
  group_ok proportions g ->
  exists name out h',
    Group.getPartitionName g r = Some name /\
    Backend.Add st now r ctx = Some out /\
    Coll.GetHashring name (RType r) (Collection_ (o_ctx out)) = Some h' /\
    (Backend.Get (o_store out) name (RType r) (o_ctx out)).1
      ++ (Backend.Get (o_store out) name (RType r) (o_ctx out)).2 ≡ₚ GetAll h' /\
    exists e,
      (e ∈ (Backend.Get (o_store out) name (RType r) (o_ctx out)).1 \/
       e ∈ (Backend.Get (o_store out) name (RType r) (o_ctx out)).2) /\
      Uid e = Uid r /\ Oid e = Oid r.
Proof.
  intros Hrange Hpos Hne Hsum Hg Hok.
  destruct (Backend_Add_outcome proportions st now r ctx g Hrange Hpos Hne Hsum Hg Hok)
    as (name & x & h' & Hname & Hx & Hh' & Hk & (e & He & Hu & Ho) & Hadd).
  eexists name, _, h'. split; [done|]. split; [exact Hadd|].
  cbn [o_ctx o_store].
  assert (Hring : Coll.GetHashring name (RType r)
            (Collection_ (with_collection (<[RType r := x.1.1.1]> (Collection_ ctx)) ctx))
          = Some h').
  { unfold Coll.GetHashring. cbn [Collection_ with_collection]. by rewrite lookup_insert_eq. }
  split; [done|]. unfold Backend.Get. rewrite Hring. cbn [fst snd].
  cbv zeta.
  match goal with |- context [filter (fun r0 => @?f r0 = true) (GetAll h')] =>
    pose proof (filter_split f (GetAll h')) as Hperm
  end.
  cbv beta in Hperm. split; [exact Hperm|]. exists e. split; [|done].
  rewrite <- elem_of_app. by rewrite Hperm.
Qed.

Definition dummy_backend : BackendResources :=
  {| Collection_ := {[ "dummy" := dummy_group ]};
     OnlyFunctional := false;
     UseBandwidthRatio := false;
     EventRecipients :=
       {[ "moat" := {| EventChans := [7%nat; 8%nat];
                       Request := {| RequestOrigin := "moat";
                                     ResourceTypes := ["dummy"] |} |} ]} |}.

Lemma X11_Add_notifies_owner_witness :
  exists name x h',
    @Group.getPartitionName modRand dummy_group (NewDummy 1 1 9) = Some name /\
    @Group.AddOrUpdate modRand (fun _ => passingTest) 3 (NewDummy 1 1 9) dummy_group = Some x /\
    Group.getHashring name x.1.1.1 = Some h' /\ has_key h' (Uid (NewDummy 1 1 9)) /\
    @Backend.Add modRand (fun _ => passingTest) 3 (NewDummy 1 1 9) dummy_backend =
      Some {| o_ctx := with_collection
                         (<[RType (NewDummy 1 1 9) := x.1.1.1]> (Collection_ dummy_backend))
                         dummy_backend;
              o_store := x.1.1.2;
              o_tested := x.2;
              o_sent :=
                match Backend.event_diff (NewDummy 1 1 9) x.1.2,
                      EventRecipients dummy_backend !! name with
                | Some diff, Some eventRecipient =>
                    if HasResourceType (Request eventRecipient) (RType (NewDummy 1 1 9))
                    then (fun c => (c, diff)) <$> EventChans eventRecipient
                    else []
                | _, _ => []
                end |}.
Proof.
  refine (@X11_Add_notifies_owner modRand dummy_proportions (fun _ => passingTest) 3
            (NewDummy 1 1 9) dummy_backend dummy_group
            modRand_in_range dummy_proportions_positive dummy_proportions_nonempty _ _ _).
  - vm_compute. reflexivity.
  - reflexivity.
  - apply newPartitioned_ok.
Defined.

(** * Registering and unregistering channels (the second part of
      src/pkg/core/domain.go) *)

Definition with_recipients (recipients : gmap string EventRecipient) (ctx : BackendResources)
  : BackendResources :=
  {| Collection_ := Collection_ ctx; OnlyFunctional := OnlyFunctional ctx;
     UseBandwidthRatio := UseBandwidthRatio ctx; EventRecipients := recipients |}.

(** [RegisterChan]. *)
Definition RegisterChan (req : ResourceRequest) (recipient : nat) (ctx : BackendResources)
  : BackendResources :=
  let distName := RequestOrigin req in
  match EventRecipients ctx !! distName with
  | None =>
      let er := {| EventChans := [recipient]; Request := req |} in
      with_recipients (<[distName := er]> (EventRecipients ctx)) ctx
  | Some er =>
      with_recipients
        (<[distName := {| EventChans := EventChans er ++ [recipient]; Request := Request er |}]>
           (EventRecipients ctx)) ctx
  end.

(** The loop of [UnregisterChan] from index [i] on, [rest] being
    [chanSlice[i:]]: the value of [newSlice] when the loop is left. *)
Fixpoint unregister_loop (chanSlice : list nat) (recipient : nat) (i : nat) (rest : list nat)
  : list nat :=
  match rest with
  | [] => []
  | c :: rest' =>
      if decide (c = recipient) then
        if decide (i = (length chanSlice - 1)%nat) then take i chanSlice
        else take i chanSlice ++ drop (S i) chanSlice
      else unregister_loop chanSlice recipient (S i) rest'
  end.

(** [UnregisterChan]; [None] is the nil pointer dereference of
    [ctx.EventRecipients[distName].EventChans] for a name without a
    recipient. *)
Definition UnregisterChan (distName : string) (recipient : nat) (ctx : BackendResources)
  : option BackendResources :=
  er ← EventRecipients ctx !! distName;
  let chanSlice := EventChans er in
  let newSlice := unregister_loop chanSlice recipient 0 chanSlice in
  Some (with_recipients
          (<[distName := {| EventChans := newSlice; Request := Request er |}]>
             (EventRecipients ctx)) ctx).

Lemma unregister_loop_absent chanSlice recipient : forall rest i,
  recipient ∉ rest -> unregister_loop chanSlice recipient i rest = [].
Proof.
  induction rest as [|c rest IH]; intros i Hnin; [done|].
  cbn [unregister_loop]. rewrite not_elem_of_cons in Hnin. destruct Hnin as [Hne Hnin].
  rewrite decide_False by done. by apply IH.
Qed.

Lemma unregister_loop_first recipient : forall post pre0 pre,
  recipient ∉ pre ->
  unregister_loop (pre0 ++ pre ++ recipient :: post) recipient (length pre0)
                  (pre ++ recipient :: post)
  = pre0 ++ pre ++ post.
Proof.
  intros post pre0 pre. revert pre0. induction pre as [|c pre IH]; intros pre0 Hnin.
  - cbn [app unregister_loop]. rewrite decide_True by done.
    assert (Htake : take (length pre0) (pre0 ++ recipient :: post) = pre0)
      by (by rewrite take_app_length).
    assert (Hdrop : drop (S (length pre0)) (pre0 ++ recipient :: post) = post).
    { change (recipient :: post) with ([recipient] ++ post). rewrite app_assoc.
      replace (S (length pre0)) with (length (pre0 ++ [recipient]))
        by (rewrite length_app; simpl; lia).
      by rewrite drop_app_length. }
    rewrite Htake, Hdrop. destruct (decide _) as [Hlast|Hlast]; [|done].
    rewrite length_app in Hlast. cbn [length] in Hlast.
    destruct post; [by rewrite app_nil_r | simpl in Hlast; lia].
  - rewrite not_elem_of_cons in Hnin. destruct Hnin as [Hne Hnin].
    cbn [app unregister_loop]. rewrite decide_False by done.
    specialize (IH (pre0 ++ [c]) Hnin). rewrite length_app in IH. cbn [length] in IH.
    replace (length pre0 + 1)%nat with (S (length pre0)) in IH by lia.
    rewrite <- !app_assoc in IH. cbn [app] in IH. exact IH.
Qed.

(** X12: UnregisterChan panics for a distributor without a recipient.  For
    one that has a recipient it takes the first occurrence of the channel out
    of the list and keeps the other channels in their order; when the channel
    is not in the list, the distributor loses all its channels.  The request
    and every other distributor stay as they are. *)
Theorem X12_UnregisterChan_cases (distName : string) (recipient : nat) (ctx : BackendResources) :
  (EventRecipients ctx !! distName = None -> UnregisterChan distName recipient ctx = None) /\
  (forall er, EventRecipients ctx !! distName = Some er ->
     exists chans,
       UnregisterChan distName recipient ctx =
         Some (with_recipients
                 (<[distName := {| EventChans := chans; Request := Request er |}]>
                    (EventRecipients ctx)) ctx) /\
       (recipient ∉ EventChans er -> chans = []) /\
       (forall pre post, EventChans er = pre ++ recipient :: post -> recipient ∉ pre ->
                         chans = pre ++ post)).
Proof.
  split.
  - intros Hnone. unfold UnregisterChan. by rewrite Hnone.
  - intros er Her. eexists. split; [|split].
    + unfold UnregisterChan. rewrite Her. cbn [mbind option_bind]. reflexivity.
    + intros Hnin. by apply unregister_loop_absent.
    + intros pre post Hsplit Hnin. rewrite Hsplit.
      apply (unregister_loop_first recipient post [] pre Hnin).
Qed.

(** X13: registering a channel and unregistering it again leaves a backend
    as it was, when the distributor had a recipient before and the channel
    was not among its channels; the request handed in with the later
    registration is not kept.  For a distributor without a recipient the
    pair leaves a recipient with the request and no channel. *)
Theorem X13_Register_Unregister (req : ResourceRequest) (recipient : nat)
    (ctx : BackendResources) :
  (forall er, EventRecipients ctx !! RequestOrigin req = Some er ->
     recipient ∉ EventChans er ->
     UnregisterChan (RequestOrigin req) recipient (RegisterChan req recipient ctx) = Some ctx) /\
  (EventRecipients ctx !! RequestOrigin req = None ->
     UnregisterChan (RequestOrigin req) recipient (RegisterChan req recipient ctx)
     = Some (with_recipients
               (<[RequestOrigin req := {| EventChans := []; Request := req |}]>
                  (EventRecipients ctx)) ctx)).
Proof.
  split.
  - intros er Her Hnin. unfold RegisterChan. rewrite Her. unfold UnregisterChan.
    cbn [EventRecipients with_recipients]. rewrite lookup_insert_eq. cbn [mbind option_bind].
    cbn [EventChans Request].
    pose proof (unregister_loop_first recipient [] [] (EventChans er) Hnin) as Hloop.
    cbn [app length] in Hloop. rewrite Hloop, app_nil_r.
    rewrite insert_insert_eq. f_equal. destruct ctx as [c f b rs]. unfold with_recipients.
    cbn in *. f_equal. destruct er; cbn. by apply insert_id.
  - intros Hnone. unfold RegisterChan. rewrite Hnone. unfold UnregisterChan.
    cbn [EventRecipients with_recipients]. rewrite lookup_insert_eq. cbn [mbind option_bind].
    cbn [EventChans Request unregister_loop length]. rewrite decide_True by done.
    rewrite decide_True by done. cbn [take]. by rewrite insert_insert_eq.
Qed.

Lemma X12_UnregisterChan_cases_witness :
  exists chans,
    UnregisterChan "moat" 9%nat dummy_backend =
      Some (with_recipients
              (<[ "moat" := {| EventChans := chans;
                               Request := {| RequestOrigin := "moat";
                                             ResourceTypes := ["dummy"] |} |} ]>
                 (EventRecipients dummy_backend)) dummy_backend) /\
    chans = [].
Proof.
  destruct (proj2 (X12_UnregisterChan_cases "moat" 9%nat dummy_backend) _ eq_refl)
    as (chans & Hun & Habsent & _).
  exists chans. split; [exact Hun|]. apply Habsent. cbn. intros Hin.
  repeat (apply elem_of_cons in Hin as [Hin|Hin]; [discriminate|]).
  by apply elem_of_nil in Hin.
Defined.

Lemma X13_Register_Unregister_witness :
  UnregisterChan "moat" 9%nat
    (RegisterChan {| RequestOrigin := "moat"; ResourceTypes := [] |} 9%nat dummy_backend)
  = Some dummy_backend.
Proof.
  refine (proj1 (X13_Register_Unregister {| RequestOrigin := "moat"; ResourceTypes := [] |}
                   9%nat dummy_backend) _ eq_refl _).
  cbn. intros Hin.
  repeat (apply elem_of_cons in Hin as [Hin|Hin]; [discriminate|]).
  by apply elem_of_nil in Hin.
Defined.

(** * Further properties of resource queues and maps (src/pkg/core/domain.go) *)

Inductive queue_error := ErrResourceExists | ErrQueueEmpty | ErrResourceNotFound.

(** [Search]. *)
Definition Search (q : ResourceQueue) (key : Hashkey) : Resource + queue_error :=
  match q with
  | [] => inr ErrQueueEmpty
  | _ =>
      match find (fun r => Uid r =? key) q with
      | Some r => inl r
      | None => inr ErrResourceNotFound
      end
  end.

(** [Dequeue]: the queue left and what is returned. *)
Definition Dequeue (q : ResourceQueue) : ResourceQueue * (Resource + queue_error) :=
  match q with
  | [] => ([], inr ErrQueueEmpty)
  | r :: q' => (q', inl r)
  end.

Lemma hasUid_true k (q : ResourceQueue) : hasUid k q = true <-> k ∈ Uid <$> q.
Proof.
  unfold hasUid. induction q as [|r q IH].
  - split; [done | intros Hin; by apply elem_of_nil in Hin].
  - cbn [existsb]. rewrite fmap_cons, elem_of_cons, orb_true_iff, IH, Z.eqb_eq. done.
Qed.

Lemma Update_uids (q : ResourceQueue) r : Uid <$> Update q r = Uid <$> q.
Proof.
  unfold Update. rewrite <- list_fmap_compose. apply list_fmap_ext. intros i x _. simpl.
  destruct (Z.eqb_spec (Uid r) (Uid x)); done.
Qed.

Lemma find_Uid_Some (q : ResourceQueue) k x :
  find (fun r => Uid r =? k) q = Some x -> x ∈ q /\ Uid x = k.
Proof.
  induction q as [|r q IH]; simpl; [done|].
  destruct (Z.eqb_spec (Uid r) k) as [He|Hne].
  - intros [= <-]. split; [by left | done].
  - intros Hf. destruct (IH Hf). split; [by right | done].
Qed.

Lemma find_Uid_unique (q : ResourceQueue) k x :
  NoDup (Uid <$> q) -> x ∈ q -> Uid x = k -> find (fun r => Uid r =? k) q = Some x.
Proof.
  induction q as [|r q IH]; intros Hnd Hin Hk; [by apply elem_of_nil in Hin|].
  rewrite fmap_cons in Hnd. apply NoDup_cons in Hnd as [Hnotin Hnd]. simpl.
  apply elem_of_cons in Hin as [->|Hin].
  - by rewrite (proj2 (Z.eqb_eq _ _) Hk).
  - destruct (Z.eqb_spec (Uid r) k) as [He|Hne]; [|by apply IH].
    exfalso. apply Hnotin. rewrite He, <- Hk. by apply list_elem_of_fmap_2.
Qed.

Lemma find_Uid_None (q : ResourceQueue) k :
  k ∉ Uid <$> q -> find (fun r => Uid r =? k) q = None.
Proof.
  induction q as [|r q IH]; intros Hnot; [done|].
  rewrite fmap_cons, not_elem_of_cons in Hnot. destruct Hnot as [Hne Hnot]. simpl.
  destruct (Z.eqb_spec (Uid r) k); [congruence | by apply IH].
Qed.

Lemma Delete_elems (q : ResourceQueue) r x : x ∈ Delete q r <-> x ∈ q /\ Uid r <> Uid x.
Proof. unfold Delete. rewrite list_elem_of_filter. tauto. Qed.

(** X14: on a queue that holds every UID once, Enqueue, Update and Delete
    leave such a queue, and Search returns a resource exactly when the queue
    holds it under the key.  Enqueue of a UID the queue holds changes
    nothing and the old resource stays the one that is found; Enqueue of a
    new UID appends the resource, which is then the one that is found;
    Update keeps the length and writes the resource over the one of its UID
    and nowhere else: every other place holds what it held; Delete keeps the
    other resources in their order, and after it the UID is not found any
    more. *)
Theorem X14_queue_search (q : ResourceQueue) (r : Resource) :
  NoDup (Uid <$> q) ->
  NoDup (Uid <$> Enqueue q r) /\ NoDup (Uid <$> Update q r) /\ NoDup (Uid <$> Delete q r) /\
  (forall k x, Search q k = inl x <-> x ∈ q /\ Uid x = k) /\
  (forall x, x ∈ q -> Uid x = Uid r ->
     Enqueue q r = q /\ Search (Enqueue q r) (Uid r) = inl x /\
     Search (Update q r) (Uid r) = inl r) /\
  (Uid r ∉ Uid <$> q ->
     Search (Enqueue q r) (Uid r) = inl r /\ Update q r = q /\ Delete q r = q) /\
  (forall x, Search (Delete q r) (Uid r) <> inl x) /\
  (forall x, x ∈ Delete q r <-> x ∈ q /\ Uid x <> Uid r) /\
  length (Update q r) = length q /\
  (forall i x, q !! i = Some x ->
     Update q r !! i = Some (if Uid r =? Uid x then r else x)) /\
  (Uid r ∉ Uid <$> q -> Enqueue q r = q ++ [r]) /\
  Delete q r `sublist_of` q.
Proof.
  intros Hnd.
  assert (Hsearch : forall (q0 : ResourceQueue) k x, NoDup (Uid <$> q0) ->
            (Search q0 k = inl x <-> x ∈ q0 /\ Uid x = k)).
  { intros q0 k x Hnd0. unfold Search. destruct q0 as [|r0 q0].
    - split; [done | intros [Hin _]; by apply elem_of_nil in Hin].
    - split.
      + destruct (find _ (r0 :: q0)) as [y|] eqn:Hf; [|done].
        intros [= <-]. by apply find_Uid_Some.
      + intros [Hin Hk]. by rewrite (find_Uid_unique (r0 :: q0) k x Hnd0 Hin Hk). }
  assert (HndE : NoDup (Uid <$> Enqueue q r)).
  { unfold Enqueue. destruct (hasUid (Uid r) q) eqn:Hhas; [done|].
    rewrite fmap_app. apply NoDup_app. split; [done|]. split.
    - intros k Hk Hin. apply list_elem_of_singleton in Hin as ->.
      apply hasUid_true in Hk. congruence.
    - apply NoDup_singleton. }
  assert (HndU : NoDup (Uid <$> Update q r)) by (by rewrite Update_uids).
  assert (HndD : NoDup (Uid <$> Delete q r)).
  { unfold Delete. apply (sublist_NoDup _ (Uid <$> q) Hnd).
    apply fmap_sublist, sublist_filter. }
  split; [done|]. split; [done|]. split; [done|]. split; [intros k x; by apply Hsearch|].
  split; [|split; [|split]].
  - intros x Hx Hk.
    assert (Enqueue q r = q) as HE.
    { unfold Enqueue. rewrite (proj2 (hasUid_true (Uid r) q)); [done|].
      rewrite <- Hk. by apply list_elem_of_fmap_2. }
    split; [done|]. split.
    + rewrite HE. by apply Hsearch.
    + apply Hsearch; [done|]. split; [|done]. unfold Update.
      apply list_elem_of_fmap. exists x. split; [|done].
      by rewrite (proj2 (Z.eqb_eq _ _) (eq_sym Hk)).
  - intros Hnew. split; [|split].
    + apply Hsearch; [done|]. split; [|done]. unfold Enqueue.
      rewrite hasUid_false by done. apply elem_of_app. right. by left.
    + unfold Update. rewrite <- (list_fmap_id q) at 2. apply list_fmap_ext. intros i x Hx.
      simpl. destruct (Z.eqb_spec (Uid r) (Uid x)) as [He|]; [|done].
      exfalso. apply Hnew. rewrite He. apply list_elem_of_fmap_2.
      eapply list_elem_of_lookup_2; eauto.
    + unfold Delete. apply filter_all, Forall_forall. intros x Hx He. apply Hnew. rewrite He.
      by apply list_elem_of_fmap_2.
  - intros x Hs. apply Hsearch in Hs as [Hin Hk]; [|done].
    apply Delete_elems in Hin as [_ Hne]. congruence.
  - split; [|split; [|split; [|split]]].
    + intros x. rewrite Delete_elems. split; intros [? ?]; split; congruence.
    + unfold Update. apply length_fmap.
    + intros i x Hi. unfold Update. by rewrite list_lookup_fmap, Hi.
    + intros Hnew. unfold Enqueue. by rewrite hasUid_false.
    + unfold Delete. apply sublist_filter.
Qed.

Lemma X14_queue_search_witness :
  Search (Enqueue [NewDummy 1 1 2] (NewDummy 2 7 5)) 5 = inl (NewDummy 2 7 5).
Proof.
  refine (proj1 (proj1 (proj2 (proj2 (proj2 (proj2 (proj2
            (X14_queue_search [NewDummy 1 1 2] (NewDummy 2 7 5) _)))))) _)).
  - cbn. apply NoDup_singleton.
  - cbn. intros Hin.
    repeat (apply elem_of_cons in Hin as [Hin|Hin]; [discriminate|]).
    by apply elem_of_nil in Hin.
Defined.

Lemma foldl_Delete_elems (gone : list Resource) : forall (q : ResourceQueue) x,
  x ∈ foldl Delete q gone <-> x ∈ q /\ forall r, r ∈ gone -> Uid r <> Uid x.
Proof.
  induction gone as [|g gone IH]; intros q x; cbn [foldl].
  - split; [intros Hx; split; [done|] | tauto]. intros r Hr. by apply elem_of_nil in Hr.
  - rewrite IH, Delete_elems. split.
    + intros [[Hx Hg] Hrest]. split; [done|]. intros r Hr.
      apply elem_of_cons in Hr as [->|Hr]; [done | by apply Hrest].
    + intros [Hx Hall]. split; [split; [done|]|].
      * apply Hall. by left.
      * intros r Hr. apply Hall. by right.
Qed.

Lemma apply_queue_other f k (rm : ResourceMap) rs t :
  k <> t \/ rs = [] -> ResMap.apply_queue f k rm rs !! t = rm !! t.
Proof.
  intros [Hne| ->]; [|done]. unfold ResMap.apply_queue. revert rm.
  induction rs as [|r rs IH]; intros rm; cbn [foldl]; [done|].
  rewrite IH. by rewrite lookup_insert_ne.
Qed.

Lemma apply_each_untouched f (rm part : ResourceMap) t :
  queue_of part t = [] -> ResMap.apply_each f rm (map_to_list part) !! t = rm !! t.
Proof.
  intros Hempty.
  assert (Hall : forall k rs, (k, rs) ∈ map_to_list part -> k <> t \/ rs = []).
  { intros k rs Hin. apply elem_of_map_to_list in Hin.
    destruct (decide (k = t)) as [->|]; [right | by left].
    unfold queue_of in Hempty. by rewrite Hin in Hempty. }
  unfold ResMap.apply_each. revert rm Hall.
  induction (map_to_list part) as [|[k rs] entries IH]; intros rm Hall; cbn [foldl]; [done|].
  rewrite IH.
  - cbn [fst snd]. apply apply_queue_other, Hall. by left.
  - intros k' rs' Hin. apply Hall. by right.
Qed.

(** X15: a diff that is not a full update is applied type by type, whatever
    the order the maps are ranged over: the queue of a type is its queue
    before with the New resources enqueued, then the Changed ones written
    over their UIDs, then the Gone ones deleted.  No UID of a Gone resource
    is left in the queue of its type, and a type the diff lists no resource
    for keeps its entry, or stays without one. *)
Theorem X15_ApplyDiff_incremental (d : ResourceDiff) (m : ResourceMap) :
  FullUpdate d = false ->
  (forall t, queue_of (ResMap.ApplyDiff d m) t =
     foldl Delete
       (foldl Update (foldl Enqueue (queue_of m t) (queue_of (New d) t))
              (queue_of (Changed d) t))
       (queue_of (Gone d) t)) /\
  (forall t r, r ∈ queue_of (Gone d) t -> Uid r ∉ Uid <$> queue_of (ResMap.ApplyDiff d m) t) /\
  (forall t, queue_of (New d) t = [] -> queue_of (Changed d) t = [] ->
             queue_of (Gone d) t = [] -> ResMap.ApplyDiff d m !! t = m !! t).
Proof.
  intros Hfull.
  assert (Hq : forall t, queue_of (ResMap.ApplyDiff d m) t =
     foldl Delete
       (foldl Update (foldl Enqueue (queue_of m t) (queue_of (New d) t))
              (queue_of (Changed d) t))
       (queue_of (Gone d) t)).
  { intros t. unfold ResMap.ApplyDiff. rewrite Hfull. by rewrite !apply_each_map. }
  split; [done|]. split.
  - intros t r Hr Hin. rewrite Hq in Hin. apply list_elem_of_fmap in Hin as (x & Hux & Hx).
    apply foldl_Delete_elems in Hx as [_ Hall]. by apply (Hall r Hr).
  - intros t HN HC HG. unfold ResMap.ApplyDiff. rewrite Hfull.
    by rewrite !apply_each_untouched.
Qed.

Lemma X15_ApplyDiff_incremental_witness :
  queue_of (ResMap.ApplyDiff
              {| New := {[ "dummy" := [NewDummy 2 7 5] ]}; Changed := ∅;
                 Gone := {[ "dummy" := [NewDummy 1 1 2] ]}; FullUpdate := false |}
              {[ "dummy" := [NewDummy 1 1 2] ]}) "dummy"
  = [NewDummy 2 7 5].
Proof.
  rewrite (proj1 (X15_ApplyDiff_incremental
             {| New := {[ "dummy" := [NewDummy 2 7 5] ]}; Changed := ∅;
                Gone := {[ "dummy" := [NewDummy 1 1 2] ]}; FullUpdate := false |}
             {[ "dummy" := [NewDummy 1 1 2] ]} eq_refl) "dummy").
  vm_compute. reflexivity.
Defined.

Lemma X16_Add_then_Get_witness :
  exists name out h',
    @Group.getPartitionName modRand dummy_group (NewDummy 1 1 9) = Some name /\
    @Backend.Add modRand (fun _ => passingTest) 3 (NewDummy 1 1 9) dummy_backend = Some out /\
    Coll.GetHashring name (RType (NewDummy 1 1 9)) (Collection_ (o_ctx out)) = Some h' /\
    (Backend.Get (o_store out) name (RType (NewDummy 1 1 9)) (o_ctx out)).1
      ++ (Backend.Get (o_store out) name (RType (NewDummy 1 1 9)) (o_ctx out)).2
      ≡ₚ GetAll h' /\
    exists e,
      (e ∈ (Backend.Get (o_store out) name (RType (NewDummy 1 1 9)) (o_ctx out)).1 \/
       e ∈ (Backend.Get (o_store out) name (RType (NewDummy 1 1 9)) (o_ctx out)).2) /\
      Uid e = Uid (NewDummy 1 1 9) /\ Oid e = Oid (NewDummy 1 1 9).
Proof.
  refine (@X16_Add_then_Get modRand dummy_proportions (fun _ => passingTest) 3
            (NewDummy 1 1 9) dummy_backend dummy_group
            modRand_in_range dummy_proportions_positive dummy_proportions_nonempty _ _ _).
  - vm_compute. reflexivity.
  - reflexivity.
  - apply newPartitioned_ok.
Defined.

(** * Applying a diff to a hashring (src/unnamed/part_015) *)

(** The ring the calls work on, the test results and the tests started. *)
Record ring_world := mkRingWorld {
  rw_ring : Hashring;
  rw_store : Store;
  rw_tested : list Resource
}.

Module Ring.

Local Abbreviation ring_Add := Add.
Local Abbreviation ring_AddOrUpdate := AddOrUpdate.
Local Abbreviation ring_Remove := Remove.

(** [hashring.Add(r)], [hashring.AddOrUpdate(r)] and [hashring.Remove(r)]
    with their results dropped, as [ApplyDiff] calls them. *)
Definition add_one (now : time_Time) (w : ring_world) (r : Resource) : ring_world :=
  let '(h', _, tested) := ring_Add (rw_store w) now r (rw_ring w) in
  {| rw_ring := h'; rw_store := rw_store w; rw_tested := rw_tested w ++ tested |}.

Definition update_one (now : time_Time) (w : ring_world) (r : Resource) : ring_world :=
  let '(h', st', _, tested) := ring_AddOrUpdate (rw_store w) now r (rw_ring w) in
  {| rw_ring := h'; rw_store := st'; rw_tested := rw_tested w ++ tested |}.

Definition remove_one (w : ring_world) (r : Resource) : ring_world :=
  let '(h', _) := ring_Remove r (rw_ring w) in
  {| rw_ring := h'; rw_store := rw_store w; rw_tested := rw_tested w |}.

Definition each_type (f : ring_world -> Resource -> ring_world) (w : ring_world)
  (entries : list (string * list Resource)) : ring_world :=
  foldl (fun w kv => foldl f w kv.2) w entries.

(** [Hashring.ApplyDiff]: a full update works on a new ring, whose nodes
    replace those of [h] at the end. *)
Definition ApplyDiff (now : time_Time) (d : ResourceDiff) (st : Store) (h : Hashring)
  : ring_world :=
  let hashring := if FullUpdate d then NewHashring else h in
  let w := {| rw_ring := hashring; rw_store := st; rw_tested := [] |} in
  let w := each_type (add_one now) w (map_to_list (New d)) in
  let w := each_type (update_one now) w (map_to_list (Changed d)) in
  each_type remove_one w (map_to_list (Gone d)).

End Ring.

(** A part of a diff lists the UID [k]. *)
Definition lists_uid (m : ResourceMap) (k : Hashkey) : Prop :=
  exists t rs r, m !! t = Some rs /\ r ∈ rs /\ Uid r = k.

Lemma elem_of_concat {A} (x : A) (ls : list (list A)) :
  x ∈ concat ls <-> exists l, x ∈ l /\ l ∈ ls.
Proof.
  induction ls as [|l ls IH]; cbn [concat].
  - split; [intros Hx; by apply elem_of_nil in Hx|]. intros (l & _ & Hl).
    by apply elem_of_nil in Hl.
  - rewrite elem_of_app, IH. split.
    + intros [Hx|(l' & Hx & Hl')]; [exists l; split; [done | by left]|].
      exists l'. split; [done | by right].
    + intros (l' & Hx & Hl'). apply elem_of_cons in Hl' as [->|Hl']; [by left|].
      right. by exists l'.
Qed.

Lemma lists_uid_entries (m : ResourceMap) k :
  k ∈ Uid <$> concat (map_to_list m).*2 <-> lists_uid m k.
Proof.
  unfold lists_uid. split.
  - intros Hin. apply list_elem_of_fmap in Hin as (r & -> & Hr).
    apply elem_of_concat in Hr as (rs & Hr & Hrs).
    apply list_elem_of_fmap in Hrs as ([t rs'] & -> & Hin).
    apply elem_of_map_to_list in Hin. by exists t, rs', r.
  - intros (t & rs & r & Hm & Hr & <-). apply list_elem_of_fmap_2.
    apply elem_of_concat. exists rs. split; [done|].
    apply (list_elem_of_fmap_2 snd _ (t, rs)). by apply elem_of_map_to_list.
Qed.

Lemma each_type_grows (f : ring_world -> Resource -> ring_world) :
  (forall w r, ring_ok (rw_ring w) ->
     ring_ok (rw_ring (f w r)) /\
     forall k, has_key (rw_ring (f w r)) k <-> has_key (rw_ring w) k \/ k = Uid r) ->
  forall entries w, ring_ok (rw_ring w) ->
    ring_ok (rw_ring (Ring.each_type f w entries)) /\
    forall k, has_key (rw_ring (Ring.each_type f w entries)) k <->
              has_key (rw_ring w) k \/ k ∈ Uid <$> concat entries.*2.
Proof.
  intros Hstep.
  assert (Hinner : forall rs w, ring_ok (rw_ring w) ->
            ring_ok (rw_ring (foldl f w rs)) /\
            forall k, has_key (rw_ring (foldl f w rs)) k <->
                      has_key (rw_ring w) k \/ k ∈ Uid <$> rs).
  { induction rs as [|r rs IH]; intros w Hs; cbn [foldl].
    - split; [done|]. intros k. rewrite fmap_nil, elem_of_nil. tauto.
    - destruct (Hstep w r Hs) as [Hs1 Hk1]. destruct (IH _ Hs1) as [Hs2 Hk2].
      split; [done|]. intros k. rewrite Hk2, Hk1, fmap_cons, elem_of_cons. tauto. }
  unfold Ring.each_type. induction entries as [|[t rs] entries IH]; intros w Hs; cbn [foldl].
  - split; [done|]. intros k. cbn. rewrite elem_of_nil. tauto.
  - destruct (Hinner rs w Hs) as [Hs1 Hk1]. destruct (IH _ Hs1) as [Hs2 Hk2].
    split; [done|]. intros k. rewrite Hk2. cbn [fst snd]. rewrite Hk1.
    rewrite fmap_cons. cbn [snd concat]. rewrite fmap_app, elem_of_app. tauto.
Qed.

Lemma each_type_shrinks (f : ring_world -> Resource -> ring_world) :
  (forall w r, ring_ok (rw_ring w) ->
     ring_ok (rw_ring (f w r)) /\
     forall k, has_key (rw_ring (f w r)) k <-> has_key (rw_ring w) k /\ k <> Uid r) ->
  forall entries w, ring_ok (rw_ring w) ->
    ring_ok (rw_ring (Ring.each_type f w entries)) /\
    forall k, has_key (rw_ring (Ring.each_type f w entries)) k <->
              has_key (rw_ring w) k /\ k ∉ Uid <$> concat entries.*2.
Proof.
  intros Hstep.
  assert (Hinner : forall rs w, ring_ok (rw_ring w) ->
            ring_ok (rw_ring (foldl f w rs)) /\
            forall k, has_key (rw_ring (foldl f w rs)) k <->
                      has_key (rw_ring w) k /\ k ∉ Uid <$> rs).
  { induction rs as [|r rs IH]; intros w Hs; cbn [foldl].
    - split; [done|]. intros k. rewrite fmap_nil, elem_of_nil. tauto.
    - destruct (Hstep w r Hs) as [Hs1 Hk1]. destruct (IH _ Hs1) as [Hs2 Hk2].
      split; [done|]. intros k. rewrite Hk2, Hk1, fmap_cons, not_elem_of_cons. tauto. }
  unfold Ring.each_type. induction entries as [|[t rs] entries IH]; intros w Hs; cbn [foldl].
  - split; [done|]. intros k. cbn. rewrite elem_of_nil. tauto.
  - destruct (Hinner rs w Hs) as [Hs1 Hk1]. destruct (IH _ Hs1) as [Hs2 Hk2].
    split; [done|]. intros k. rewrite Hk2. cbn [fst snd]. rewrite Hk1.
    rewrite fmap_cons. cbn [snd concat]. rewrite fmap_app, elem_of_app. tauto.
Qed.

Lemma remove_has_key r (h : Hashring) k :
  ring_ok h -> has_key (remove r h).1 k <-> has_key h k /\ k <> Uid r.
Proof.
  intros Hs. unfold remove. destruct (getIndex h (Uid r)) as [i|i|] eqn:Hg; cbn [fst].
  - destruct (getIndex_found_inv _ _ _ Hg) as (n & Hn & Hk).
    rewrite (delete_keys h i n Hs Hn). by rewrite Hk.
  - split; [|tauto]. intros Hin. split; [done|]. intros ->.
    unfold has_key in Hin. apply list_elem_of_fmap in Hin as (n & Hk & Hn).
    apply list_elem_of_lookup_1 in Hn as [j Hj].
    rewrite (getIndex_found h (Uid r) j n Hs Hj (eq_sym Hk)) in Hg. discriminate.
  - apply getIndex_empty_inv in Hg as ->. split; [|tauto]. intros Hin.
    unfold has_key in Hin. by apply elem_of_nil in Hin.
Qed.

(** X17: Hashring.ApplyDiff leaves a sorted ring whose UIDs are those the
    New and the Changed part list, together with the UIDs of the ring before
    unless the update is a full one, less the UIDs the Gone part lists; the
    order in which the parts are ranged over does not matter. *)
Theorem X17_Hashring_ApplyDiff_keys now (d : ResourceDiff) st (h : Hashring) :
  ring_ok h ->
  ring_ok (rw_ring (Ring.ApplyDiff now d st h)) /\
  forall k, has_key (rw_ring (Ring.ApplyDiff now d st h)) k <->
    ((FullUpdate d = false /\ has_key h k) \/ lists_uid (New d) k \/ lists_uid (Changed d) k)
    /\ ~ lists_uid (Gone d) k.
Proof.
  intros Hs. unfold Ring.ApplyDiff.
  set (w0 := {| rw_ring := if FullUpdate d then NewHashring else h; rw_store := st;
                rw_tested := [] |}).
  assert (Hs0 : ring_ok (rw_ring w0)).
  { cbn. destruct (FullUpdate d); [constructor | done]. }
  assert (Hk0 : forall k, has_key (rw_ring w0) k <-> FullUpdate d = false /\ has_key h k).
  { intros k. cbn. destruct (FullUpdate d).
    - unfold has_key, NewHashring. rewrite fmap_nil, elem_of_nil. split; [done | by intros [? _]].
    - tauto. }
  assert (Hadd : forall w r, ring_ok (rw_ring w) ->
            ring_ok (rw_ring (Ring.add_one now w r)) /\
            forall k, has_key (rw_ring (Ring.add_one now w r)) k <->
                      has_key (rw_ring w) k \/ k = Uid r).
  { intros w r Hw. unfold Ring.add_one.
    pose proof (Add_ring_ok (rw_store w) now r (rw_ring w) Hw) as Hok.
    pose proof (Add_has_key_iff (rw_store w) now r (rw_ring w)) as Hk.
    destruct (Add (rw_store w) now r (rw_ring w)) as [[h' err] tested]. by split. }
  assert (Hupd : forall w r, ring_ok (rw_ring w) ->
            ring_ok (rw_ring (Ring.update_one now w r)) /\
            forall k, has_key (rw_ring (Ring.update_one now w r)) k <->
                      has_key (rw_ring w) k \/ k = Uid r).
  { intros w r Hw. unfold Ring.update_one.
    pose proof (AddOrUpdate_ring_ok (rw_store w) now r (rw_ring w) Hw) as Hok.
    pose proof (AddOrUpdate_has_key (rw_store w) now r (rw_ring w)) as Hhas.
    pose proof (AddOrUpdate_keeps_keys (rw_store w) now r (rw_ring w)) as Hkeeps.
    pose proof (AddOrUpdate_keys (rw_store w) now r (rw_ring w)) as Hkeys.
    destruct (AddOrUpdate (rw_store w) now r (rw_ring w)) as [[[h' st'] ev] tested].
    cbn [fst snd rw_ring] in *. split; [done|]. intros k. split.
    - unfold has_key. destruct Hkeys as [(i & _ & ->)|[_ ->]]; [by left|].
      rewrite fmap_app, elem_of_app. cbn. rewrite list_elem_of_singleton. tauto.
    - intros [Hk| ->]; [by apply Hkeeps | done]. }
  assert (Hrem : forall w r, ring_ok (rw_ring w) ->
            ring_ok (rw_ring (Ring.remove_one w r)) /\
            forall k, has_key (rw_ring (Ring.remove_one w r)) k <->
                      has_key (rw_ring w) k /\ k <> Uid r).
  { intros w r Hw. unfold Ring.remove_one, Remove.
    pose proof (remove_ring_ok r (rw_ring w) Hw) as Hok.
    pose proof (fun k => remove_has_key r (rw_ring w) k Hw) as Hk.
    destruct (remove r (rw_ring w)) as [h' err]. by split. }
  destruct (each_type_grows _ Hadd (map_to_list (New d)) w0 Hs0) as [Hs1 Hk1].
  destruct (each_type_grows _ Hupd (map_to_list (Changed d)) _ Hs1) as [Hs2 Hk2].
  destruct (each_type_shrinks _ Hrem (map_to_list (Gone d)) _ Hs2) as [Hs3 Hk3].
  split; [done|]. intros k.
  rewrite Hk3, Hk2, Hk1, Hk0, !lists_uid_entries. tauto.
Qed.

Lemma X17_Hashring_ApplyDiff_keys_witness :
  ring_ok (rw_ring (Ring.ApplyDiff 3
             {| New := {[ "dummy" := [NewDummy 7 6 6] ]}; Changed := ∅;
                Gone := {[ "dummy" := [NewDummy 2 5 5] ]}; FullUpdate := false |}
             (fun _ => passingTest) ring259)).
Proof.
  exact (proj1 (X17_Hashring_ApplyDiff_keys 3
                  {| New := {[ "dummy" := [NewDummy 7 6 6] ]}; Changed := ∅;
                     Gone := {[ "dummy" := [NewDummy 2 5 5] ]}; FullUpdate := false |}
                  (fun _ => passingTest) ring259 ring259_ok)).
Defined.

(** * Writing test results back (src/internal/resourcetest.go) *)

(** The body of the loop of [testBridgestrap] for one entry that matched a
    pooled resource and is not nil. *)
Definition bridgestrapEntry (bridgeTest : BridgeTest) (rTest : ResourceTest) : ResourceTest :=
  {| State := if Functional bridgeTest then StateFunctional else StateDysfunctional;
     Speed := Speed rTest;
     Ratio := Ratio rTest;
     LastTested := match BT_LastTested bridgeTest with
                   | Some t => t
                   | None => LastTested rTest
                   end;
     LastPassed := LastPassed rTest;
     Error := BT_Error bridgeTest |}.

(** One round of the loop of [testBridgestrap]: an entry for a line that is
    not pooled is skipped; for a pooled line [bridgeTest.LastTested] is read
    first, which panics on a nil entry ([None]). *)
Definition bridgestrapStep (rMap : gmap string Resource) (st : Store)
  (entry : string * option BridgeTest) : option Store :=
  match rMap !! entry.1 with
  | None => Some st
  | Some r =>
      bridgeTest ← entry.2;
      Some (<[Ptr r := bridgestrapEntry bridgeTest (TestResult st r)]> st)
  end.

(** [testBridgestrap] once [MakeJsonRequest] has returned: [resp] is [None]
    when the request failed; the result [None] is a panic. *)
Definition testBridgestrap (rMap : gmap string Resource) (resp : option BridgeTestResponse)
  (st : Store) : option Store :=
  match resp with
  | None => Some st
  | Some resp =>
      if negb (String.eqb (Response_Error resp) "") then Some st
      else forM (bridgestrapStep rMap) st (map_to_list (Bridges resp))
  end.

(** What [testResources] does to the test results; [None] is a panic of
    [testBridgestrap] or of [testOnbasca]. *)
Definition testResources (threshold : float) (rMap : gmap string Resource)
  (bridgestrapResp onbascaResp : option BridgeTestResponse) (st : Store) : option Store :=
  if decide (size rMap = 0%nat) then Some st
  else
    st ← testBridgestrap rMap bridgestrapResp st;
    TestPool.testOnbasca threshold rMap onbascaResp st.

Section WriteBack.

Variable g : BridgeTest -> ResourceTest -> option ResourceTest.
Variable rMap : gmap string Resource.

(** Different bridge lines of the pool stand for different objects. *)
Hypothesis lines_objects : forall l1 l2 r1 r2,
  rMap !! l1 = Some r1 -> rMap !! l2 = Some r2 -> Ptr r1 = Ptr r2 -> l1 = l2.

(** The shape the two loops share. *)
Definition writeStep (st : Store) (entry : string * option BridgeTest) : option Store :=
  match rMap !! entry.1 with
  | None => Some st
  | Some r =>
      bridgeTest ← entry.2;
      rTest ← g bridgeTest (TestResult st r);
      Some (<[Ptr r := rTest]> st)
  end.

Lemma writeStep_Some (st st1 : Store) l obt :
  writeStep st (l, obt) = Some st1 ->
  (rMap !! l = None /\ st1 = st) \/
  (exists r bt rt, rMap !! l = Some r /\ obt = Some bt /\ g bt (st (Ptr r)) = Some rt /\
                   st1 = <[Ptr r := rt]> st).
Proof.
  unfold writeStep. cbn [fst snd]. destruct (rMap !! l) as [r|]; [|intros [= <-]; by left].
  destruct obt as [bt|]; [|done]. cbn [mbind option_bind]. unfold TestResult.
  destruct (g bt (st (Ptr r))) as [rt|] eqn:Hg; [|done]. cbn [mbind option_bind].
  intros [= <-]. right. by exists r, bt, rt.
Qed.

Lemma forM_writeStep_frame : forall entries (st st' : Store),
  forM writeStep st entries = Some st' ->
  (forall line r, rMap !! line = Some r -> line ∉ entries.*1 -> st' (Ptr r) = st (Ptr r)) /\
  (forall p, (forall line r, rMap !! line = Some r -> Ptr r <> p) -> st' p = st p).
Proof.
  induction entries as [|[l obt] entries IH]; intros st st' Hrun; cbn [forM] in Hrun.
  - injection Hrun as <-. done.
  - destruct (writeStep st (l, obt)) as [st1|] eqn:Hstep; [|done]. cbn [mbind option_bind] in Hrun.
    destruct (IH st1 st' Hrun) as [Hother Hframe].
    apply writeStep_Some in Hstep as [[_ ->]|(r0 & bt & rt & Hl & _ & _ & ->)].
    + split; [|done]. intros line r Hr Hnot. rewrite fmap_cons, not_elem_of_cons in Hnot.
      apply (Hother line r Hr). tauto.
    + split.
      * intros line r Hr Hnot. rewrite fmap_cons, not_elem_of_cons in Hnot.
        destruct Hnot as [Hne Hnot]. rewrite (Hother line r Hr Hnot).
        rewrite fn_lookup_insert_ne; [done|]. intros Hp. apply Hne. cbn.
        symmetry. by apply (lines_objects l line r0 r).
      * intros p Hp. rewrite (Hframe p Hp).
        rewrite fn_lookup_insert_ne; [done|]. by apply (Hp l).
Qed.

Lemma forM_writeStep_at : forall entries (st st' : Store),
  NoDup entries.*1 ->
  forM writeStep st entries = Some st' ->
  forall line r obt, rMap !! line = Some r -> (line, obt) ∈ entries ->
    exists bt, obt = Some bt /\ g bt (st (Ptr r)) = Some (st' (Ptr r)).
Proof.
  induction entries as [|[l obt0] entries IH]; intros st st' Hnd Hrun line r obt Hr Hin;
    [by apply elem_of_nil in Hin|].
  rewrite fmap_cons in Hnd. apply NoDup_cons in Hnd as [Hnotin Hnd]. cbn [forM] in Hrun.
  destruct (writeStep st (l, obt0)) as [st1|] eqn:Hstep; [|done].
  cbn [mbind option_bind] in Hrun.
  apply elem_of_cons in Hin as [Heq|Hin].
  - injection Heq as <- <-.
    apply writeStep_Some in Hstep as [[Hl _]|(r0 & bt & rt & Hl & -> & Hg & ->)]; [congruence|].
    assert (r0 = r) as -> by congruence. exists bt. split; [done|].
    destruct (forM_writeStep_frame entries _ st' Hrun) as [Hother _].
    rewrite (Hother line r Hr Hnotin). by rewrite fn_lookup_insert.
  - assert (Hne : l <> line).
    { intros ->. apply Hnotin. by apply (list_elem_of_fmap_2 fst _ (line, obt)). }
    destruct (IH st1 st' Hnd Hrun line r obt Hr Hin) as (bt & -> & Hg). exists bt.
    split; [done|]. rewrite <- Hg. f_equal.
    apply writeStep_Some in Hstep as [[_ ->]|(r0 & bt0 & rt & Hl & _ & _ & ->)]; [done|].
    rewrite fn_lookup_insert_ne; [done|]. intros Hp. apply Hne.
    by apply (lines_objects l line r0 r).
Qed.

Lemma forM_writeStep_total : forall entries (st : Store),
  (forall line r obt, rMap !! line = Some r -> (line, obt) ∈ entries ->
     exists bt, obt = Some bt /\ forall rt, is_Some (g bt rt)) ->
  is_Some (forM writeStep st entries).
Proof.
  induction entries as [|[l obt] entries IH]; intros st Hg; cbn [forM]; [by eexists|].
  assert (is_Some (writeStep st (l, obt))) as [st1 ->].
  { unfold writeStep. cbn [fst snd]. destruct (rMap !! l) as [r|] eqn:Hl; [|by eexists].
    destruct (Hg l r obt Hl) as (bt & -> & Hbt); [by left|]. cbn [mbind option_bind].
    destruct (Hbt (TestResult st r)) as [rt ->]. by eexists. }
  cbn [mbind option_bind]. apply IH. intros line r obt' Hr Hin.
  apply (Hg line r obt'); [done | by right].
Qed.

(** A nil entry for a pooled line stops the loop. *)
Lemma forM_writeStep_nil : forall entries (st : Store) line r,
  rMap !! line = Some r -> (line, None) ∈ entries -> forM writeStep st entries = None.
Proof.
  induction entries as [|[l obt] entries IH]; intros st line r Hr Hin;
    [by apply elem_of_nil in Hin|].
  cbn [forM]. apply elem_of_cons in Hin as [Heq|Hin].
  - injection Heq as <- <-. unfold writeStep. cbn [fst snd]. by rewrite Hr.
  - destruct (writeStep st (l, obt)) as [st1|]; [|done]. cbn [mbind option_bind].
    by apply (IH st1 line r).
Qed.

End WriteBack.

Lemma bridgestrapStep_writeStep rMap :
  bridgestrapStep rMap = writeStep (fun bt rt => Some (bridgestrapEntry bt rt)) rMap.
Proof. reflexivity. Qed.

Lemma onbascaStep_writeStep threshold rMap :
  TestPool.onbascaStep threshold rMap = writeStep (TestPool.onbascaEntry threshold) rMap.
Proof. reflexivity. Qed.

(** X18: testBridgestrap panics when the response has a null entry for a
    pooled bridge line, and returns when it has none.  When it returns,
    distinct bridge lines of the pool stand for distinct objects and the
    response carries no error, a pooled resource the response has an entry
    for gets the state Functional or Dysfunctional as the entry says, the
    entry's error, and its [last_tested] when that is not null; its speed,
    ratio and last-passed time stay.  A pooled resource without an entry,
    and every object outside the pool, keeps its result; a failed request or
    a response with an error changes nothing. *)
Theorem X18_testBridgestrap_writes (rMap : gmap string Resource) (resp : BridgeTestResponse)
    (st : Store) :
  (forall l1 l2 r1 r2,
     rMap !! l1 = Some r1 -> rMap !! l2 = Some r2 -> Ptr r1 = Ptr r2 -> l1 = l2) ->
  (Response_Error resp = "" ->
     (forall line r, rMap !! line = Some r -> Bridges resp !! line = Some None ->
        testBridgestrap rMap (Some resp) st = None) /\
     ((forall line r, rMap !! line = Some r -> Bridges resp !! line <> Some None) ->
      exists st' : Store,
        testBridgestrap rMap (Some resp) st = Some st' /\
        (forall line r bt, rMap !! line = Some r -> Bridges resp !! line = Some (Some bt) ->
           TestResult st' r = bridgestrapEntry bt (TestResult st r)) /\
        (forall line r, rMap !! line = Some r -> Bridges resp !! line = None ->
           TestResult st' r = TestResult st r) /\
        (forall p, (forall line r, rMap !! line = Some r -> Ptr r <> p) -> st' p = st p))) /\
  (Response_Error resp <> "" -> testBridgestrap rMap (Some resp) st = Some st) /\
  testBridgestrap rMap None st = Some st.
Proof.
  intros Hinj. split; [|split; [|done]].
  - intros Herr. unfold testBridgestrap. rewrite Herr. cbn [String.eqb negb].
    rewrite bridgestrapStep_writeStep. split.
    + intros line r Hr Hnil. apply (forM_writeStep_nil _ rMap _ st line r Hr).
      by apply elem_of_map_to_list.
    + intros Hnonil.
      destruct (forM_writeStep_total (fun bt rt => Some (bridgestrapEntry bt rt)) rMap
                  (map_to_list (Bridges resp)) st) as [st' Hrun].
      { intros line r obt Hr Hin. apply elem_of_map_to_list in Hin.
        destruct obt as [bt|]; [|by destruct (Hnonil line r Hr)].
        exists bt. split; [done|]. intros rt. by eexists. }
      exists st'. split; [exact Hrun|].
      destruct (forM_writeStep_frame _ rMap Hinj _ _ _ Hrun) as [Hother Hframe].
      split; [|split; [|exact Hframe]].
      * intros line r bt Hr Hbt. unfold TestResult.
        destruct (forM_writeStep_at _ rMap Hinj _ _ _ (NoDup_fst_map_to_list _) Hrun
                    line r (Some bt) Hr) as (bt' & Heq & Hat);
          [by apply elem_of_map_to_list|].
        injection Heq as <-. by injection Hat as <-.
      * intros line r Hr Hnone. unfold TestResult. apply (Hother line r Hr).
        intros Hin. apply list_elem_of_fmap in Hin as ([l obt] & -> & Hin).
        apply elem_of_map_to_list in Hin. cbn in Hnone. congruence.
  - intros Herr. unfold testBridgestrap.
    destruct (String.eqb_spec (Response_Error resp) ""); [done|done].
Qed.

(** X19: testOnbasca returns, instead of panicking, when every entry of the
    response that matches a pooled resource carries an error or a ratio.  It
    then writes only the speed and the ratio: the state, the error and the
    times of every result stay as they are, a pooled resource the response
    has an entry for gets what the entry says, and every object outside the
    pool keeps its result. *)
Theorem X19_testOnbasca_returns (threshold : float) (rMap : gmap string Resource)
    (resp : BridgeTestResponse) (st : Store) :
  (forall l1 l2 r1 r2,
     rMap !! l1 = Some r1 -> rMap !! l2 = Some r2 -> Ptr r1 = Ptr r2 -> l1 = l2) ->
  (forall line r entry, rMap !! line = Some r -> Bridges resp !! line = Some entry ->
     exists bt, entry = Some bt /\ (BT_Error bt <> "" \/ is_Some (BT_Ratio bt))) ->
  exists st' : Store,
    TestPool.testOnbasca threshold rMap (Some resp) st = Some st' /\
    (forall p, State (st' p) = State (st p) /\ Error (st' p) = Error (st p) /\
               LastTested (st' p) = LastTested (st p) /\
               LastPassed (st' p) = LastPassed (st p)) /\
    (Response_Error resp = "" ->
       forall line r bt, rMap !! line = Some r -> Bridges resp !! line = Some (Some bt) ->
         TestPool.onbascaEntry threshold bt (TestResult st r) = Some (TestResult st' r)) /\
    (forall p, (forall line r, rMap !! line = Some r -> Ptr r <> p) -> st' p = st p).
Proof.
  intros Hinj Hok. unfold TestPool.testOnbasca.
  destruct (String.eqb_spec (Response_Error resp) "") as [Herr|Herr]; cbn [negb].
  2:{ exists st. split; [done|]. split; [done|]. split; [done|done]. }
  rewrite onbascaStep_writeStep.
  assert (Htotal : is_Some (forM (writeStep (TestPool.onbascaEntry threshold) rMap) st
                              (map_to_list (Bridges resp)))).
  { apply forM_writeStep_total.
    intros line r entry Hr Hin. apply elem_of_map_to_list in Hin.
    destruct (Hok line r entry Hr Hin) as (bt & -> & Hbt). exists bt. split; [done|].
    intros rt. unfold TestPool.onbascaEntry. destruct Hbt as [He|[ratio Hratio]].
    - destruct (String.eqb_spec (BT_Error bt) ""); [done|]. by eexists.
    - rewrite Hratio. destruct (negb _); [by eexists|]. destruct (_ && _); [by eexists|].
      destruct (PrimFloat.ltb ratio threshold); by eexists. }
  destruct Htotal as [st' Hrun]. exists st'. split; [exact Hrun|].
  destruct (forM_writeStep_frame _ rMap Hinj _ _ _ Hrun) as [Hother Hframe].
  split; [|split; [|exact Hframe]].
  - clear Hother Hframe Hok. revert st Hrun.
    induction (map_to_list (Bridges resp)) as [|[l obt] entries IH]; intros st Hrun p;
      cbn [forM] in Hrun; [by injection Hrun as <-|].
    destruct (writeStep (TestPool.onbascaEntry threshold) rMap st (l, obt)) as [st1|] eqn:Hstep;
      [|done].
    cbn [mbind option_bind] in Hrun. destruct (IH st1 Hrun p) as (H1 & H2 & H3 & H4).
    rewrite H1, H2, H3, H4. clear IH Hrun H1 H2 H3 H4.
    apply writeStep_Some in Hstep as [[_ ->]|(r0 & bt & rt & _ & _ & He & ->)]; [done|].
    destruct (decide (Ptr r0 = p)) as [<-|Hne]; [|by rewrite fn_lookup_insert_ne].
    rewrite fn_lookup_insert. unfold TestPool.onbascaEntry in He.
    destruct (negb _) in He; [by injection He as <-|].
    destruct (_ && _) in He; [by injection He as <-|].
    destruct (BT_Ratio bt) as [ratio|]; [|done].
    destruct (PrimFloat.ltb ratio threshold); by injection He as <-.
  - intros _ line r bt Hr Hbt. unfold TestResult.
    destruct (forM_writeStep_at (TestPool.onbascaEntry threshold) rMap Hinj _ _ _
                (NoDup_fst_map_to_list _) Hrun line r (Some bt) Hr) as (bt' & Heq & Hat);
      [by apply elem_of_map_to_list|].
    by injection Heq as <-.
Qed.

(** A pool with one bridge line and a response for it. *)
Definition dummy_pool : gmap string Resource := {[ String_ (NewDummy 1 1 1) := NewDummy 1 1 1 ]}.

Definition dummy_response (entry : option BridgeTest) : BridgeTestResponse :=
  {| Bridges := {[ String_ (NewDummy 1 1 1) := entry ]}; Response_Error := "" |}.

Lemma dummy_pool_objects l1 l2 r1 r2 :
  dummy_pool !! l1 = Some r1 -> dummy_pool !! l2 = Some r2 -> Ptr r1 = Ptr r2 -> l1 = l2.
Proof.
  unfold dummy_pool. intros H1 H2 _.
  apply lookup_singleton_Some in H1 as [<- _]. by apply lookup_singleton_Some in H2 as [<- _].
Qed.

Lemma X18_testBridgestrap_writes_witness :
  testBridgestrap dummy_pool (Some (dummy_response None)) (fun _ => passingTest) = None.
Proof.
  refine (proj1 (proj1 (X18_testBridgestrap_writes dummy_pool (dummy_response None)
                          (fun _ => passingTest) dummy_pool_objects) eq_refl)
                (String_ (NewDummy 1 1 1)) (NewDummy 1 1 1) _ _).
  - unfold dummy_pool. apply lookup_singleton_eq.
  - unfold dummy_response. cbn [Bridges]. apply lookup_singleton_eq.
Defined.

Lemma X19_testOnbasca_returns_witness :
  exists st' : Store,
    TestPool.testOnbasca 1%float dummy_pool
      (Some (dummy_response (Some {| Functional := true; BT_LastTested := None;
                                     BT_Ratio := Some 2%float; BT_Error := "" |})))
      (fun _ => passingTest) = Some st' /\
    (forall p, State (st' p) = State passingTest /\ Error (st' p) = Error passingTest /\
               LastTested (st' p) = LastTested passingTest /\
               LastPassed (st' p) = LastPassed passingTest) /\
    (Response_Error
       (dummy_response (Some {| Functional := true; BT_LastTested := None;
                                BT_Ratio := Some 2%float; BT_Error := "" |})) = "" ->
       forall line r bt, dummy_pool !! line = Some r ->
         Bridges (dummy_response (Some {| Functional := true; BT_LastTested := None;
                                          BT_Ratio := Some 2%float; BT_Error := "" |})) !! line
           = Some (Some bt) ->
         TestPool.onbascaEntry 1%float bt (TestResult (fun _ => passingTest) r)
         = Some (TestResult st' r)) /\
    (forall p, (forall line r, dummy_pool !! line = Some r -> Ptr r <> p) ->
               st' p = passingTest).
Proof.
  refine (X19_testOnbasca_returns 1%float dummy_pool
            (dummy_response (Some {| Functional := true; BT_LastTested := None;
                                     BT_Ratio := Some 2%float; BT_Error := "" |}))
            (fun _ => passingTest) dummy_pool_objects _).
  intros line r entry _ Hbt. unfold dummy_response in Hbt. cbn [Bridges] in Hbt.
  apply lookup_singleton_Some in Hbt as [_ <-]. eexists. split; [done|]. right. by eexists.
Defined.

(** * The dispatcher of the test pool (src/internal/resourcetest.go) *)

Definition MaxResources : nat := 25.
Definition FarInTheFuture : time_Duration := hour * 24 * 365 * 100.

(** The state [dispatch] and its goroutines share: the pool [rMap] of the
    loop, the set [p.inProgress], the maps handed to the calls of
    [testResources] that have not returned yet, and the period of the
    ticker. *)
Record pool := mkPool {
  rMap_ : gmap string Resource;
  inProgress : gset string;
  running : list (gmap string Resource);
  tickerPeriod : time_Duration
}.

(** What can happen: the ticker fires, a resource arrives on [p.pending], or
    the [i]-th running call of [testResources] runs its deferred function and
    returns. *)
Inductive pool_event := Tick | Pending (r : Resource) | Returned (i : nat).

(** [alreadyInProgress]. *)
Definition alreadyInProgress (bridgeLine : string) (p : pool) : bool * pool :=
  if decide (bridgeLine ∈ inProgress p) then (true, p)
  else (false, {| rMap_ := rMap_ p; inProgress := {[ bridgeLine ]} ∪ inProgress p;
                  running := running p; tickerPeriod := tickerPeriod p |}).

(** One round of the loop of [dispatch], or the return of a call of
    [testResources]. *)
Definition dispatch_step (flushTimeout : time_Duration) (p : pool) (ev : pool_event) : pool :=
  match ev with
  | Tick =>
      {| rMap_ := ∅; inProgress := inProgress p; running := running p ++ [rMap_ p];
         tickerPeriod := tickerPeriod p |}
  | Pending r =>
      let '(busy, p) := alreadyInProgress (String_ r) p in
      if busy then p
      else
        let period := if decide (size (rMap_ p) = 0%nat) then flushTimeout
                      else tickerPeriod p in
        let rMap := <[String_ r := r]> (rMap_ p) in
        if decide (size rMap = MaxResources) then
          {| rMap_ := ∅; inProgress := inProgress p; running := running p ++ [rMap];
             tickerPeriod := FarInTheFuture |}
        else
          {| rMap_ := rMap; inProgress := inProgress p; running := running p;
             tickerPeriod := period |}
  | Returned i =>
      match running p !! i with
      | None => p
      | Some rMap =>
          {| rMap_ := rMap_ p; inProgress := inProgress p ∖ dom rMap;
             running := delete i (running p); tickerPeriod := tickerPeriod p |}
      end
  end.

(** [NewResourceTestPool] and the first lines of [dispatch]. *)
Definition NewResourceTestPool : pool :=
  {| rMap_ := ∅; inProgress := ∅; running := []; tickerPeriod := FarInTheFuture |}.

Definition dispatch (flushTimeout : time_Duration) (events : list pool_event) : pool :=
  foldl (dispatch_step flushTimeout) NewResourceTestPool events.

(** In how many of the pool and the running batches a bridge line is. *)
Definition holders (line : string) (p : pool) : nat :=
  ((if decide (line ∈ dom (rMap_ p)) then 1 else 0)
   + length (filter (fun b : gmap string Resource => line ∈ dom b) (running p)))%nat.

Definition pool_ok (p : pool) : Prop :=
  (size (rMap_ p) < MaxResources)%nat /\
  Forall (fun b : gmap string Resource => (size b <= MaxResources)%nat) (running p) /\
  (forall line, holders line p = if decide (line ∈ inProgress p) then 1%nat else 0%nat) /\
  (forall b line r, b ∈ rMap_ p :: running p -> b !! line = Some r -> String_ r = line).

Lemma filter_delete_length {A} (P : A -> Prop) `{forall x, Decision (P x)} (l : list A) i b :
  l !! i = Some b ->
  length (filter P l) =
    (length (filter P (delete i l)) + (if decide (P b) then 1 else 0))%nat.
Proof.
  intros Hi. rewrite delete_take_drop. rewrite <- (take_drop_middle l i b Hi) at 1.
  rewrite !filter_app, !length_app, filter_cons. destruct (decide (P b)); cbn [length]; lia.
Qed.

Lemma dispatch_step_ok flushTimeout (p : pool) (ev : pool_event) :
  pool_ok p -> pool_ok (dispatch_step flushTimeout p ev).
Proof.
  intros (Hsize & Hbatches & Hhold & Hlines). destruct ev as [|r|i]; cbn [dispatch_step].
  - split; [|split; [|split]]; cbn [rMap_ running inProgress].
    + rewrite map_size_empty. unfold MaxResources. lia.
    + apply Forall_app. split; [done|]. apply Forall_singleton. lia.
    + intros line. rewrite <- Hhold. unfold holders. cbn [rMap_ running].
      rewrite dom_empty_L, filter_app, length_app. rewrite decide_False by set_solver.
      rewrite filter_cons, filter_nil. destruct (decide (line ∈ dom (rMap_ p))); cbn; lia.
    + intros b line r0 Hb Hl. apply elem_of_cons in Hb as [->|Hb]; [done|].
      apply elem_of_app in Hb as [Hb|Hb].
      * apply (Hlines b); [by right | done].
      * apply list_elem_of_singleton in Hb as ->. apply (Hlines (rMap_ p)); [by left | done].
  - unfold alreadyInProgress. destruct (decide (String_ r ∈ inProgress p)) as [Hbusy|Hfree];
      [by repeat split|].
    cbn [rMap_ inProgress running tickerPeriod].
    pose proof (Hhold (String_ r)) as Hline. rewrite decide_False in Hline by done.
    unfold holders in Hline.
    assert (Hnew : String_ r ∉ dom (rMap_ p)).
    { intros Hin. rewrite decide_True in Hline by done. lia. }
    assert (Hnone : length (filter (fun b : gmap string Resource => String_ r ∈ dom b)
                              (running p)) = 0%nat).
    { destruct (decide (String_ r ∈ dom (rMap_ p))); lia. }
    assert (Hsz : size (<[String_ r := r]> (rMap_ p)) = S (size (rMap_ p))).
    { apply map_size_insert_None. by apply not_elem_of_dom. }
    assert (Hins : forall line r0, <[String_ r := r]> (rMap_ p) !! line = Some r0 ->
                                   String_ r0 = line).
    { intros line r0 Hl. apply lookup_insert_Some in Hl as [[<- <-]|[_ Hl]]; [done|].
      apply (Hlines (rMap_ p)); [by left | done]. }
    assert (Hcount : forall line,
              ((if decide (line ∈ dom (<[String_ r := r]> (rMap_ p))) then 1 else 0)
               + length (filter (fun b : gmap string Resource => line ∈ dom b) (running p))
               = if decide (line ∈ ({[ String_ r ]} ∪ inProgress p : gset string))
                 then 1 else 0)%nat).
    { intros line.
      assert (Hdom : line ∈ dom (<[String_ r := r]> (rMap_ p))
                     <-> line = String_ r \/ line ∈ dom (rMap_ p)).
      { rewrite dom_insert_L, elem_of_union, elem_of_singleton. tauto. }
      assert (Hprog : line ∈ ({[ String_ r ]} ∪ inProgress p : gset string)
                      <-> line = String_ r \/ line ∈ inProgress p).
      { rewrite elem_of_union, elem_of_singleton. tauto. }
      pose proof (Hhold line) as Hl. unfold holders in Hl.
      destruct (decide (line = String_ r)) as [->|Hne].
      - rewrite decide_True by (apply Hdom; by left).
        rewrite decide_True by (apply Hprog; by left). lia.
      - destruct (decide (line ∈ dom (rMap_ p))) as [Hd|Hd];
          destruct (decide (line ∈ inProgress p)) as [Hp|Hp].
        + rewrite decide_True by (apply Hdom; by right).
          rewrite decide_True by (apply Hprog; by right). lia.
        + lia.
        + rewrite decide_False by (rewrite Hdom; tauto).
          rewrite decide_True by (apply Hprog; by right). lia.
        + rewrite decide_False by (rewrite Hdom; tauto).
          rewrite decide_False by (rewrite Hprog; tauto). lia. }
    destruct (decide (size (<[String_ r := r]> (rMap_ p)) = MaxResources)) as [Hfull|Hroom].
    + split; [|split; [|split]]; cbn [rMap_ running inProgress].
      * rewrite map_size_empty. unfold MaxResources. lia.
      * apply Forall_app. split; [done|]. apply Forall_singleton. lia.
      * intros line. rewrite <- Hcount. unfold holders. cbn [rMap_ running].
        rewrite dom_empty_L, filter_app, length_app. rewrite decide_False by set_solver.
        rewrite filter_cons, filter_nil.
        destruct (decide (line ∈ dom (<[String_ r := r]> (rMap_ p)))); cbn; lia.
      * intros b line r0 Hb Hl. apply elem_of_cons in Hb as [->|Hb]; [done|].
        apply elem_of_app in Hb as [Hb|Hb].
        -- apply (Hlines b); [by right | done].
        -- apply list_elem_of_singleton in Hb as ->. by apply Hins.
    + split; [|split; [|split]]; cbn [rMap_ running inProgress].
      * lia.
      * done.
      * intros line. rewrite <- Hcount. reflexivity.
      * intros b line r0 Hb Hl. apply elem_of_cons in Hb as [->|Hb]; [by apply Hins|].
        apply (Hlines b); [by right | done].
  - destruct (running p !! i) as [batch|] eqn:Hi; [|by repeat split].
    split; [|split; [|split]]; cbn [rMap_ running inProgress].
    + done.
    + rewrite delete_take_drop. apply Forall_app. split.
      * by apply Forall_take.
      * by apply Forall_drop.
    + intros line. pose proof (Hhold line) as Hl. unfold holders in *. cbn [rMap_ running].
      rewrite (filter_delete_length _ (running p) i batch Hi) in Hl.
      destruct (decide (line ∈ dom batch)) as [Hb|Hb].
      * rewrite (decide_False (P := line ∈ inProgress p ∖ dom batch))
          by (rewrite elem_of_difference; tauto).
        destruct (decide (line ∈ dom (rMap_ p))); destruct (decide (line ∈ inProgress p)); lia.
      * destruct (decide (line ∈ inProgress p)) as [Hp|Hp].
        -- rewrite (decide_True (P := line ∈ inProgress p ∖ dom batch))
             by (by apply elem_of_difference). lia.
        -- rewrite (decide_False (P := line ∈ inProgress p ∖ dom batch))
             by (rewrite elem_of_difference; tauto). lia.
    + intros b line r0 Hb Hl. apply (Hlines b); [|done].
      apply elem_of_cons in Hb as [->|Hb]; [by left | right].
      rewrite delete_take_drop in Hb. apply elem_of_app in Hb as [Hb|Hb].
      * by apply (subseteq_take i (running p)).
      * by apply (subseteq_drop (S i) (running p)).
Qed.

(** X20: whatever the order in which resources arrive, the ticker fires and
    the calls of testResources return, the pool of the dispatcher holds fewer
    than 25 resources and a batch handed to testResources at most 25; a
    bridge line is marked in progress exactly when it is in the pool or in a
    batch whose call has not returned, and it is never in two of them; and
    every resource is filed under its own bridge line. *)
Theorem X20_dispatch_invariant (flushTimeout : time_Duration) (events : list pool_event) :
  let p := dispatch flushTimeout events in
  (size (rMap_ p) < MaxResources)%nat /\
  Forall (fun b : gmap string Resource => (size b <= MaxResources)%nat) (running p) /\
  (forall line, holders line p = if decide (line ∈ inProgress p) then 1%nat else 0%nat) /\
  (forall b line r, b ∈ rMap_ p :: running p -> b !! line = Some r -> String_ r = line).
Proof.
  cbv zeta. unfold dispatch.
  assert (Hinit : pool_ok NewResourceTestPool).
  { unfold pool_ok, holders, NewResourceTestPool. cbn [rMap_ running inProgress].
    split; [|split; [|split]].
    - rewrite map_size_empty. unfold MaxResources. lia.
    - constructor.
    - intros line. rewrite dom_empty_L, filter_nil.
      destruct (decide (line ∈ (∅ : gset string))) as [Hin|_]; [set_solver | done].
    - intros b line r Hb Hl. apply list_elem_of_singleton in Hb as ->.
      by rewrite lookup_empty in Hl. }
  revert Hinit. generalize NewResourceTestPool.
  induction events as [|ev events IH]; intros p Hp; cbn [foldl]; [exact Hp|].
  apply IH. by apply dispatch_step_ok.
Qed.

(** * Reading a partitioned hashring (the second part of
      src/pkg/core/collection.go) *)

Lemma Len_cons_fold (l : list (string * Hashring)) :
  foldr (fun kv count => (count + length kv.2)%nat) 0%nat l
  = length (concat ((fun kv => GetAll kv.2) <$> l)).
Proof.
  induction l as [|kv l IH]; [done|]. cbn [foldr fmap list_fmap concat].
  change (list_fmap _ _ ?f l) with (f <$> l).
  rewrite length_app, IH. unfold GetAll. rewrite length_fmap. lia.
Qed.

Lemma Filter_concat (f : FilterFunc) (l : list (string * Hashring)) :
  concat ((fun kv => Filter f kv.2) <$> l)
  = filter (fun r => f r = true) (concat ((fun kv => GetAll kv.2) <$> l)).
Proof.
  induction l as [|kv l IH]; [done|]. cbn [fmap list_fmap concat].
  change (list_fmap _ _ ?g l) with (g <$> l).
  rewrite filter_app, IH. f_equal.
Qed.

(** X21: the readers of a partitioned hashring agree with each other,
    whatever the order the partitions are ranged over in: Len is the number
    of resources GetAll returns, Filter returns the resources of GetAll that
    pass the filter, and a resource is returned by GetAll exactly when the
    ring of some partition holds it.  After Clear every partition is still
    there and empty, GetAll returns nothing, and a resource is assigned to
    the partition it was assigned to before: the relations are not
    forgotten. *)
Theorem X21_partitioned_readers `{MathRand} (p : partitionedHashring) (f : FilterFunc) :
  Partitioned.Len p = length (Partitioned.GetAll p) /\
  Partitioned.Filter f p = filter (fun r => f r = true) (Partitioned.GetAll p) /\
  (forall r, r ∈ Partitioned.GetAll p <->
             exists name h, partitions p !! name = Some h /\ r ∈ GetAll h) /\
  Partitioned.GetAll (Partitioned.Clear p) = [] /\
  Partitioned.Len (Partitioned.Clear p) = 0%nat /\
  (forall name, Partitioned.getHashring name (Partitioned.Clear p)
                = (fun _ => NewHashring) <$> Partitioned.getHashring name p) /\
  (forall r, Partitioned.getPartitionName (Partitioned.Clear p) r
             = Partitioned.getPartitionName p r) /\
  (forall r, WithDistributors.getPartitionName (Partitioned.Clear p) r
             = WithDistributors.getPartitionName p r).
Proof.
  assert (Hall : forall q : partitionedHashring,
            (forall name h, partitions q !! name = Some h -> h = []) ->
            Partitioned.GetAll q = []).
  { intros q Hq. unfold Partitioned.GetAll.
    assert (Hl : forall kv, kv ∈ map_to_list (partitions q) -> GetAll kv.2 = []).
    { intros [name h] Hin. apply elem_of_map_to_list in Hin. by rewrite (Hq name h Hin). }
    induction (map_to_list (partitions q)) as [|kv l IH]; [done|].
    cbn [fmap list_fmap concat]. change (list_fmap _ _ ?g l) with (g <$> l).
    rewrite (Hl kv) by (by left). cbn [app]. apply IH. intros kv' Hin. apply Hl. by right. }
  assert (Hclear : Partitioned.GetAll (Partitioned.Clear p) = []).
  { apply Hall. intros name h. cbn [partitions Partitioned.Clear]. rewrite lookup_fmap.
    destruct (partitions p !! name); [|done]. by intros [= <-]. }
  assert (Hsome : forall nm, is_Some (partitions (Partitioned.Clear p) !! nm)
                             <-> is_Some (partitions p !! nm)).
  { intros nm. cbn [partitions Partitioned.Clear]. rewrite lookup_fmap.
    destruct (partitions p !! nm); cbn; split; intros [x Hx]; by eauto. }
  assert (Hname : forall r, Partitioned.getPartitionName (Partitioned.Clear p) r
                            = Partitioned.getPartitionName p r).
  { intros r. unfold Partitioned.getPartitionName.
    by rewrite (relatedPartition_ext p (Partitioned.Clear p)). }
  split; [apply Len_cons_fold|]. split; [apply Filter_concat|]. split; [|split; [done|]].
  - intros r. unfold Partitioned.GetAll. rewrite elem_of_concat. split.
    + intros (l & Hr & Hl). apply list_elem_of_fmap in Hl as ([name h] & -> & Hin).
      apply elem_of_map_to_list in Hin. by exists name, h.
    + intros (name & h & Hp & Hr). exists (GetAll h). split; [done|].
      apply (list_elem_of_fmap_2 (fun kv : string * Hashring => GetAll kv.2) _ (name, h)).
      by apply elem_of_map_to_list.
  - split; [|split; [|split; [done|]]].
    + unfold Partitioned.Len. rewrite Len_cons_fold.
      change (length (Partitioned.GetAll (Partitioned.Clear p)) = 0%nat). by rewrite Hclear.
    + intros name. unfold Partitioned.getHashring. cbn [partitions Partitioned.Clear].
      by rewrite lookup_fmap.
    + intros r. unfold WithDistributors.getPartitionName. rewrite Hname.
      destruct (decide (Distributor r = "")); [done|].
      destruct (decide (is_Some (partitions p !! Distributor r))) as [Hs|Hs].
      * rewrite decide_True; [done | by apply Hsome].
      * rewrite decide_False; [done | by rewrite Hsome].
Qed.

(** * Building the backend (src/pkg/core/collection.go, the second part of
      src/pkg/core/domain.go) *)

(** [TypeConfig], without the fields of the persistent store: the
    configurations considered have no [StorageDir]. *)
Record TypeConfig := mkTypeConfig {
  Type_ : string;
  Unpartitioned : bool;
  Proportions : gmap string Z
}.

(** [NewCollection] for a configuration without [StorageDir]. *)
Definition NewCollection (types : list TypeConfig) : Collection :=
  foldl (fun c rc =>
           <[Type_ rc := if Unpartitioned rc then GroupHashring NewHashring
                         else GroupPartitioned (newPartitionedHashring (Proportions rc))]> c)
        ∅ types.

(** The second loop of [NewBackendResources]; [None] is the panic of the
    type assertion in [newPartitionedWithDistributors] on a group that is
    not a pointer to a [partitionedHashring]. *)
Definition wrap_distributors (c : Collection) (rc : TypeConfig) : option Collection :=
  if Unpartitioned rc then Some c
  else
    match c !! Type_ rc with
    | Some (GroupPartitioned p) =>
        Some (<[Type_ rc :=
                  GroupWithDistributors (WithDistributors.newPartitionedWithDistributors p)]> c)
    | _ => None
    end.

Definition NewBackendResources (types : list TypeConfig) : option BackendResources :=
  c ← forM wrap_distributors (NewCollection types) types;
  Some {| Collection_ := c; OnlyFunctional := false; UseBandwidthRatio := false;
          EventRecipients := ∅ |}.

(** The group a type ends up with. *)
Definition group_of (rc : TypeConfig) : ResourceGroup :=
  if Unpartitioned rc then GroupHashring NewHashring
  else GroupWithDistributors
         (WithDistributors.newPartitionedWithDistributors
            (newPartitionedHashring (Proportions rc))).

Lemma forM_app {S A} (f : S -> A -> option S) (l1 l2 : list A) : forall s,
  forM f s (l1 ++ l2) = s' ← forM f s l1; forM f s' l2.
Proof.
  induction l1 as [|x l1 IH]; intros s; cbn [app forM]; [done|].
  destruct (f s x) as [s1|]; cbn [mbind option_bind]; [apply IH | done].
Qed.

Lemma NewCollection_lookup (types : list TypeConfig) :
  NoDup (Type_ <$> types) ->
  (forall rc, rc ∈ types ->
     NewCollection types !! Type_ rc =
       Some (if Unpartitioned rc then GroupHashring NewHashring
             else GroupPartitioned (newPartitionedHashring (Proportions rc)))) /\
  (forall t, t ∉ Type_ <$> types -> NewCollection types !! t = None).
Proof.
  unfold NewCollection.
  assert (Hgen : forall l (c : Collection),
            NoDup (Type_ <$> l) ->
            let c' := foldl (fun c rc =>
                 <[Type_ rc := if Unpartitioned rc then GroupHashring NewHashring
                               else GroupPartitioned (newPartitionedHashring (Proportions rc))]> c)
                 c l in
            (forall rc, rc ∈ l ->
               c' !! Type_ rc =
                 Some (if Unpartitioned rc then GroupHashring NewHashring
                       else GroupPartitioned (newPartitionedHashring (Proportions rc)))) /\
            (forall t, t ∉ Type_ <$> l -> c' !! t = c !! t)).
  { induction l as [|rc0 l IH]; intros c Hnd; cbn [foldl].
    - split; [intros rc Hin; by apply elem_of_nil in Hin | done].
    - rewrite fmap_cons in Hnd. apply NoDup_cons in Hnd as [Hnotin Hnd].
      destruct (IH (<[Type_ rc0 := if Unpartitioned rc0 then GroupHashring NewHashring
                       else GroupPartitioned (newPartitionedHashring (Proportions rc0))]> c) Hnd)
        as [Hin Hout].
      split.
      + intros rc Hrc. apply elem_of_cons in Hrc as [->|Hrc]; [|by apply Hin].
        rewrite (Hout _ Hnotin). by rewrite lookup_insert_eq.
      + intros t Ht. rewrite fmap_cons, not_elem_of_cons in Ht. destruct Ht as [Hne Ht].
        rewrite (Hout t Ht). by rewrite lookup_insert_ne. }
  intros Hnd. destruct (Hgen types ∅ Hnd) as [Hin Hout]. split; [done|].
  intros t Ht. by rewrite (Hout t Ht).
Qed.

Lemma forM_wrap_distributors : forall (l : list TypeConfig) (c : Collection),
  NoDup (Type_ <$> l) ->
  (forall rc, rc ∈ l ->
     c !! Type_ rc =
       Some (if Unpartitioned rc then GroupHashring NewHashring
             else GroupPartitioned (newPartitionedHashring (Proportions rc)))) ->
  exists c', forM wrap_distributors c l = Some c' /\
    (forall rc, rc ∈ l -> c' !! Type_ rc = Some (group_of rc)) /\
    (forall t, t ∉ Type_ <$> l -> c' !! t = c !! t).
Proof.
  induction l as [|rc0 l IH]; intros c Hnd Hc; cbn [forM].
  - exists c. split; [done|]. split; [|done]. intros rc Hin. by apply elem_of_nil in Hin.
  - rewrite fmap_cons in Hnd. apply NoDup_cons in Hnd as [Hnotin Hnd].
    pose proof (Hc rc0 ltac:(by left)) as H0.
    assert (Hstep : exists c1, wrap_distributors c rc0 = Some c1 /\
              c1 !! Type_ rc0 = Some (group_of rc0) /\
              forall t, t <> Type_ rc0 -> c1 !! t = c !! t).
    { unfold wrap_distributors, group_of. destruct (Unpartitioned rc0).
      - exists c. by repeat split.
      - rewrite H0. eexists. split; [done|]. split; [by rewrite lookup_insert_eq|].
        intros t Hne. by rewrite lookup_insert_ne. }
    destruct Hstep as (c1 & -> & Hc1 & Hother). cbn [mbind option_bind].
    destruct (IH c1 Hnd) as (c' & Hrun & Hin & Hout).
    { intros rc Hrc. rewrite Hother; [apply Hc; by right|].
      intros Heq. apply Hnotin. rewrite <- Heq. by apply list_elem_of_fmap_2. }
    exists c'. split; [done|]. split.
    + intros rc Hrc. apply elem_of_cons in Hrc as [->|Hrc]; [|by apply Hin].
      by rewrite (Hout _ Hnotin).
    + intros t Ht. rewrite fmap_cons, not_elem_of_cons in Ht. destruct Ht as [Hne Ht].
      rewrite (Hout t Ht). by apply Hother.
Qed.

Lemma forM_wrap_distributors_twice t (rc2 : TypeConfig) : forall (l : list TypeConfig) c p,
  c !! t = Some (GroupWithDistributors p) ->
  rc2 ∈ l -> Type_ rc2 = t -> Unpartitioned rc2 = false ->
  forM wrap_distributors c l = None.
Proof.
  induction l as [|rc l IH]; intros c p Hc Hin Ht Hpart; [by apply elem_of_nil in Hin|].
  cbn [forM]. destruct (wrap_distributors c rc) as [c1|] eqn:Hstep; [|done].
  cbn [mbind option_bind]. unfold wrap_distributors in Hstep.
  destruct (Unpartitioned rc) eqn:Hun.
  - injection Hstep as <-. apply (IH c p Hc); [|done..].
    apply elem_of_cons in Hin as [->|Hin]; [congruence | done].
  - destruct (decide (Type_ rc = t)) as [Heq|Hne]; [by rewrite Heq, Hc in Hstep|].
    destruct (c !! Type_ rc) as [[h|q|q]|]; [done| |done|done].
    injection Hstep as <-. apply (IH _ p); [by rewrite lookup_insert_ne| |done..].
    apply elem_of_cons in Hin as [->|Hin]; [congruence | done].
Qed.

(** X22: for a configuration whose types have pairwise different names,
    NewBackendResources returns a backend that has, for every configured
    type and no other, a plain empty hashring when the type is unpartitioned
    and otherwise an empty partitioned hashring with one partition for each
    name of the proportions and the partition ["none"]; no recipient is
    registered.  A configuration that lists a partitioned type twice makes
    it panic. *)
Theorem X22_NewBackendResources (types : list TypeConfig) :
  (NoDup (Type_ <$> types) ->
   exists ctx, NewBackendResources types = Some ctx /\
     (forall rc, rc ∈ types -> Collection_ ctx !! Type_ rc = Some (group_of rc)) /\
     (forall t, t ∉ Type_ <$> types -> Collection_ ctx !! t = None) /\
     EventRecipients ctx = ∅ /\
     (forall rc, rc ∈ types -> group_ok (Proportions rc) (group_of rc))) /\
  (forall pre mid post rc1 rc2,
     types = pre ++ rc1 :: mid ++ rc2 :: post ->
     Type_ rc1 = Type_ rc2 -> Unpartitioned rc1 = false -> Unpartitioned rc2 = false ->
     NewBackendResources types = None).
Proof.
  split.
  - intros Hnd. destruct (NewCollection_lookup types Hnd) as [Hin Hout].
    destruct (forM_wrap_distributors types (NewCollection types) Hnd Hin)
      as (c' & Hrun & Hin' & Hout').
    unfold NewBackendResources. rewrite Hrun. cbn [mbind option_bind]. eexists.
    split; [done|]. cbn [Collection_ EventRecipients]. split; [done|]. split.
    + intros t Ht. rewrite (Hout' t Ht). by apply Hout.
    + split; [done|]. intros rc _. unfold group_of. destruct (Unpartitioned rc).
      * split; constructor.
      * apply newPartitioned_ok.
  - intros pre mid post rc1 rc2 -> Ht Hp1 Hp2. unfold NewBackendResources.
    set (c := NewCollection _). rewrite forM_app.
    destruct (forM wrap_distributors c pre) as [c1|]; [|done]. cbn [mbind option_bind forM].
    destruct (wrap_distributors c1 rc1) as [c2|] eqn:Hstep; [|done].
    cbn [mbind option_bind]. unfold wrap_distributors in Hstep. rewrite Hp1 in Hstep.
    destruct (c1 !! Type_ rc1) as [[h|q|q]|] eqn:Hc1; [done| |done|done].
    injection Hstep as <-.
    rewrite (forM_wrap_distributors_twice (Type_ rc1) rc2 (mid ++ rc2 :: post) _
               (WithDistributors.newPartitionedWithDistributors q)); [done| | |done..].
    + by rewrite lookup_insert_eq.
    + apply elem_of_app. right. by left.
Qed.

(** * Applying a diff to a collection whose groups are in order *)

Definition proportions_ok (proportions : gmap string Z) : Prop :=
  (forall k w, proportions !! k = Some w -> 0 < w) /\
  proportions <> ∅ /\
  total_weight proportions < 2 ^ 63.

Definition coll_ok (c : Collection) : Prop :=
  forall t g, c !! t = Some g ->
    exists proportions, proportions_ok proportions /\ group_ok proportions g.

(** Every type a part of a diff lists a resource for is registered. *)
Definition types_registered (part : ResourceMap) (c : Collection) : Prop :=
  forall t rs, part !! t = Some rs -> rs <> [] -> is_Some (c !! t).

Section CollectionInOrder.

Context `{MathRand}.
Hypothesis Intn_ok : Intn_in_range.

Lemma insert_coll_ok (c : Collection) t g proportions :
  coll_ok c -> proportions_ok proportions -> group_ok proportions g ->
  coll_ok (<[t := g]> c).
Proof.
  intros Hc Hp Hg t' g' Hl. apply lookup_insert_Some in Hl as [[_ <-]|[_ Hl]]; [eauto|].
  by apply (Hc t' g').
Qed.

Lemma insert_same_types (c : Collection) t g t' :
  is_Some (c !! t) -> is_Some (<[t := g]> c !! t') <-> is_Some (c !! t').
Proof.
  intros Ht. rewrite lookup_insert_is_Some'. split; [|tauto]. by intros [<-|?].
Qed.

(** What the three calls of [ApplyDiff] have in common. *)
Definition keeps_order (f : string -> world -> Resource -> option world) : Prop :=
  forall t w r, coll_ok (w_coll w) -> is_Some (w_coll w !! t) ->
    exists w', f t w r = Some w' /\ coll_ok (w_coll w') /\
      forall t', is_Some (w_coll w' !! t') <-> is_Some (w_coll w !! t').

Lemma add_one_keeps_order now : keeps_order (Coll.add_one now).
Proof.
  intros t w r Hc [g Hg]. destruct (Hc t g Hg) as (proportions & (Hpos & Hne & Hsum) & Hok).
  destruct (group_methods_total proportions Intn_ok Hpos Hne Hsum (w_store w) now r g Hok)
    as ((x & Hx & Hokx) & _).
  unfold Coll.add_one. rewrite Hg. cbn [mbind option_bind]. rewrite Hx. cbn [mbind option_bind].
  eexists. split; [done|]. cbn [w_coll]. split.
  - by apply (insert_coll_ok _ _ _ proportions).
  - intros t'. apply insert_same_types. by eexists.
Qed.

Lemma update_one_keeps_order now : keeps_order (Coll.update_one now).
Proof.
  intros t w r Hc [g Hg]. destruct (Hc t g Hg) as (proportions & (Hpos & Hne & Hsum) & Hok).
  destruct (group_methods_total proportions Intn_ok Hpos Hne Hsum (w_store w) now r g Hok)
    as (_ & (x & Hx & Hokx) & _).
  unfold Coll.update_one. rewrite Hg. cbn [mbind option_bind]. rewrite Hx.
  cbn [mbind option_bind]. eexists. split; [done|]. cbn [w_coll]. split.
  - by apply (insert_coll_ok _ _ _ proportions).
  - intros t'. apply insert_same_types. by eexists.
Qed.

Lemma remove_one_keeps_order : keeps_order Coll.remove_one.
Proof.
  intros t w r Hc [g Hg]. destruct (Hc t g Hg) as (proportions & (Hpos & Hne & Hsum) & Hok).
  destruct (group_methods_total proportions Intn_ok Hpos Hne Hsum (w_store w) 0 r g Hok)
    as (_ & _ & (x & Hx & Hokx) & _).
  unfold Coll.remove_one. rewrite Hg. cbn [mbind option_bind]. rewrite Hx.
  cbn [mbind option_bind]. eexists. split; [done|]. cbn [w_coll]. split.
  - by apply (insert_coll_ok _ _ _ proportions).
  - intros t'. apply insert_same_types. by eexists.
Qed.

Lemma each_type_keeps_order f (part : ResourceMap) (w : world) :
  keeps_order f -> coll_ok (w_coll w) -> types_registered part (w_coll w) ->
  exists w', Coll.each_type f w (map_to_list part) = Some w' /\ coll_ok (w_coll w') /\
    forall t', is_Some (w_coll w' !! t') <-> is_Some (w_coll w !! t').
Proof.
  intros Hf Hc Hreg.
  assert (Hinner : forall t rs w0, coll_ok (w_coll w0) -> (rs <> [] -> is_Some (w_coll w0 !! t)) ->
            exists w', forM (f t) w0 rs = Some w' /\ coll_ok (w_coll w') /\
              forall t', is_Some (w_coll w' !! t') <-> is_Some (w_coll w0 !! t')).
  { intros t rs. induction rs as [|r rs IH]; intros w0 Hc0 Ht; cbn [forM].
    - exists w0. by repeat split.
    - destruct (Hf t w0 r Hc0 (Ht ltac:(done))) as (w1 & -> & Hc1 & Hsame1).
      cbn [mbind option_bind].
      destruct (IH w1 Hc1) as (w' & Hrun & Hc' & Hsame').
      { intros _. apply Hsame1. by apply Ht. }
      exists w'. split; [done|]. split; [done|]. intros t'. by rewrite Hsame', Hsame1. }
  assert (Hall : forall t rs, (t, rs) ∈ map_to_list part -> rs <> [] -> is_Some (w_coll w !! t)).
  { intros t rs Hin. apply elem_of_map_to_list in Hin. by apply Hreg. }
  unfold Coll.each_type. clear Hreg. revert w Hc Hall.
  induction (map_to_list part) as [|[t rs] entries IH]; intros w Hc Hall; cbn [forM].
  - exists w. by repeat split.
  - cbn [fst snd]. destruct (Hinner t rs w Hc) as (w1 & -> & Hc1 & Hsame1).
    { apply Hall. by left. }
    cbn [mbind option_bind]. destruct (IH w1 Hc1) as (w' & Hrun & Hc' & Hsame').
    { intros t' rs' Hin Hne. apply Hsame1. apply (Hall t' rs'); [by right | done]. }
    exists w'. split; [done|]. split; [done|]. intros t'. by rewrite Hsame', Hsame1.
Qed.

End CollectionInOrder.

(** X23: Collection.ApplyDiff returns, without the panic of a call on a
    group or a partition that is not there, whenever every group of the
    collection is in order, every type the diff lists a resource for is
    registered, and rand.Intn keeps to its range; the collection it leaves
    has the same types, every group of it in order again, whether or not
    the update is a full one. *)
Theorem X23_Collection_ApplyDiff_returns `{MathRand} now (d : ResourceDiff) (w : world) :
  Intn_in_range ->
  coll_ok (w_coll w) ->
  types_registered (New d) (w_coll w) ->
  types_registered (Changed d) (w_coll w) ->
  types_registered (Gone d) (w_coll w) ->
  exists w', Coll.ApplyDiff now d w = Some w' /\ coll_ok (w_coll w') /\
    forall t, is_Some (w_coll w' !! t) <-> is_Some (w_coll w !! t).
Proof.
  intros Hrange Hc HN HC HG. unfold Coll.ApplyDiff.
  set (w0 := if FullUpdate d then _ else w).
  assert (Hsame0 : forall t, is_Some (w_coll w0 !! t) <-> is_Some (w_coll w !! t)).
  { intros t. unfold w0. destruct (FullUpdate d); [|done]. cbn [w_coll].
    rewrite lookup_fmap. destruct (w_coll w !! t); cbn; split; intros [x Hx]; by eauto. }
  assert (Hc0 : coll_ok (w_coll w0)).
  { unfold w0. destruct (FullUpdate d); [|done]. cbn [w_coll]. intros t g Hl.
    rewrite lookup_fmap in Hl. destruct (w_coll w !! t) as [g0|] eqn:Hg0; [|done].
    injection Hl as <-. destruct (Hc t g0 Hg0) as (proportions & (Hpos & Hne & Hsum) & Hok).
    exists proportions. split; [done|].
    by destruct (group_methods_total proportions Hrange Hpos Hne Hsum (w_store w) now
                   (NewDummy 0 0 0) g0 Hok) as (_ & _ & _ & Hclear & _). }
  destruct (each_type_keeps_order _ (New d) w0 (add_one_keeps_order Hrange now) Hc0)
    as (w1 & -> & Hc1 & Hsame1).
  { intros t rs Hl Hne. apply Hsame0. by apply (HN t rs). }
  cbn [mbind option_bind].
  destruct (each_type_keeps_order _ (Changed d) w1 (update_one_keeps_order Hrange now) Hc1)
    as (w2 & -> & Hc2 & Hsame2).
  { intros t rs Hl Hne. apply Hsame1, Hsame0. by apply (HC t rs). }
  cbn [mbind option_bind].
  destruct (each_type_keeps_order _ (Gone d) w2 (remove_one_keeps_order Hrange) Hc2)
    as (w3 & -> & Hc3 & Hsame3).
  { intros t rs Hl Hne. apply Hsame2, Hsame1, Hsame0. by apply (HG t rs). }
  exists w3. split; [done|]. split; [done|]. intros t.
  by rewrite Hsame3, Hsame2, Hsame1, Hsame0.
Qed.

Lemma dummy_backend_coll_ok : coll_ok (Collection_ dummy_backend).
Proof.
  intros t g Hl. cbn [Collection_ dummy_backend] in Hl.
  apply lookup_singleton_Some in Hl as [_ <-]. exists dummy_proportions. split.
  - split; [apply dummy_proportions_positive|]. split; [apply dummy_proportions_nonempty|].
    vm_compute. reflexivity.
  - apply newPartitioned_ok.
Qed.

Lemma X23_Collection_ApplyDiff_returns_witness :
  exists w',
    @Coll.ApplyDiff modRand 3
      {| New := {[ "dummy" := [NewDummy 1 1 9] ]}; Changed := ∅; Gone := ∅;
         FullUpdate := true |}
      {| w_coll := Collection_ dummy_backend; w_store := fun _ => passingTest;
         w_tested := [] |} = Some w' /\
    coll_ok (w_coll w') /\
    forall t, is_Some (w_coll w' !! t) <-> is_Some (Collection_ dummy_backend !! t).
Proof.
  refine (@X23_Collection_ApplyDiff_returns modRand 3
            {| New := {[ "dummy" := [NewDummy 1 1 9] ]}; Changed := ∅; Gone := ∅;
               FullUpdate := true |}
            {| w_coll := Collection_ dummy_backend; w_store := fun _ => passingTest;
               w_tested := [] |} modRand_in_range dummy_backend_coll_ok _ _ _).
  - intros t rs Hl _. cbn [New] in Hl. apply lookup_singleton_Some in Hl as [<- _].
    cbn [w_coll Collection_ dummy_backend]. rewrite lookup_singleton_eq. by eexists.
  - intros t rs Hl. cbn [Changed] in Hl. by rewrite lookup_empty in Hl.
  - intros t rs Hl. cbn [Gone] in Hl. by rewrite lookup_empty in Hl.
Defined.

(** * Location sets (src/pkg/core/domain.go) *)

(** [LocationSet]: a map from the string of a location to [true]. *)
Abbreviation LocationSet := (gmap string bool).

(** [HasLocationsNotIn]: the loop leaves with [true] at the first key of
    [s1] that [s2] lacks. *)
Definition HasLocationsNotIn (s1 s2 : LocationSet) : bool :=
  existsb (fun key => negb (bool_decide (is_Some (s2 !! key)))) (map_keys s1).

(** [ResourceBase.SetBlockedIn]: the map [r.RBlockedIn] after the call. *)
Definition SetBlockedIn (l : LocationSet) (RBlockedIn : LocationSet) : LocationSet :=
  foldl (fun m key => <[key := true]> m) RBlockedIn (map_keys l).

Lemma SetBlockedIn_lookup (l b : LocationSet) key :
  SetBlockedIn l b !! key = if decide (is_Some (l !! key)) then Some true else b !! key.
Proof.
  unfold SetBlockedIn.
  assert (Hgen : forall keys (m : LocationSet),
            foldl (fun m key => <[key := true]> m) m keys !! key =
              if decide (key ∈ keys) then Some true else m !! key).
  { induction keys as [|k keys IH]; intros m; cbn [foldl].
    - rewrite decide_False; [done | apply not_elem_of_nil].
    - rewrite IH. destruct (decide (key ∈ keys)) as [Hin|Hnin].
      + rewrite decide_True; [done | by right].
      + destruct (decide (key = k)) as [->|Hne].
        * rewrite lookup_insert_eq. rewrite decide_True; [done | by left].
        * rewrite lookup_insert_ne by done. rewrite decide_False; [done|].
          rewrite elem_of_cons. tauto. }
  rewrite Hgen. destruct (decide (key ∈ map_keys l)) as [Hin|Hnin].
  - rewrite decide_True; [done | by apply elem_of_map_keys].
  - rewrite decide_False; [done | by rewrite <- elem_of_map_keys].
Qed.

(** X24: HasLocationsNotIn answers [false] exactly when every location of
    the first set is in the second, whatever the order the set is ranged
    over.  SetBlockedIn loses nothing: afterwards neither the set handed in
    nor the set the resource had has a location that the resource's set
    lacks; the locations handed in map to [true] and the others keep what
    they had. *)
Theorem X24_location_sets (s1 s2 : LocationSet) :
  (HasLocationsNotIn s1 s2 = false <->
     forall key, is_Some (s1 !! key) -> is_Some (s2 !! key)) /\
  HasLocationsNotIn s1 (SetBlockedIn s1 s2) = false /\
  HasLocationsNotIn s2 (SetBlockedIn s1 s2) = false /\
  (forall key, SetBlockedIn s1 s2 !! key =
               if decide (is_Some (s1 !! key)) then Some true else s2 !! key).
Proof.
  assert (Hiff : forall a b : LocationSet,
            HasLocationsNotIn a b = false <->
            forall key, is_Some (a !! key) -> is_Some (b !! key)).
  { intros a b. unfold HasLocationsNotIn. split.
    - intros Hex key Hkey. apply elem_of_map_keys in Hkey.
      destruct (decide (is_Some (b !! key))) as [|Hno]; [done|]. exfalso.
      assert (existsb (fun key => negb (bool_decide (is_Some (b !! key)))) (map_keys a) = true)
        as Htrue; [|congruence].
      apply existsb_exists. exists key. split; [by apply list_elem_of_In|].
      by rewrite bool_decide_false.
    - intros Hall. apply not_true_is_false. intros Hex.
      apply existsb_exists in Hex as (key & Hin & Hneg). apply list_elem_of_In in Hin.
      apply elem_of_map_keys in Hin. rewrite bool_decide_true in Hneg; [done|]. by apply Hall. }
  split; [apply Hiff|]. split; [|split; [|apply SetBlockedIn_lookup]].
  - apply Hiff. intros key Hkey. rewrite SetBlockedIn_lookup. by rewrite decide_True.
  - apply Hiff. intros key Hkey. rewrite SetBlockedIn_lookup.
    destruct (decide (is_Some (s1 !! key))); [by eexists | done].
Qed.
